(** * commerzbank-pdf-to-csv: the statement parser and the CSV writer

    A shallow embedding of [src/transaction_parser.py], [src/models.py]
    and [src/csv_writer.py], together with the parts of the Python
    runtime they call ([str] methods, [re], [datetime.strptime],
    [decimal.Decimal], [float] formatting), and the properties of the
    parser and the writer stated in the specification.

    Conventions.
    - A Python [str] is a list of Unicode code points ([N]).
    - A raised exception is the [Raise] outcome of a computation; the
      loops of [parse] are a transition system run with fuel, and
      running out of fuel is the third outcome [OutOfFuel] (shown never
      to happen for the fuel [parse] supplies).
    - [self.year] is threaded explicitly: the parser object is a record
      and [parse] returns the updated object next to its outcome. *)

From Stdlib Require Import String Ascii List ZArith NArith Lia Bool.
Import ListNotations.


(** ** Outcomes of computations *)

Inductive exn : Type :=
| MissingStatementDate  (* ValueError("Could not find statement date in PDF") *)
| InvalidDate           (* ValueError raised by datetime.strptime *)
| YearNotResolved       (* ValueError("Year not extracted from statement header") *)
| MalformedAmount       (* decimal.InvalidOperation raised by Decimal(str) *)
| DecimalOverflow       (* decimal.Overflow raised when rounding a result *)
| IndexError            (* lines[i] with i out of range *)
| EmptyTransactions     (* ValueError("Cannot write CSV: transactions list is empty") *)
| InvalidDestination    (* ValueError("Output file must have .csv extension: ...") *)
| PermissionDenied.     (* PermissionError("Cannot write to file: ...") *)

Inductive result (A : Type) : Type :=
| Ok (a : A)
| Raise (e : exn)
| OutOfFuel.

Arguments Ok {A} a.
Arguments Raise {A} e.
Arguments OutOfFuel {A}.

Definition bind {A B : Type} (c : result A) (k : A -> result B) : result B :=
  match c with
  | Ok a => k a
  | Raise e => Raise e
  | OutOfFuel => OutOfFuel
  end.

Declare Scope py_scope.
Delimit Scope py_scope with py.
Notation "x <- c ;; k" := (bind c (fun x => k))
  (at level 61, c at next level, right associativity) : py_scope.
Open Scope py_scope.

(** ** Python strings *)

Module Str.

Definition char : Type := N.
Definition str : Type := list char.

(** An ASCII literal as a Python string. *)
Definition lit (s : string) : str :=
  List.map N_of_ascii (list_ascii_of_string s).

Definition LF : char := 10%N.
Definition SPACE : char := 32%N.
Definition MINUS : char := 45%N.         (* '-' *)
Definition DOT : char := 46%N.           (* '.' *)
Definition COMMA : char := 44%N.         (* ',' *)
Definition UMINUS : char := 8722%N.      (* U+2212 MINUS SIGN *)
Definition a_uml : char := 228%N.        (* U+00E4 *)

Definition in_range (lo hi c : N) : bool := (N.leb lo c && N.leb c hi)%bool.

(** [str.isspace] on one character, which is also [\s] of [re] and the
    set [str.strip()] removes: the characters of bidirectional type
    WS, B or S and of category Zs. *)
Definition is_space (c : char) : bool :=
  (in_range 9 13 c || in_range 28 32 c || N.eqb c 133 || N.eqb c 160
   || N.eqb c 5760 || in_range 8192 8202 c || N.eqb c 8232 || N.eqb c 8233
   || N.eqb c 8239 || N.eqb c 8287 || N.eqb c 12288)%bool.

(** The zero digits of the runs of decimal digits (category Nd) of the
    Unicode database of CPython 3.11 (Unicode 14.0.0); every run is
    ten consecutive code points with the values 0 to 9. *)
Definition digit_zeros : list N :=
  [ 48; 1632; 1776; 1984; 2406; 2534; 2662; 2790; 2918; 3046; 3174; 3302;
    3430; 3558; 3664; 3792; 3872; 4160; 4240; 6112; 6160; 6470; 6608; 6784;
    6800; 6992; 7088; 7232; 7248; 42528; 43216; 43264; 43472; 43504; 43600;
    44016; 65296; 66720; 68912; 69734; 69872; 69942; 70096; 70384; 70736;
    70864; 71248; 71360; 71472; 71904; 72016; 72784; 73040; 73120; 92768;
    92864; 93008; 120782; 120792; 120802; 120812; 120822; 123200; 123632;
    125264; 130032 ]%N.

Fixpoint digit_in (zeros : list N) (c : char) : option N :=
  match zeros with
  | [] => None
  | z :: zs => if in_range z (z + 9) c then Some (c - z)%N else digit_in zs c
  end.

(** [Py_UNICODE_TODECIMAL]: the value of a decimal digit. *)
Definition digit_value (c : char) : option N := digit_in digit_zeros c.

(** [\d] of [re] on [str] patterns. *)
Definition is_digit (c : char) : bool :=
  match digit_value c with Some _ => true | None => false end.

Definition is_empty (s : str) : bool :=
  match s with [] => true | _ => false end.

Fixpoint dropWhile (p : char -> bool) (s : str) : str :=
  match s with
  | [] => []
  | c :: t => if p c then dropWhile p t else s
  end.

Definition lstrip (s : str) : str := dropWhile is_space s.
Definition rstrip (s : str) : str := rev (dropWhile is_space (rev s)).

(** [s.strip()] *)
Definition strip (s : str) : str := rstrip (lstrip s).

(** [s.rstrip(c)] for a one-character argument. *)
Definition rstrip_char (c : char) (s : str) : str :=
  rev (dropWhile (N.eqb c) (rev s)).

(** [s.endswith(c)] for a one-character argument. *)
Definition endswith_char (c : char) (s : str) : bool :=
  match rev s with
  | x :: _ => N.eqb x c
  | [] => false
  end.

(** [s.replace(old, new)] for a one-character [old]. *)
Definition replace (old : char) (new : str) (s : str) : str :=
  flat_map (fun c => if N.eqb c old then new else [c]) s.

(** [s.split(sep)] for a one-character separator. *)
Fixpoint split (sep : char) (s : str) : list str :=
  match s with
  | [] => [[]]
  | c :: t =>
      if N.eqb c sep then [] :: split sep t
      else match split sep t with
           | l :: ls => (c :: l) :: ls
           | [] => [[c]]
           end
  end.

(** [sep.join(parts)] *)
Fixpoint join (sep : str) (parts : list str) : str :=
  match parts with
  | [] => []
  | [p] => p
  | p :: ps => p ++ sep ++ join sep ps
  end.

(** [s[a:b]] for [0 <= a <= b]. *)
Definition slice (a b : nat) (s : str) : str := firstn (b - a) (skipn a s).

Fixpoint eqb (s t : str) : bool :=
  match s, t with
  | [], [] => true
  | c :: s', d :: t' => (N.eqb c d && eqb s' t')%bool
  | _, _ => false
  end.

(** [int(s)] on a string of decimal digits (0 on other input, which
    the callers below never pass). *)
Definition int_of_digits (s : str) : N :=
  fold_left (fun acc c =>
               match digit_value c with
               | Some v => (10 * acc + v)%N
               | None => acc
               end) s 0%N.

(** [str(n)] for a natural number: its ASCII decimal digits. *)
Fixpoint digits_fuel (fuel : nat) (n : N) (acc : str) : str :=
  match fuel with
  | O => acc
  | S f =>
      let acc' := (48 + n mod 10)%N :: acc in
      if N.ltb n 10 then acc' else digits_fuel f (n / 10)%N acc'
  end.

Definition str_of_N (n : N) : str := digits_fuel (S (N.to_nat (N.log2 n))) n [].

(** [str(z)] for an integer. *)
Definition str_of_Z (z : Z) : str :=
  if (z <? 0)%Z then MINUS :: str_of_N (Z.to_N (- z)) else str_of_N (Z.to_N z).

End Str.
Import Str.

(** ** The fragment of [re] the program uses

    A backtracking matcher in continuation-passing style: alternatives
    are tried in the order of CPython's engine (left alternative first,
    greedy repetitions longest first, lazy ones shortest first) and the
    first complete match wins; groups record the span they matched. *)

Module Re.

Inductive re : Type :=
| Eps
| Chr (c : char)              (* a literal character *)
| Cls (p : char -> bool)      (* one character of a class *)
| Bol                         (* ^ without MULTILINE *)
| Eol                         (* $ without MULTILINE *)
| Cat (r1 r2 : re)
| Alt (r1 r2 : re)            (* r1|r2 *)
| Opt (r : re)                (* r? *)
| PlusG (p : char -> bool)    (* [class]+ *)
| PlusL (p : char -> bool)    (* [class]+? *)
| Grp (n : nat) (r : re).     (* capturing group number n *)

Definition spans : Type := list (nat * (nat * nat)).
Definition cont : Type := nat -> str -> spans -> option (nat * spans).

Fixpoint starG (p : char -> bool) (pos : nat) (rest : str) (g : spans)
         (k : cont) : option (nat * spans) :=
  match rest with
  | x :: t =>
      if p x then
        match starG p (S pos) t g k with
        | Some r => Some r
        | None => k pos rest g
        end
      else k pos rest g
  | [] => k pos rest g
  end.

Fixpoint starL (p : char -> bool) (pos : nat) (rest : str) (g : spans)
         (k : cont) : option (nat * spans) :=
  match k pos rest g with
  | Some r => Some r
  | None =>
      match rest with
      | x :: t => if p x then starL p (S pos) t g k else None
      | [] => None
      end
  end.

Fixpoint exec (r : re) (pos : nat) (rest : str) (g : spans) (k : cont)
  : option (nat * spans) :=
  match r with
  | Eps => k pos rest g
  | Chr c =>
      match rest with
      | x :: t => if N.eqb x c then k (S pos) t g else None
      | [] => None
      end
  | Cls p =>
      match rest with
      | x :: t => if p x then k (S pos) t g else None
      | [] => None
      end
  | Bol => if Nat.eqb pos 0 then k pos rest g else None
  | Eol =>
      match rest with
      | [] => k pos rest g
      | [x] => if N.eqb x LF then k pos rest g else None
      | _ => None
      end
  | Cat r1 r2 => exec r1 pos rest g (fun p' t' g' => exec r2 p' t' g' k)
  | Alt r1 r2 =>
      match exec r1 pos rest g k with
      | Some x => Some x
      | None => exec r2 pos rest g k
      end
  | Opt r' =>
      match exec r' pos rest g k with
      | Some x => Some x
      | None => k pos rest g
      end
  | PlusG p =>
      match rest with
      | x :: t => if p x then starG p (S pos) t g k else None
      | [] => None
      end
  | PlusL p =>
      match rest with
      | x :: t => if p x then starL p (S pos) t g k else None
      | [] => None
      end
  | Grp n r' => exec r' pos rest g (fun p' t' g' => k p' t' ((n, (pos, p')) :: g'))
  end.

Definition accept : cont := fun p _ g => Some (p, g).

(** A match object: the subject, the span of the match, the groups. *)
Record Match : Type := { m_string : str; m_start : nat; m_end : nat; m_spans : spans }.

Fixpoint lookup (n : nat) (g : spans) : option (nat * nat) :=
  match g with
  | [] => None
  | (k, sp) :: g' => if Nat.eqb k n then Some sp else lookup n g'
  end.

(** [m.group(n)] (the empty string for a group that took no part). *)
Definition group (m : Match) (n : nat) : str :=
  match lookup n (m_spans m) with
  | Some (a, b) => slice a b (m_string m)
  | None => []
  end.

Fixpoint search_from (r : re) (s : str) (pos : nat) (rest : str) : option Match :=
  match exec r pos rest [] accept with
  | Some (e, g) => Some {| m_string := s; m_start := pos; m_end := e; m_spans := g |}
  | None =>
      match rest with
      | [] => None
      | _ :: t => search_from r s (S pos) t
      end
  end.

(** [re.search(r, s)] *)
Definition search (r : re) (s : str) : option Match := search_from r s 0 s.

(** [re.match(r, s)] *)
Definition match_ (r : re) (s : str) : option Match :=
  match exec r 0 s [] accept with
  | Some (e, g) => Some {| m_string := s; m_start := 0; m_end := e; m_spans := g |}
  | None => None
  end.

Definition found (o : option Match) : bool :=
  match o with Some _ => true | None => false end.

(** Pattern syntax. *)
Fixpoint chars (s : str) : re :=
  match s with
  | [] => Eps
  | c :: t => Cat (Chr c) (chars t)
  end.

Definition text (s : string) : re := chars (lit s).

Fixpoint rep (n : nat) (r : re) : re :=      (* r{n} *)
  match n with
  | O => Eps
  | S n' => Cat r (rep n' r)
  end.

Definition d : re := Cls is_digit.                                  (* \d *)
Definition dot : re := Chr DOT.                                     (* \. *)
Definition any (c : char) : bool := negb (N.eqb c LF).              (* . *)
Definition amount_char (c : char) : bool :=                         (* [\d.,] *)
  (is_digit c || N.eqb c DOT || N.eqb c COMMA)%bool.

Fixpoint cat (rs : list re) : re :=
  match rs with
  | [] => Eps
  | [r] => r
  | r :: rs' => Cat r (cat rs')
  end.

End Re.
Import Re.

(** ** [datetime] *)

Module Datetime.

(** A [datetime.datetime]; [strptime] with a date-only format leaves
    the time of day at midnight, so only the date fields are kept. *)
Record datetime : Type := { dt_year : Z; dt_month : Z; dt_day : Z }.

(** A [datetime.date]. *)
Record date : Type := { year : Z; month : Z; day : Z }.

(** [dt.date()] *)
Definition date_of (dt : datetime) : date :=
  {| year := dt_year dt; month := dt_month dt; day := dt_day dt |}.

Definition is_leap (y : Z) : bool :=
  ((y mod 4 =? 0) && (negb (y mod 100 =? 0) || (y mod 400 =? 0)))%bool%Z.

Definition days_in_month (y m : Z) : Z :=
  if (m =? 2)%Z then (if is_leap y then 29 else 28)%Z
  else if ((m =? 4) || (m =? 6) || (m =? 9) || (m =? 11))%bool%Z then 30%Z
  else 31%Z.

(** The checks of the [datetime] constructor (MINYEAR = 1, MAXYEAR = 9999). *)
Definition valid_date (y m d : Z) : bool :=
  ((1 <=? y) && (y <=? 9999) && (1 <=? m) && (m <=? 12)
   && (1 <=? d) && (d <=? days_in_month y m))%bool%Z.

Definition ascii_range (lo hi : string) : char -> bool :=
  fun c => match lit lo, lit hi with
           | [a], [b] => in_range a b c
           | _, _ => false
           end.

(** The directives of [_strptime.TimeRE]. *)
Definition re_d : re :=      (* (?P<d>3[0-1]|[1-2]\d|0[1-9]|[1-9]| [1-9]) *)
  Grp 1 (Alt (Cat (text "3") (Cls (ascii_range "0" "1")))
        (Alt (Cat (Cls (ascii_range "1" "2")) d)
        (Alt (Cat (text "0") (Cls (ascii_range "1" "9")))
        (Alt (Cls (ascii_range "1" "9"))
             (Cat (text " ") (Cls (ascii_range "1" "9"))))))).
Definition re_m : re :=      (* (?P<m>1[0-2]|0[1-9]|[1-9]) *)
  Grp 2 (Alt (Cat (text "1") (Cls (ascii_range "0" "2")))
        (Alt (Cat (text "0") (Cls (ascii_range "1" "9")))
             (Cls (ascii_range "1" "9")))).
Definition re_Y : re :=      (* (?P<Y>\d\d\d\d) *)
  Grp 3 (rep 4 d).

(** The regular expression [_strptime] builds for ['%d.%m.%Y']. *)
Definition format_regex : re := cat [re_d; dot; re_m; dot; re_Y].

(** [datetime.strptime(s, '%d.%m.%Y')] *)
Definition strptime (data_string : str) : result datetime :=
  match match_ format_regex data_string with
  | None => Raise InvalidDate          (* does not match format *)
  | Some found =>
      if negb (Nat.eqb (length data_string) (m_end found)) then
        Raise InvalidDate              (* unconverted data remains *)
      else
        let y := Z.of_N (int_of_digits (group found 3)) in
        let m := Z.of_N (int_of_digits (group found 2)) in
        let d := Z.of_N (int_of_digits (strip (group found 1))) in
        if valid_date y m d then Ok {| dt_year := y; dt_month := m; dt_day := d |}
        else Raise InvalidDate         (* out of range *)
  end.

(** [d.strftime('%d.%m.%Y')]; the C library prints the year without
    padding. *)
Definition pad2 (n : Z) : str :=
  let s := str_of_N (Z.to_N n) in
  match s with [_] => lit "0" ++ s | _ => s end.

Definition strftime (x : date) : str :=
  pad2 (day x) ++ lit "." ++ pad2 (month x) ++ lit "." ++ str_of_N (Z.to_N (year x)).

End Datetime.
Import Datetime.

(** ** [decimal.Decimal] under the default context *)

Module Dec.

(** A finite decimal: sign, coefficient and exponent; the value is
    [(-1)^sign * coeff * 10^exp]. *)
Record Decimal : Type := { d_sign : bool; d_coeff : N; d_exp : Z }.

(** The value as a signed coefficient and an exponent. *)
Definition unscaled (x : Decimal) : Z :=
  if d_sign x then (- Z.of_N (d_coeff x))%Z else Z.of_N (d_coeff x).

Fixpoint takeWhile (p : char -> bool) (s : str) : str :=
  match s with
  | [] => []
  | c :: t => if p c then c :: takeWhile p t else []
  end.

(** [Decimal(s)] for a string [s] of digits and points, which is all
    [_parse_betrag] can pass once it has rewritten a token of the amount
    grammar: an integer part, an optional point and fractional part, at
    least one digit in all; anything else of this alphabet is a
    conversion syntax error.  (Signs, exponents, underscores, blanks and
    the special values of the full constructor do not occur in this
    alphabet.) *)
Definition of_str (s : str) : result Decimal :=
  let intpart := takeWhile is_digit s in
  match dropWhile is_digit s with
  | [] =>
      if is_empty intpart then Raise MalformedAmount
      else Ok {| d_sign := false; d_coeff := int_of_digits intpart; d_exp := 0 |}
  | c :: fracpart =>
      if (N.eqb c DOT && forallb is_digit fracpart
          && negb (is_empty intpart && is_empty fracpart))%bool
      then Ok {| d_sign := false;
                 d_coeff := int_of_digits (intpart ++ fracpart);
                 d_exp := - Z.of_nat (length fracpart) |}
      else Raise MalformedAmount
  end.

(** The default context. *)
Definition prec : Z := 28.
Definition Emax : Z := 999999.
Definition Emin : Z := -999999.
Definition Etiny : Z := Emin - prec + 1.
Definition Etop : Z := Emax - prec + 1.

(** [len(self._int)] *)
Definition ndigits (n : N) : Z := Z.of_nat (length (str_of_N n)).

(** [Decimal._fix]: round to the precision of the context
    (ROUND_HALF_EVEN, clamp = 0; Overflow is trapped, the other signals
    of rounding are not). *)
Definition fix_ (x : Decimal) : result Decimal :=
  if N.eqb (d_coeff x) 0 then
    Ok {| d_sign := d_sign x; d_coeff := 0;
          d_exp := Z.min (Z.max (d_exp x) Etiny) Emax |}
  else
    let len := ndigits (d_coeff x) in
    let exp_min := (len + d_exp x - prec)%Z in
    if (exp_min >? Etop)%Z then Raise DecimalOverflow
    else
      let exp_min := if (exp_min <? Etiny)%Z then Etiny else exp_min in
      if (d_exp x <? exp_min)%Z then
        let digits := (len + d_exp x - exp_min)%Z in
        let '(c, len, digits) :=
          if (digits <? 0)%Z then (1%Z, 1%Z, 0%Z)
          else (Z.of_N (d_coeff x), len, digits) in
        let k := (len - digits)%Z in
        let q := (c / 10 ^ k)%Z in
        let r := (c mod 10 ^ k)%Z in
        let up := ((2 * r >? 10 ^ k) || ((2 * r =? 10 ^ k) && Z.odd q))%bool%Z in
        let coeff := if up then (q + 1)%Z else q in
        let '(coeff, exp_min) :=
          if (up && (ndigits (Z.to_N coeff) >? prec)%Z)%bool
          then ((coeff / 10)%Z, (exp_min + 1)%Z) else (coeff, exp_min) in
        if (exp_min >? Etop)%Z then Raise DecimalOverflow
        else Ok {| d_sign := d_sign x; d_coeff := Z.to_N coeff; d_exp := exp_min |}
      else Ok x.

(** [-x] ([Decimal.__neg__]): a zero loses its sign, and the result is
    rounded to the context. *)
Definition neg (x : Decimal) : result Decimal :=
  if N.eqb (d_coeff x) 0
  then fix_ {| d_sign := false; d_coeff := d_coeff x; d_exp := d_exp x |}
  else fix_ {| d_sign := negb (d_sign x); d_coeff := d_coeff x; d_exp := d_exp x |}.

(** [x < 0] *)
Definition ltb0 (x : Decimal) : bool := (d_sign x && negb (N.eqb (d_coeff x) 0))%bool.

End Dec.
Import Dec.

(** ** [src/models.py] *)

Record Transaction : Type := {
  buchungsdatum : date;
  valuta : date;
  beschreibung : str;
  betrag : Decimal;
  waehrung : str;
  gegenkonto_iban : option str;
  gegenkonto_bic : option str;
  verwendungszweck : option str
}.

(** [Transaction.is_debit] *)
Definition is_debit (t : Transaction) : bool := ltb0 (betrag t).

(** ** [src/transaction_parser.py] *)

Module TransactionParser.

(** The parser object. *)
Record t : Type := { verbose : bool; year : option Z }.

(** [TransactionParser(verbose)] *)
Definition init (verbose : bool) : t := {| verbose := verbose; year := None |}.

(** [r'(\d{2}\.\d{2}\.\d{4})'] *)
Definition date_group : re := Grp 1 (cat [rep 2 d; dot; rep 2 d; dot; rep 4 d]).

(** [r'Kontoauszug vom (\d{2}\.\d{2}\.\d{4})'] *)
Definition STATEMENT_DATE_PATTERN : re := Cat (text "Kontoauszug vom ") date_group.

(** [r'Buchungsdatum: (\d{2}\.\d{2}\.\d{4})'] *)
Definition BOOKING_DATE_PATTERN : re := Cat (text "Buchungsdatum: ") date_group.

(** [r'^(.+?)\s+(\d{2}\.\d{2})\s+([\d.,]+[-]?)$'] *)
Definition TRANSACTION_PATTERN : re :=
  cat [ Bol; Grp 1 (PlusL any); PlusG is_space;
        Grp 2 (cat [rep 2 d; dot; rep 2 d]); PlusG is_space;
        Grp 3 (Cat (PlusG amount_char) (Opt (Chr MINUS))); Eol ].

(** [_extract_year]: returns the parser with [year] set. *)
Definition extract_year (self : t) (text : str) : result t :=
  match search STATEMENT_DATE_PATTERN text with
  | None => Raise MissingStatementDate
  | Some m =>
      let date_str := group m 1 in
      date_obj <- strptime date_str ;;
      Ok {| verbose := verbose self; year := Some (dt_year date_obj) |}
  end.

(** The catalog of [_is_non_transaction_line]. *)
Definition skip_patterns : list re :=
  [ Cat Bol (text "Buchungsdatum:");
    text "End-to-End-Ref";
    Cat Bol (text "Mandatsref:");
    Cat Bol (chars (lit "Gl" ++ [a_uml] ++ lit "ubiger-ID:"));
    Cat Bol (text "SEPA-");
    Cat Bol (text "Folgeseite");
    Cat Bol (text "Kontoauszug vom");
    Cat Bol (Cat (text "Auszug-Nr") dot);
    Cat Bol (text "IBAN:");
    Cat Bol (text "BIC");
    Cat Bol (chars (lit "Kontow" ++ [a_uml] ++ lit "hrung"));
    Cat Bol (chars (lit "Angaben zu den Ums" ++ [a_uml] ++ lit "tzen")) ].

(** [_is_non_transaction_line] *)
Definition is_non_transaction_line (line : str) : bool :=
  existsb (fun pattern => found (search pattern line)) skip_patterns.

(** The loop of [_collect_description] over the indices of its range. *)
Fixpoint collect_loop (lines : list str) (idxs : list nat)
         (description_parts : list str) : list str :=
  match idxs with
  | [] => description_parts
  | i :: idxs' =>
      let line := strip (nth i lines []) in
      if found (search TRANSACTION_PATTERN line) then description_parts       (* break *)
      else if found (search BOOKING_DATE_PATTERN line) then description_parts (* break *)
      else if is_empty line then collect_loop lines idxs' description_parts   (* continue *)
      else if is_non_transaction_line line then
             collect_loop lines idxs' description_parts                       (* continue *)
      else collect_loop lines idxs' (description_parts ++ [line])
  end.

(** [range(a, b)] *)
Definition range (a b : nat) : list nat := seq a (b - a).

(** [_collect_description] *)
Definition collect_description (lines : list str) (start_index : nat)
           (initial_desc : str) : str :=
  join [SPACE]
       (collect_loop lines
                     (range start_index (Nat.min (start_index + 5) (length lines)))
                     [initial_desc]).

(** [_parse_date] *)
Definition parse_date (date_str : str) : result datetime := strptime date_str.

(** [_parse_valuta] *)
Definition parse_valuta (self : t) (valuta_str : str) : result datetime :=
  match year self with
  | None => Raise YearNotResolved
  | Some y =>
      if (y =? 0)%Z then Raise YearNotResolved
      else
        let full_date_str := valuta_str ++ [DOT] ++ str_of_Z y in
        strptime full_date_str
  end.

(** [_parse_betrag] *)
Definition parse_betrag (betrag_str : str) : result Decimal :=
  let is_negative := endswith_char MINUS betrag_str in
  let betrag_str := rstrip_char MINUS betrag_str in
  let betrag_str := replace COMMA [DOT] (replace DOT [] betrag_str) in
  amount <- Dec.of_str betrag_str ;;
  if is_negative then Dec.neg amount else Ok amount.

(** [lines[i]] *)
Definition getitem (lines : list str) (i : nat) : result str :=
  match nth_error lines i with
  | Some l => Ok l
  | None => Raise IndexError
  end.

(** [_try_parse_transaction] *)
Definition try_parse_transaction (self : t) (lines : list str) (index : nat)
           (booking_date : datetime) : result (option Transaction) :=
  l <- getitem lines index ;;
  let line := strip l in
  if (is_empty line || is_non_transaction_line line)%bool then Ok None
  else
    match search TRANSACTION_PATTERN line with
    | None => Ok None
    | Some m =>
        let beschreibung := strip (group m 1) in
        let valuta_str := group m 2 in
        let betrag_str := group m 3 in
        valuta <- parse_valuta self valuta_str ;;
        betrag <- parse_betrag betrag_str ;;
        let full_description := collect_description lines (index + 1) beschreibung in
        Ok (Some {| buchungsdatum := date_of booking_date;
                    valuta := date_of valuta;
                    beschreibung := beschreibung;
                    betrag := betrag;
                    waehrung := lit "EUR";
                    gegenkonto_iban := None;
                    gegenkonto_bic := None;
                    verwendungszweck := Some full_description |})
    end.

(** *** The loops of [parse] as a transition system

    The control points are the heads of the two [while] loops: the
    outer one ([Seeking], no booking date in force) and the inner one
    ([InBlock booking_date]).  A state holds the control point, the
    cursor [i] and the list [transactions]; every record is kept with
    the index of the line it was appended at (a ghost component, which
    [parse] drops). *)

Inductive phase : Type :=
| Seeking
| InBlock (booking_date : datetime).

Record state : Type := {
  pc : phase;
  i : nat;
  transactions : list (nat * Transaction)
}.

Definition goto (p : phase) (i : nat) (txs : list (nat * Transaction)) : state :=
  {| pc := p; i := i; transactions := txs |}.

(** One iteration: [inl] is the next state, [inr] the returned list. *)
Definition step (self : t) (lines : list str) (st : state)
  : result (state + list (nat * Transaction)) :=
  let txs := transactions st in
  match pc st with
  | Seeking =>
      if i st <? length lines then
        l <- getitem lines (i st) ;;
        let line := strip l in
        match search BOOKING_DATE_PATTERN line with
        | Some booking_match =>
            let booking_date_str := group booking_match 1 in
            booking_date <- parse_date booking_date_str ;;
            Ok (inl (goto (InBlock booking_date) (i st + 1) txs))
        | None => Ok (inl (goto Seeking (i st + 1) txs))
        end
      else Ok (inr txs)
  | InBlock booking_date =>
      if i st <? length lines then
        trans <- try_parse_transaction self lines (i st) booking_date ;;
        match trans with
        | Some tr => Ok (inl (goto (InBlock booking_date) (i st + 1) (txs ++ [(i st, tr)])))
        | None =>
            l <- getitem lines (i st) ;;
            if found (search BOOKING_DATE_PATTERN l)
            then Ok (inl (goto Seeking (i st) txs))                          (* break *)
            else Ok (inl (goto (InBlock booking_date) (i st + 1) txs))
        end
      else Ok (inl (goto Seeking (i st) txs))
  end.

Fixpoint run (fuel : nat) (self : t) (lines : list str) (st : state)
  : result (list (nat * Transaction)) :=
  match fuel with
  | O => OutOfFuel
  | S fuel' =>
      r <- step self lines st ;;
      match r with
      | inl st' => run fuel' self lines st'
      | inr txs => Ok txs
      end
  end.

Definition start : state := goto Seeking 0 [].

(** The loops of [parse], with the line index of every record. *)
Definition scan (self : t) (lines : list str) : result (list (nat * Transaction)) :=
  run (2 * length lines + 2) self lines start.

(** [parse]: the parser object after the call, and the outcome. *)
Definition parse_indexed (self : t) (text : str)
  : t * result (list (nat * Transaction)) :=
  match extract_year self text with
  | Ok self' => (self', scan self' (split LF text))
  | Raise e => (self, Raise e)
  | OutOfFuel => (self, OutOfFuel)
  end.

Definition parse (self : t) (text : str) : t * result (list Transaction) :=
  let '(self', r) := parse_indexed self text in
  (self', txs <- r ;; Ok (List.map snd txs)).

End TransactionParser.

(** ** [float]: binary64 arithmetic, as far as the writer uses it *)

Module Float.

(** A binary64 number other than a NaN: a signed zero, [m * 2^e] with
    [0 < m < 2^53] and [-1074 <= e <= 971], or a signed infinity. *)
Inductive float : Type :=
| Fzero (neg : bool)
| Ffinite (neg : bool) (m : Z) (e : Z)
| Finf (neg : bool).

(** The quotient [a / b] rounded to the nearest integer, ties to even
    ([0 <= a], [0 < b]). *)
Definition rne (a b : Z) : Z :=
  let q := (a / b)%Z in
  let r := (a mod b)%Z in
  if (2 * r <? b)%Z then q
  else if (b <? 2 * r)%Z then (q + 1)%Z
  else if Z.even q then q else (q + 1)%Z.

(** [floor (log2 (num / den))] for positive [num] and [den]. *)
Definition ilog2_ratio (num den : Z) : Z :=
  let e0 := (Z.log2 num - Z.log2 den)%Z in
  if (if (0 <=? e0)%Z then (den * 2 ^ e0 <=? num)%Z else (den <=? num * 2 ^ (- e0))%Z)
  then e0 else (e0 - 1)%Z.

(** The binary64 number nearest to [num / den] (ties to even), with
    gradual underflow and overflow to infinity. *)
Definition of_ratio (neg : bool) (num den : Z) : float :=
  if (num =? 0)%Z then Fzero neg
  else
    let e := Z.max (ilog2_ratio num den - 52) (-1074) in
    let m := if (0 <=? e)%Z then rne num (den * 2 ^ e) else rne (num * 2 ^ (- e)) den in
    let '(m, e) := if (m =? 2 ^ 53)%Z then ((2 ^ 52)%Z, (e + 1)%Z) else (m, e) in
    if (m =? 0)%Z then Fzero neg
    else if (971 <? e)%Z then Finf neg
    else Ffinite neg m e.

(** [float(d)] for a decimal [d]: the correctly rounded conversion. *)
Definition of_Decimal (x : Decimal) : float :=
  if (0 <=? d_exp x)%Z
  then of_ratio (d_sign x) (Z.of_N (d_coeff x) * 10 ^ d_exp x) 1
  else of_ratio (d_sign x) (Z.of_N (d_coeff x)) (10 ^ (- d_exp x)).

(** [x < 0] *)
Definition ltb0 (x : float) : bool :=
  match x with
  | Fzero _ => false
  | Ffinite neg _ _ => neg
  | Finf neg => neg
  end.

(** [abs(x)] *)
Definition fabs (x : float) : float :=
  match x with
  | Fzero _ => Fzero false
  | Ffinite _ m e => Ffinite false m e
  | Finf _ => Finf false
  end.

(** The digits of a natural number with a comma in front of every group
    of three, as the [,] option of the format specification sets them. *)
Fixpoint group_rev (rev_digits : str) (k : nat) : str :=
  match rev_digits with
  | [] => []
  | c :: t =>
      match t with
      | [] => [c]
      | _ => if Nat.eqb k 2 then c :: COMMA :: group_rev t 0
             else c :: group_rev t (S k)
      end
  end.

Definition group3 (digits : str) : str := rev (group_rev (rev digits) 0).

Definition two_digits (n : Z) : str :=
  [(48 + Z.to_N (n / 10))%N; (48 + Z.to_N (n mod 10))%N].

(** [round(|x| * 100)] to the nearest integer, ties to even, for a zero
    or finite [x]: the digits the [.2f] presentation prints. *)
Definition hundredths (x : float) : Z :=
  match x with
  | Ffinite _ m e =>
      if (0 <=? e)%Z then (100 * m * 2 ^ e)%Z else rne (100 * m) (2 ^ (- e))
  | _ => 0%Z
  end.

Definition sign_of (x : float) : bool :=
  match x with Fzero neg | Ffinite neg _ _ | Finf neg => neg end.

(** [f"{x:,.2f}"] *)
Definition format_comma_2f (x : float) : str :=
  (if sign_of x then [MINUS] else [])
  ++ match x with
     | Finf _ => lit "inf"
     | _ =>
         let r := hundredths x in
         group3 (str_of_N (Z.to_N (r / 100))) ++ [DOT] ++ two_digits (r mod 100)
     end.

End Float.

(** ** [src/csv_writer.py] *)

Module CSVWriter.

Definition DELIMITER : char := 59%N.     (* semicolon *)
Definition QUOTECHAR : char := 34%N.     (* quotation mark *)
Definition X : char := 88%N.             (* the letter X *)

Definition HEADER : list str :=
  [ lit "Buchungstag"; lit "Wertstellung"; lit "Umsatzart"; lit "Buchungstext";
    lit "Betrag"; lit "W" ++ [a_uml] ++ lit "hrung"; lit "Auftraggeberkonto";
    lit "Bankleitzahl Auftraggeberkonto"; lit "IBAN Auftraggeberkonto" ].

(** The writer object. *)
Record t : Type := { verbose : bool }.

(** A [pathlib.Path], by its parts. *)
Record Path : Type := { parts : list str }.

(** [p.name]: the final part. *)
Definition name (p : Path) : str := last (parts p) [].

(** [s.rfind(c)] *)
Fixpoint rfind (c : char) (s : str) : option nat :=
  match s with
  | [] => None
  | x :: t =>
      match rfind c t with
      | Some k => Some (S k)
      | None => if N.eqb x c then Some 0 else None
      end
  end.

(** [p.suffix] *)
Definition suffix (p : Path) : str :=
  let nm := name p in
  match rfind DOT nm with
  | Some k => if ((0 <? k) && (k <? length nm - 1))%bool then skipn k nm else []
  | None => []
  end.

(** [s.lower()] on the letters of ASCII; no other character is turned
    into a part of the string ".csv" by [str.lower], so the comparison
    below comes out as in Python for every string. *)
Definition lower (s : str) : str :=
  List.map (fun c => if in_range 65 90 c then (c + 32)%N else c) s.

(** [_validate_output_path] *)
Definition validate_output_path (output_path : Path) : result unit :=
  if negb (Str.eqb (lower (suffix output_path)) (lit ".csv"))
  then Raise InvalidDestination
  else Ok tt.

(** [s.replace(',', 'X').replace('.', ',').replace('X', '.')] *)
Definition swap_separators (s : str) : str :=
  replace X [DOT] (replace DOT [COMMA] (replace COMMA [X] s)).

(** [_format_betrag] *)
Definition format_betrag (betrag : Decimal) : str :=
  let amount := Float.of_Decimal betrag in
  if Float.ltb0 amount
  then swap_separators (UMINUS :: Float.format_comma_2f (Float.fabs amount))
  else swap_separators (Float.format_comma_2f amount).

(** [_get_umsatzart] *)
Definition get_umsatzart (transaction : Transaction) : str :=
  if is_debit transaction then lit "Lastschrift" else lit "Gutschrift".

(** [x or y] on an optional string. *)
Definition or_else (x : option str) (y : str) : str :=
  match x with
  | Some (c :: s) => c :: s
  | _ => y
  end.

(** [_transaction_to_row], the values in the order of [HEADER]. *)
Definition transaction_to_row (transaction : Transaction) : list str :=
  let umsatzart := get_umsatzart transaction in
  [ strftime (buchungsdatum transaction);
    strftime (valuta transaction);
    umsatzart;
    or_else (verwendungszweck transaction) (beschreibung transaction);
    format_betrag (betrag transaction);
    waehrung transaction;
    [];
    [];
    or_else (gegenkonto_iban transaction) [] ].

(** One record of [csv.writer] with QUOTE_ALL: every field in quotes, the
    quotes inside doubled, the fields joined by the delimiter, the line
    ended by CR LF. *)
Definition quote (field : str) : str :=
  QUOTECHAR :: replace QUOTECHAR [QUOTECHAR; QUOTECHAR] field ++ [QUOTECHAR].

Definition writerow (row : list str) : str :=
  join [DELIMITER] (List.map quote row) ++ [13%N; 10%N].

(** The file system: the text files there are, and the paths that may
    not be written. *)
Record FS : Type := { files : list (Path * str); denied : list Path }.

Fixpoint parts_eqb (p q : list str) : bool :=
  match p, q with
  | [], [] => true
  | a :: p', b :: q' => (Str.eqb a b && parts_eqb p' q')%bool
  | _, _ => false
  end.

Definition path_eqb (p q : Path) : bool := parts_eqb (parts p) (parts q).

(** [open(path, 'w')] followed by writing [text] and closing, with the
    one refusal of the system that [write] handles, a path that may not be
    written: otherwise the file is made or replaced.  The other ways the
    system has to refuse (no directory for the file, a directory at the
    path, text that cannot be encoded, which leaves a file cut short) are
    outside this model. *)
Definition write_text (fs : FS) (path : Path) (text : str) : result FS :=
  if existsb (path_eqb path) (denied fs) then Raise PermissionDenied
  else Ok {| files := (path, text)
                      :: filter (fun f => negb (path_eqb path (fst f))) (files fs);
             denied := denied fs |}.

(** [write]: the file system after the call, and the outcome. *)
Definition write (self : t) (transactions : list Transaction) (output_path : Path)
           (fs : FS) : FS * result unit :=
  match transactions with
  | [] => (fs, Raise EmptyTransactions)
  | _ :: _ =>
      match validate_output_path output_path with
      | Ok _ =>
          let text := writerow HEADER
                      ++ concat (List.map (fun tr => writerow (transaction_to_row tr))
                                          transactions) in
          match write_text fs output_path text with
          | Ok fs' => (fs', Ok tt)
          | Raise e => (fs, Raise e)
          | OutOfFuel => (fs, OutOfFuel)
          end
      | Raise e => (fs, Raise e)
      | OutOfFuel => (fs, OutOfFuel)
      end
  end.

End CSVWriter.

(** ** [csv.DictWriter], as far as the writer uses it *)

Module DictWriter.

(** A row dictionary: the keys with their values, in the order of the
    dictionary display. *)
Definition rowdict : Type := list (str * str).

(** [rowdict.get(key, restval)] *)
Fixpoint get (d : rowdict) (key : str) (restval : str) : str :=
  match d with
  | [] => restval
  | (k, v) :: d' => if Str.eqb k key then v else get d' key restval
  end.

(** [DictWriter._dict_to_list] with [extrasaction='raise'] and
    [restval='']: a key that is no field name is an error ([None]);
    otherwise the values in the order of the field names, the empty
    string for a field the row does not have. *)
Definition dict_to_list (fieldnames : list str) (d : rowdict) : option (list str) :=
  if existsb (fun kv => negb (existsb (Str.eqb (fst kv)) fieldnames)) d
  then None
  else Some (List.map (fun key => get d key []) fieldnames).

(** [CSVWriter._transaction_to_row], as the dictionary it returns. *)
Definition transaction_to_rowdict (transaction : Transaction) : rowdict :=
  let umsatzart := CSVWriter.get_umsatzart transaction in
  [ (lit "Buchungstag", strftime (buchungsdatum transaction));
    (lit "Wertstellung", strftime (valuta transaction));
    (lit "Umsatzart", umsatzart);
    (lit "Buchungstext",
     CSVWriter.or_else (verwendungszweck transaction) (beschreibung transaction));
    (lit "Betrag", CSVWriter.format_betrag (betrag transaction));
    (lit "W" ++ [a_uml] ++ lit "hrung", waehrung transaction);
    (lit "Auftraggeberkonto", []);
    (lit "Bankleitzahl Auftraggeberkonto", []);
    (lit "IBAN Auftraggeberkonto", CSVWriter.or_else (gegenkonto_iban transaction) []) ].

End DictWriter.

(** ** [pathlib], as far as the file handler uses it (POSIX flavour) *)

Module Pathlib.
Import CSVWriter.

Definition SLASH : char := 47%N.

Definition has_slash (s : str) : bool := existsb (N.eqb SLASH) s.

(** [p.name]: the final part, unless that is the root. *)
Definition final_name (p : Path) : str :=
  let n := CSVWriter.name p in
  if has_slash n then [] else n.

(** [p.stem] *)
Definition stem (p : Path) : str :=
  let nm := final_name p in
  match rfind DOT nm with
  | Some k => if ((0 <? k) && (k <? length nm - 1))%bool then firstn k nm else nm
  | None => nm
  end.

(** The parts of a string: cut at the slashes, the empty parts and the
    parts "." left out. *)
Definition components (s : str) : list str :=
  filter (fun c => negb (is_empty c || Str.eqb c (lit "."))) (split SLASH s).

(** The root of a string that begins with a slash: two slashes exactly
    are a root of their own. *)
Definition root_of (s : str) : str :=
  if Nat.eqb (length (Dec.takeWhile (N.eqb SLASH) s)) 2 then [SLASH; SLASH] else [SLASH].

(** [p / s] *)
Definition truediv (p : Path) (s : str) : Path :=
  match s with
  | c :: _ =>
      if N.eqb c SLASH then {| parts := root_of s :: components s |}
      else {| parts := parts p ++ components s |}
  | [] => p
  end.

(** [p.parent] *)
Definition parent (p : Path) : Path :=
  match parts p with
  | [] => p
  | [r] => if has_slash r then p else {| parts := [] |}
  | _ => {| parts := removelast (parts p) |}
  end.

(** The order of paths: that of their parts as lists of strings. *)
Fixpoint str_compare (s t : str) : comparison :=
  match s, t with
  | [], [] => Eq
  | [], _ :: _ => Lt
  | _ :: _, [] => Gt
  | a :: s', b :: t' =>
      match N.compare a b with
      | Eq => str_compare s' t'
      | c => c
      end
  end.

Fixpoint parts_compare (p q : list str) : comparison :=
  match p, q with
  | [], [] => Eq
  | [], _ :: _ => Lt
  | _ :: _, [] => Gt
  | a :: p', b :: q' =>
      match str_compare a b with
      | Eq => parts_compare p' q'
      | c => c
      end
  end.

(** [p <= q] *)
Definition leb (p q : Path) : bool :=
  match parts_compare (parts p) (parts q) with
  | Gt => false
  | _ => true
  end.



End Pathlib.

(** ** [src/file_handler.py] *)

Module FileHandler.
Import CSVWriter.

(** What the entry of a path in its directory is: a regular file, a
    directory, something else (a device, a socket), or a symbolic link
    with nothing at its end.  A link that leads somewhere is an entry of
    the kind of what it leads to, as the three tests below follow
    links. *)
Inductive entry_kind : Type := File | Directory | Special | Dangling.

(** The disk: the entries there are, in the order the system lists
    them. *)
Record Disk : Type := { entries : list (Path * entry_kind) }.

(** The entry of a path, links not followed. *)
Definition lstat (disk : Disk) (p : Path) : option entry_kind :=
  match find (fun e => path_eqb p (fst e)) (entries disk) with
  | Some e => Some (snd e)
  | None => None
  end.

(** What a path leads to, links followed: nothing for a link with
    nothing at its end. *)
Definition stat (disk : Disk) (p : Path) : option entry_kind :=
  match lstat disk p with
  | Some Dangling => None
  | k => k
  end.

Definition is_file (disk : Disk) (p : Path) : bool :=
  match stat disk p with Some File => true | _ => false end.




(** [_is_pdf_file] *)
Definition is_pdf_file (file_path : Path) : bool :=
  Str.eqb (lower (suffix file_path)) (lit ".pdf").




(** [_get_base_directory] *)
Definition get_base_directory (disk : Disk) (path : Path) : Path :=
  if is_file disk path then Pathlib.parent path else path.

(** [get_default_output_dir] *)
Definition get_default_output_dir (disk : Disk) (input_path : Path) : Path :=
  Pathlib.truediv (get_base_directory disk input_path) (lit "csv").

(** [_generate_csv_filename] *)
Definition generate_csv_filename (pdf_path : Path) : str :=
  Pathlib.stem pdf_path ++ lit ".csv".

(** [get_output_csv_path] *)
Definition get_output_csv_path (pdf_path output_dir : Path) : Path :=
  let csv_filename := generate_csv_filename pdf_path in
  Pathlib.truediv output_dir csv_filename.

End FileHandler.

(** ** [src/pdf_parser.py] *)

Module PDFParser.





End PDFParser.


(** * Specification-side definitions *)

Module Spec.

(** The words of a pattern, the anchors read as the empty word. *)
Inductive lang : re -> str -> Prop :=
| L_Eps : lang Eps []
| L_Chr c : lang (Chr c) [c]
| L_Cls (p : char -> bool) c : p c = true -> lang (Cls p) [c]
| L_Bol : lang Bol []
| L_Eol : lang Eol []
| L_Cat r1 r2 w1 w2 : lang r1 w1 -> lang r2 w2 -> lang (Cat r1 r2) (w1 ++ w2)
| L_AltL r1 r2 w : lang r1 w -> lang (Alt r1 r2) w
| L_AltR r1 r2 w : lang r2 w -> lang (Alt r1 r2) w
| L_OptNone r : lang (Opt r) []
| L_OptSome r w : lang r w -> lang (Opt r) w
| L_PlusG (p : char -> bool) w :
    w <> [] -> Forall (fun c => p c = true) w -> lang (PlusG p) w
| L_PlusL (p : char -> bool) w :
    w <> [] -> Forall (fun c => p c = true) w -> lang (PlusL p) w
| L_Grp n r w : lang r w -> lang (Grp n r) w.

(** Patterns without choice: literals, classes, sequences and groups. *)
Fixpoint simple (r : re) : bool :=
  match r with
  | Eps | Chr _ | Cls _ => true
  | Cat r1 r2 => (simple r1 && simple r2)%bool
  | Grp _ r' => simple r'
  | _ => false
  end.




(** [text] has an occurrence of a word with property [P]. *)
Definition contains (P : str -> Prop) (text : str) : Prop :=
  exists pre w post, text = pre ++ w ++ post /\ P w.

(** A date written DD.MM.YYYY with any decimal digits. *)
Definition date_shaped (w : str) : Prop :=
  exists d1 d2 m1 m2 y1 y2 y3 y4,
    w = [d1; d2; DOT; m1; m2; DOT; y1; y2; y3; y4]
    /\ Forall (fun c => is_digit c = true) [d1; d2; m1; m2; y1; y2; y3; y4].

(** A word that begins and ends with a character that is no blank. *)
Definition solid (w : str) : Prop :=
  exists x mid y, w = x :: mid ++ [y] /\ is_space x = false /\ is_space y = false.

(** The booking-date marker "Buchungsdatum: DD.MM.YYYY". *)
Definition booking_marker (w : str) : Prop :=
  exists dt, w = lit "Buchungsdatum: " ++ dt /\ date_shaped dt.

(** The statement-date header "Kontoauszug vom DD.MM.YYYY". *)
Definition statement_header (w : str) : Prop :=
  exists dt, w = lit "Kontoauszug vom " ++ dt /\ date_shaped dt.

(** The states the loops of [parse] go through. *)
Inductive reachable (self : TransactionParser.t) (lines : list str)
  : TransactionParser.state -> Prop :=
| reach_start : reachable self lines TransactionParser.start
| reach_step st st' :
    reachable self lines st ->
    TransactionParser.step self lines st = Ok (inl st') ->
    reachable self lines st'.

(** The state after [n] iterations, when there is one. *)
Fixpoint nth_state (self : TransactionParser.t) (lines : list str) (n : nat)
  : option TransactionParser.state :=
  match n with
  | O => Some TransactionParser.start
  | S n' =>
      match nth_state self lines n' with
      | Some st =>
          match TransactionParser.step self lines st with
          | Ok (inl st') => Some st'
          | _ => None
          end
      | None => None
      end
  end.

(** The number of iterations left is bounded by this measure. *)
Definition mu (lines : list str) (st : TransactionParser.state) : nat :=
  2 * (length lines - TransactionParser.i st)
  + match TransactionParser.pc st with
    | TransactionParser.Seeking => 1
    | TransactionParser.InBlock _ => 2
    end.

(** The parser object holds a year of the calendar. *)
Definition resolved (self : TransactionParser.t) : Prop :=
  exists y, TransactionParser.year self = Some y /\ (1 <= y)%Z.

(** *** The continuation collector, in the words of the specification *)

(** The look-ahead window: the at most 5 lines from [start] on, trimmed. *)
Definition window (lines : list str) (start : nat) : list str :=
  List.map strip (firstn 5 (skipn start lines)).

(** A line that ends the scan: a transaction line or a booking-date marker. *)
Definition stops (line : str) : bool :=
  (found (search TransactionParser.TRANSACTION_PATTERN line)
   || found (search TransactionParser.BOOKING_DATE_PATTERN line))%bool.

(** The lines in front of the first line that ends the scan. *)
Fixpoint before_stop (ls : list str) : list str :=
  match ls with
  | [] => []
  | l :: t => if stops l then [] else l :: before_stop t
  end.

(** A continuation line: neither blank nor noise of the catalog. *)
Definition continuation (line : str) : bool :=
  (negb (is_empty line) && negb (TransactionParser.is_non_transaction_line line))%bool.

Definition continuation_lines (lines : list str) (start : nat) : list str :=
  filter continuation (before_stop (window lines start)).

Definition memo (lines : list str) (start : nat) (description : str) : str :=
  join [SPACE] (description :: continuation_lines lines start).

(** *** Line classes and booking blocks *)

(** The marker test of both loops of [parse]. *)
Definition has_marker (line : str) : bool :=
  found (search TransactionParser.BOOKING_DATE_PATTERN line).

(** The line announces the booking date [bd]. *)
Definition announces (line : str) (bd : datetime) : Prop :=
  exists m, search TransactionParser.BOOKING_DATE_PATTERN (strip line) = Some m
            /\ TransactionParser.parse_date (group m 1) = Ok bd.

(** The transaction pattern matches the trimmed line. *)
Definition matches_transaction (line : str) : bool :=
  found (search TransactionParser.TRANSACTION_PATTERN (strip line)).

(** The trimmed line is noise of the catalog. *)
Definition is_noise (line : str) : bool :=
  TransactionParser.is_non_transaction_line (strip line).

Definition is_blank (line : str) : bool := is_empty (strip line).

(** The line is one [_try_parse_transaction] makes a record of. *)
Definition is_transaction_line (line : str) : bool :=
  (negb (is_blank line) && negb (is_noise line) && matches_transaction line)%bool.

Inductive kind : Type := Marker | TransactionLine | Noise | Other.

(** The order of classification as the specification words it: marker,
    then transaction pattern, then noise catalog, then the rest. *)
Definition classify_claimed (line : str) : kind :=
  if has_marker line then Marker
  else if matches_transaction line then TransactionLine
  else if is_noise line then Noise
  else Other.

(** The order of classification inside a booking block as the code has
    it: blank lines and the noise catalog first, then the transaction
    pattern, and the marker only on lines that made no record. *)
Definition classify (line : str) : kind :=
  if is_blank line then (if has_marker line then Marker else Other)
  else if is_noise line then (if has_marker line then Marker else Noise)
  else if matches_transaction line then TransactionLine
  else if has_marker line then Marker
  else Other.

(** What an iteration of the block loop does with the line at the cursor,
    read off the states before and after. *)
Inductive action : Type := Emit | EndBlock | Skip.

Definition action_of (k : kind) : action :=
  match k with
  | Marker => EndBlock
  | TransactionLine => Emit
  | Noise | Other => Skip
  end.

Definition observed (st st' : TransactionParser.state) : action :=
  if length (TransactionParser.transactions st) <? length (TransactionParser.transactions st')
  then Emit
  else match TransactionParser.pc st' with
       | TransactionParser.Seeking => EndBlock
       | TransactionParser.InBlock _ => Skip
       end.

(** The claimed order, as a property of one iteration of the block loop. *)
Definition classified_as_claimed (self : TransactionParser.t) (lines : list str)
           (st : TransactionParser.state) : Prop :=
  forall bd l st',
    TransactionParser.pc st = TransactionParser.InBlock bd ->
    nth_error lines (TransactionParser.i st) = Some l ->
    TransactionParser.step self lines st = Ok (inl st') ->
    observed st st' = action_of (classify_claimed l).

(** No line in front of index [j] holds a marker. *)
Definition no_marker_before (lines : list str) (j : nat) : bool :=
  forallb (fun l => negb (has_marker l)) (firstn j lines).

(** Line [j] is a marker line that carries no transaction of its own: it
    holds a marker and is the first line to do so or is no transaction
    line. *)
Definition marker_at (lines : list str) (j : nat) : bool :=
  match nth_error lines j with
  | Some l => (has_marker l
               && (negb (is_transaction_line l) || no_marker_before lines j))%bool
  | None => false
  end.

(** Booking-date propagation with every line that holds a marker counted
    as a marker line (the claim as it is worded). *)
Definition propagation_claimed (lines : list str)
           (records : list (nat * Transaction)) : Prop :=
  forall k tr, In (k, tr) records ->
    exists m lm bd,
      m < k /\ nth_error lines m = Some lm /\ has_marker lm = true
      /\ announces lm bd /\ buchungsdatum tr = date_of bd
      /\ forall j lj, m < j < k -> nth_error lines j = Some lj -> has_marker lj = false.

(** Booking-date propagation between marker lines that carry no
    transaction of their own. *)
Definition propagation (lines : list str)
           (records : list (nat * Transaction)) : Prop :=
  forall k tr, In (k, tr) records ->
    (exists lk, nth_error lines k = Some lk /\ is_transaction_line lk = true)
    /\ exists m lm bd,
      m < k /\ nth_error lines m = Some lm /\ marker_at lines m = true
      /\ announces lm bd /\ buchungsdatum tr = date_of bd
      /\ forall j, m < j < k -> marker_at lines j = false.

(** The invariant of the loops behind [propagation]. *)
Definition block_ok (lines : list str) (i : nat) (bd : datetime) : Prop :=
  exists m lm,
    m < i /\ nth_error lines m = Some lm /\ marker_at lines m = true
    /\ announces lm bd /\ forall j, m < j < i -> marker_at lines j = false.

Definition records_ok (lines : list str) (bound : nat)
           (records : list (nat * Transaction)) : Prop :=
  forall k tr, In (k, tr) records ->
    k < bound
    /\ (exists lk, nth_error lines k = Some lk /\ is_transaction_line lk = true)
    /\ exists m lm bd,
      m < k /\ nth_error lines m = Some lm /\ marker_at lines m = true
      /\ announces lm bd /\ buchungsdatum tr = date_of bd
      /\ forall j, m < j < k -> marker_at lines j = false.

Definition scan_inv (lines : list str) (st : TransactionParser.state) : Prop :=
  records_ok lines (TransactionParser.i st) (TransactionParser.transactions st)
  /\ match TransactionParser.pc st with
     | TransactionParser.InBlock bd => block_ok lines (TransactionParser.i st) bd
     | TransactionParser.Seeking =>
         (no_marker_before lines (TransactionParser.i st) = true
          /\ TransactionParser.transactions st = [])
         \/ (exists l, nth_error lines (TransactionParser.i st) = Some l
                       /\ has_marker l = true /\ is_transaction_line l = false)
         \/ length lines <= TransactionParser.i st
     end.

(** *** The cursor and the continuation span *)

(** The indices of the lines [_collect_description] appends, for the
    indices of its range. *)
Fixpoint consumed (lines : list str) (idxs : list nat) : list nat :=
  match idxs with
  | [] => []
  | k :: idxs' =>
      let line := strip (nth k lines []) in
      if stops line then []
      else if continuation line then k :: consumed lines idxs'
      else consumed lines idxs'
  end.

(** The continuation span of a record made at line [index]. *)
Definition continuation_span (lines : list str) (index : nat) : list nat :=
  consumed lines
           (TransactionParser.range (index + 1)
                                    (Nat.min (index + 1 + 5) (length lines))).

(** The claim as it is worded: once a record is appended, the cursor is
    past every line of its continuation span. *)
Definition advances_past_span (self : TransactionParser.t) (lines : list str)
           (st : TransactionParser.state) : Prop :=
  forall st' tr,
    TransactionParser.step self lines st = Ok (inl st') ->
    TransactionParser.transactions st'
    = TransactionParser.transactions st ++ [(TransactionParser.i st, tr)] ->
    forall j, In j (continuation_span lines (TransactionParser.i st)) ->
              j < TransactionParser.i st'.

(** Zero or more iterations. *)
Inductive steps (self : TransactionParser.t) (lines : list str)
  : TransactionParser.state -> TransactionParser.state -> Prop :=
| steps_refl st : steps self lines st st
| steps_step st st' st'' :
    TransactionParser.step self lines st = Ok (inl st') ->
    steps self lines st' st'' ->
    steps self lines st st''.

(** *** Amounts *)

Definition hd_default (s : str) : char := hd 0%N s.

Definition digit_or_dot (c : char) : bool := (is_digit c || N.eqb c DOT)%bool.

(** An amount written with an integer part of digits and periods, a
    comma, a fractional part of digits and, for a debit, a trailing
    minus. *)
Definition numeral (ip fp : str) (debit : bool) : str :=
  ip ++ [COMMA] ++ fp ++ (if debit then [MINUS] else []).

Definition well_formed (ip fp : str) : bool :=
  (forallb digit_or_dot ip && forallb is_digit fp && existsb is_digit (ip ++ fp))%bool.

(** The digits of the integer part, the periods left out. *)
Definition digits_of (ip : str) : str := filter is_digit ip.

(** The exact value of the numeral: a signed coefficient and a decimal
    exponent. *)
Definition exact_value (ip fp : str) (debit : bool) : Z * Z :=
  let c := Z.of_N (int_of_digits (digits_of ip ++ fp)) in
  ((if debit then - c else c)%Z, (- Z.of_nat (length fp))%Z).

Definition value_of (x : Decimal) : Z * Z := (unscaled x, d_exp x).

(** The decimal [Decimal(str)] makes of the rewritten numeral. *)
Definition magnitude (ip fp : str) : Decimal :=
  {| d_sign := false;
     d_coeff := int_of_digits (digits_of ip ++ fp);
     d_exp := - Z.of_nat (length fp) |}.

(** A token of the amount grammar of the transaction pattern,
    [[\d.,]+[-]?]. *)
Definition amount_token (s : str) : bool :=
  let body := if endswith_char MINUS s then removelast s else s in
  (negb (is_empty body) && forallb amount_char body)%bool.



(** The numeral with the sign glyph moved: a trailing ASCII minus becomes
    a leading U+2212. *)
Definition sign_glyph (s : str) : str :=
  if endswith_char MINUS s then UMINUS :: removelast s else s.

(** Parsing the amount and formatting the result gives the numeral back,
    up to the sign glyph. *)
Definition round_trips (s : str) : Prop :=
  exists x, TransactionParser.parse_betrag s = Ok x
            /\ CSVWriter.format_betrag x = sign_glyph s.

Definition ascii_digit (c : char) : bool := in_range 48 57 c.

(** Groups of a period and three digits. *)
Fixpoint groups_ok (s : str) : bool :=
  match s with
  | [] => true
  | p :: a :: b :: c :: rest =>
      (N.eqb p DOT && ascii_digit a && ascii_digit b && ascii_digit c
       && groups_ok rest)%bool
  | _ => false
  end.

(** An integer part in the form the formatter prints: one to three ASCII
    digits, then groups of a period and three digits, and no leading zero
    except in "0". *)
Definition canonical_int (ip : str) : bool :=
  let hd := Dec.takeWhile ascii_digit ip in
  let rest := dropWhile ascii_digit ip in
  ((1 <=? length hd) && (length hd <=? 3) && groups_ok rest
   && (negb (N.eqb (hd_default ip) 48) || Str.eqb ip [48%N]))%bool.

(** A numeral in the form the formatter prints: a canonical integer part
    and two ASCII digits behind the comma. *)
Definition canonical (ip fp : str) : bool :=
  (canonical_int ip && Nat.eqb (length fp) 2 && forallb ascii_digit fp)%bool.

(** The amount in hundredths. *)
Definition cents (ip fp : str) : N := int_of_digits (digits_of ip ++ fp).

(** Amounts below 2^46 = 70 368 744 177 664. *)
Definition small (ip fp : str) : bool := (cents ip fp <? 100 * 2 ^ 46)%N.

(** *** Destinations *)

(** The name of the path ends in ".csv", in any mix of cases. *)
Definition ends_in_csv (p : CSVWriter.Path) : Prop :=
  exists stem ext,
    CSVWriter.name p = stem ++ ext /\ CSVWriter.lower ext = lit ".csv".

End Spec.

(** * Further specification-side definitions *)

Module Props.
Import Spec.

(** A match of a pattern with its position: [matches r pos w rest g]
    says that [r] matches the word [w] at position [pos], in front of
    [rest], and records the spans [g] (the latest first). *)
Inductive matches : re -> nat -> str -> str -> spans -> Prop :=
| M_Eps pos rest : matches Eps pos [] rest []
| M_Chr c pos rest : matches (Chr c) pos [c] rest []
| M_Cls (p : char -> bool) c pos rest : p c = true -> matches (Cls p) pos [c] rest []
| M_Bol rest : matches Bol 0 [] rest []
| M_Eol pos rest : rest = [] \/ rest = [LF] -> matches Eol pos [] rest []
| M_Cat r1 r2 pos w1 w2 rest g1 g2 :
    matches r1 pos w1 (w2 ++ rest) g1 ->
    matches r2 (pos + length w1) w2 rest g2 ->
    matches (Cat r1 r2) pos (w1 ++ w2) rest (g2 ++ g1)
| M_AltL r1 r2 pos w rest g : matches r1 pos w rest g -> matches (Alt r1 r2) pos w rest g
| M_AltR r1 r2 pos w rest g : matches r2 pos w rest g -> matches (Alt r1 r2) pos w rest g
| M_OptNone r pos rest : matches (Opt r) pos [] rest []
| M_OptSome r pos w rest g : matches r pos w rest g -> matches (Opt r) pos w rest g
| M_PlusG (p : char -> bool) pos w rest :
    w <> [] -> Forall (fun c => p c = true) w -> matches (PlusG p) pos w rest []
| M_PlusL (p : char -> bool) pos w rest :
    w <> [] -> Forall (fun c => p c = true) w -> matches (PlusL p) pos w rest []
| M_Grp n r pos w rest g :
    matches r pos w rest g ->
    matches (Grp n r) pos w rest ((n, (pos, pos + length w)) :: g).

(** The pattern has no capturing group. *)
Fixpoint groupless (r : re) : bool :=
  match r with
  | Cat r1 r2 | Alt r1 r2 => (groupless r1 && groupless r2)%bool
  | Opt r' => groupless r'
  | Grp _ _ => false
  | _ => true
  end.

(** The day and the month as [strptime] takes them. *)
Definition day_alternatives : re :=
  match re_d with Grp _ r => r | r => r end.
Definition month_alternatives : re :=
  match re_m with Grp _ r => r | r => r end.

(** Line [k] is a transaction line behind the first line that holds a
    booking-date marker. *)
Definition emits (lines : list str) (k : nat) : bool :=
  (is_transaction_line (nth k lines []) && negb (no_marker_before lines k))%bool.

(** The indices of the lines that make a record, in the order of the text. *)
Definition emitting_lines (lines : list str) : list nat :=
  filter (emits lines) (seq 0 (length lines)).

(** The invariant of the loops behind [emitting_lines]. *)
Definition indices_ok (lines : list str) (st : TransactionParser.state) : Prop :=
  List.map fst (TransactionParser.transactions st)
  = filter (emits lines) (seq 0 (TransactionParser.i st))
  /\ TransactionParser.i st <= length lines.

(** The exceptions [parse] lets out. *)
Definition parse_error (e : exn) : Prop :=
  e = MissingStatementDate \/ e = InvalidDate
  \/ e = MalformedAmount \/ e = DecimalOverflow.

(** A date written DD.MM.YYYY with the digits of ASCII. *)
Definition ascii_date (s : str) : Prop :=
  exists d1 d2 m1 m2 y1 y2 y3 y4,
    s = [d1; d2; DOT; m1; m2; DOT; y1; y2; y3; y4]
    /\ forallb ascii_digit [d1; d2; m1; m2; y1; y2; y3; y4] = true.


(** The text fields of a record the parser makes. *)
Definition record_text_ok (tr : Transaction) : Prop :=
  beschreibung tr <> []
  /\ is_space (hd SPACE (beschreibung tr)) = false
  /\ is_space (last (beschreibung tr) SPACE) = false
  /\ waehrung tr = lit "EUR"
  /\ gegenkonto_iban tr = None
  /\ gegenkonto_bic tr = None
  /\ exists tail, verwendungszweck tr = Some (beschreibung tr ++ tail).

(** *** Amounts *)

(** A word of the amount grammar of the transaction pattern: a body of
    digits, periods and commas, and a trailing minus for a debit. *)
Definition amount_word (body : str) (debit : bool) : str :=
  body ++ (if debit then [MINUS] else []).

(** [s.count(c)] for a one-character argument. *)
Definition count (c : char) (s : str) : nat := length (filter (N.eqb c) s).

Definition commas (body : str) : nat := count COMMA body.

(** A body that is no number: more than one comma, or no digit. *)
Definition malformed (body : str) : bool :=
  ((2 <=? commas body) || negb (existsb is_digit body))%bool.

(** The amount of a numeral is zero. *)
Definition is_zero (ip fp : str) : bool := N.eqb (cents ip fp) 0.

(** *** Printed amounts *)

Definition finite (f : Float.float) : bool :=
  match f with Float.Finf _ => false | _ => true end.

(** The sign in front of a printed amount: U+2212 for a negative number,
    the ASCII minus of the presentation for a negative zero. *)
Definition printed_sign (f : Float.float) : str :=
  if Float.ltb0 f then [UMINUS] else if Float.sign_of f then [MINUS] else [].

(** An amount of [c] hundredths. *)
Definition credit_of_cents (c : N) : Decimal :=
  {| d_sign := false; d_coeff := c; d_exp := -2 |}.

(** *** Files *)


End Props.


(** * Concrete inputs *)

Module Examples.
Import TransactionParser.

Definition unlines (ls : list string) : str := join [LF] (List.map lit ls).

(** The text of the repository's test [test_parse_invalid_text_raises_error]. *)
Definition invalid_text : str :=
  unlines [ "Some random text";
            "        without proper header";
            "        Buchungsdatum: 01.04.2021" ]%string.

(** The sample statement of the repository's tests. *)
Definition sample_pdf_text : str := unlines
  [ "Kontoauszug vom 30.04.2021"; "Auszug-Nr. 4 Seite-Nr. 1";
    "IBAN: DE00 0000 0000 0000 0000 00"; "BIC : COBADEFFXXX"; "";
    "Alter Kontostand vom 31.03.2021 529,26"; "";
    "Buchungsdatum: 01.04.2021"; "MUSTERFIRMA GMBH 01.04 17,60-";
    "RATE PER 01.04.2021"; "End-to-End-Ref.: XXXXXXXXXXXXXXXXXXXXXXXX";
    "Mandatsref: XXXXXXXXXXXXXX"; "SEPA-BASISLASTSCHRIFT wiederholend"; "";
    "TELEKOM TESTSHOP 01.04 24,95-"; "Mobilfunk Kundenkonto XXXXXXXXXX";
    "End-to-End-Ref.: Zahlbeleg XXXXXXXXXXXX";
    "SEPA-BASISLASTSCHRIFT wiederholend"; ""; "Buchungsdatum: 06.04.2021";
    "PAYPAL TESTACCOUNT 06.04 0,99-"; "ONLINESHOP";
    "End-to-End-Ref.: XXXXXXXXXXXXX"; ""; "SUPERMARKT 06.04 35,63-";
    "Kartenzahlung"; ""; "Buchungsdatum: 29.04.2021";
    "ARBEITGEBER AG 29.04 592,00"; "Gehalt 04.2021";
    "End-to-End-Ref.: XXXXXXXXXXXXXXXXXXXXXXXXXXXXXXX"; "";
    "Neuer Kontostand vom 30.04.2021 691,03" ]%string.

Definition sample_lines : list str := split LF sample_pdf_text.

Definition april_1 : datetime := {| dt_year := 2021; dt_month := 4; dt_day := 1 |}.

(** Two transaction lines, then a line the transaction pattern matches
    with an amount that is no number. *)
Definition malformed_text : str :=
  unlines [ "Kontoauszug vom 30.04.2021";
            "Buchungsdatum: 01.04.2021";
            "MUSTERFIRMA GMBH 01.04 17,60-";
            "TELEKOM TESTSHOP 01.04 24,95-";
            "KAPUTT 01.04 1.2,3,4" ]%string.

(** The parser object once the year 2021 is resolved. *)
Definition parser_2021 : t := {| verbose := false; year := Some 2021%Z |}.

(** A line of a booking block that matches the transaction pattern and a
    pattern of the noise catalog. *)
Definition sepa_text : str :=
  unlines [ "Kontoauszug vom 30.04.2021";
            "Buchungsdatum: 01.04.2021";
            "SEPA-LASTSCHRIFT 01.04 17,60-" ]%string.

Definition sepa_lines : list str := split LF sepa_text.

(** The block loop at the third line of [sepa_text]. *)
Definition sepa_state : state := goto (InBlock april_1) 2 [].

(** A transaction line that holds the text of a marker. *)
Definition marker_in_transaction_text : str :=
  unlines [ "Kontoauszug vom 30.04.2021";
            "Buchungsdatum: 01.04.2021";
            "UMBUCHUNG Buchungsdatum: 06.04.2021 02.04 1,00";
            "MIETE 03.04 2,00-" ]%string.

(** Paths and a file system for the writer. *)
Definition output_csv : CSVWriter.Path := {| CSVWriter.parts := [lit "tmp"; lit "output.csv"] |}.
Definition output_txt : CSVWriter.Path := {| CSVWriter.parts := [lit "tmp"; lit "output.txt"] |}.

Definition some_fs : CSVWriter.FS :=
  {| CSVWriter.files := [(output_txt, lit "old")]; CSVWriter.denied := [] |}.

Definition a_transaction : Transaction :=
  {| buchungsdatum := {| Datetime.year := 2021; month := 4; day := 1 |};
     valuta := {| Datetime.year := 2021; month := 4; day := 1 |};
     beschreibung := lit "MUSTERFIRMA GMBH";
     betrag := {| d_sign := true; d_coeff := 1760; d_exp := -2 |};
     waehrung := lit "EUR";
     gegenkonto_iban := None;
     gegenkonto_bic := None;
     verwendungszweck := Some (lit "RATE PER 01.04.2021") |}.

(** A debit of 29 digits before the comma. *)
Definition long_debit : str := lit "12345678901234567890123456789,01-".

(** A transaction line whose amount has one decimal place. *)
Definition coffee_line : str := lit "KAFFEE 01.04 1,5".

End Examples.

(** * Further concrete inputs *)

Module MoreExamples.
Import CSVWriter.

(** A statement with the line ends LF, and the same statement with the
    line ends CR LF and blanks in front of a line. *)
Definition sepa_free_text : str :=
  Examples.unlines [ "Kontoauszug vom 30.04.2021";
                     "Buchungsdatum: 01.04.2021";
                     "MUSTERFIRMA GMBH 01.04 17,60-";
                     "RATE PER 01.04.2021" ]%string.

Definition crlf_text : str :=
  join [13%N; LF]
       (List.map lit [ "Kontoauszug vom 30.04.2021";
                       "  Buchungsdatum: 01.04.2021";
                       "MUSTERFIRMA GMBH 01.04 17,60-";
                       "RATE PER 01.04.2021" ]%string).

(** A directory the system lists out of order: two PDF files, a text
    file, and a PDF file of another directory. *)
Definition listing_disk : FileHandler.Disk :=
  {| FileHandler.entries :=
       [ ({| parts := [lit "in"] |}, FileHandler.Directory);
         ({| parts := [lit "in"; lit "b.pdf"] |}, FileHandler.File);
         ({| parts := [lit "in"; lit "notes.txt"] |}, FileHandler.File);
         ({| parts := [lit "other"; lit "c.pdf"] |}, FileHandler.File);
         ({| parts := [lit "in"; lit "a.pdf"] |}, FileHandler.File) ] |}.


(** A record as the parser makes it of the first transaction of the
    sample statement. *)
Definition parsed_transaction : Transaction :=
  {| buchungsdatum := {| Datetime.year := 2021; month := 4; day := 1 |};
     valuta := {| Datetime.year := 2021; month := 4; day := 1 |};
     beschreibung := lit "MUSTERFIRMA GMBH";
     betrag := {| d_sign := true; d_coeff := 1760; d_exp := -2 |};
     waehrung := lit "EUR";
     gegenkonto_iban := None;
     gegenkonto_bic := None;
     verwendungszweck := Some (lit "MUSTERFIRMA GMBH RATE PER 01.04.2021") |}.

End MoreExamples.


(** * Properties *)

(** ** Outcomes *)

Lemma bind_Ok {A B} (c : result A) (k : A -> result B) b :
  bind c k = Ok b -> exists a, c = Ok a /\ k a = Ok b.
Proof. destruct c; simpl; intros H; try discriminate; eauto. Qed.

Lemma bind_Raise {A B} (c : result A) (k : A -> result B) e :
  bind c k = Raise e -> c = Raise e \/ exists a, c = Ok a /\ k a = Raise e.
Proof. destruct c; simpl; intros H; try discriminate; [right; eauto | left; congruence]. Qed.

Lemma bind_OutOfFuel {A B} (c : result A) (k : A -> result B) :
  bind c k = OutOfFuel -> c = OutOfFuel \/ exists a, c = Ok a /\ k a = OutOfFuel.
Proof. destruct c; simpl; intros H; try discriminate; eauto. Qed.

(** ** Strings *)

Module StrFacts.
Import Spec.

Lemma dropWhile_suffix p : forall l, exists a, l = a ++ dropWhile p l.
Proof.
  induction l as [|x l [a IH]]; simpl.
  - now exists [].
  - destruct (p x).
    + exists (x :: a). simpl. now f_equal.
    + now exists [].
Qed.

Lemma dropWhile_app_stop p : forall pre x rest,
  p x = false -> exists pre', dropWhile p (pre ++ x :: rest) = pre' ++ x :: rest.
Proof.
  induction pre as [|c pre IH]; intros x rest Hx; simpl.
  - rewrite Hx. now exists [].
  - destruct (p c).
    + now apply IH.
    + now exists (c :: pre).
Qed.

(** [strip] cuts a piece off both ends. *)
Lemma strip_inside l : exists a b, l = a ++ strip l ++ b.
Proof.
  unfold strip, rstrip, lstrip.
  destruct (dropWhile_suffix is_space l) as [a Ha].
  destruct (dropWhile_suffix is_space (rev (dropWhile is_space l))) as [b Hb].
  exists a, (rev b). rewrite <- rev_app_distr, <- Hb, rev_involutive. exact Ha.
Qed.

(** [strip] leaves the occurrences of solid words in place. *)
Lemma strip_keeps_solid l pre w post :
  solid w -> l = pre ++ w ++ post -> exists pre' post', strip l = pre' ++ w ++ post'.
Proof.
  intros (x & mid & y & -> & Hx & Hy) ->.
  unfold strip, rstrip, lstrip. simpl.
  destruct (dropWhile_app_stop is_space pre x ((mid ++ [y]) ++ post) Hx) as [pre' ->].
  assert (E : rev (pre' ++ x :: (mid ++ [y]) ++ post)
              = rev post ++ y :: rev (pre' ++ x :: mid)).
  { replace (pre' ++ x :: (mid ++ [y]) ++ post)
      with (((pre' ++ x :: mid) ++ [y]) ++ post).
    - rewrite (rev_app_distr _ post), (rev_app_distr _ [y]). reflexivity.
    - repeat (rewrite <- app_assoc; simpl). reflexivity. }
  rewrite E.
  destruct (dropWhile_app_stop is_space (rev post) y (rev (pre' ++ x :: mid)) Hy)
    as [post' ->].
  exists pre', (rev post').
  rewrite rev_app_distr. simpl. rewrite rev_involutive.
  repeat (rewrite <- app_assoc; simpl). reflexivity.
Qed.

Lemma contains_strip (P : str -> Prop) l :
  (forall w, P w -> solid w) -> (contains P (strip l) <-> contains P l).
Proof.
  intros HP. split.
  - intros (pre & w & post & E & Hw).
    destruct (strip_inside l) as (a & b & Hl).
    exists (a ++ pre), w, (post ++ b). split; auto.
    rewrite Hl at 1. rewrite E. now rewrite <- !app_assoc.
  - intros (pre & w & post & E & Hw).
    destruct (strip_keeps_solid l pre w post (HP w Hw) E) as (pre' & post' & E').
    now exists pre', w, post'.
Qed.

(** A blank is no digit. *)
Lemma digit_not_space c : is_digit c = true -> is_space c = false.
Proof.
  intros Hd. destruct (is_space c) eqn:Hs; [exfalso|reflexivity].
  unfold is_space, in_range in Hs.
  rewrite !orb_true_iff, !andb_true_iff, !N.leb_le, !N.eqb_eq in Hs.
  assert (Hc : In c [9; 10; 11; 12; 13; 28; 29; 30; 31; 32; 133; 160; 5760;
                     8192; 8193; 8194; 8195; 8196; 8197; 8198; 8199; 8200; 8201;
                     8202; 8232; 8233; 8239; 8287; 12288]%N).
  { simpl. lia. }
  simpl in Hc.
  repeat (destruct Hc as [<-|Hc]; [vm_compute in Hd; discriminate|]).
  exact Hc.
Qed.

End StrFacts.

(** ** The matcher is sound for the words of its pattern *)

Module ReFacts.
Import Spec.

Lemma starG_sound p : forall rest pos g k res,
  starG p pos rest g k = Some res ->
  exists w rest', rest = w ++ rest' /\ Forall (fun c => p c = true) w
                  /\ k (pos + length w) rest' g = Some res.
Proof.
  induction rest as [|x t IH]; intros pos g k res H; simpl in H.
  - exists [], []. rewrite Nat.add_0_r. auto.
  - destruct (p x) eqn:Hp.
    + destruct (starG p (S pos) t g k) eqn:Hs.
      * inversion H; subst. apply IH in Hs as (w & rest' & -> & Hw & Hk).
        exists (x :: w), rest'. simpl. repeat split; auto.
        now rewrite Nat.add_succ_r.
      * exists [], (x :: t). rewrite Nat.add_0_r. auto.
    + exists [], (x :: t). rewrite Nat.add_0_r. auto.
Qed.

Lemma starL_sound p : forall rest pos g k res,
  starL p pos rest g k = Some res ->
  exists w rest', rest = w ++ rest' /\ Forall (fun c => p c = true) w
                  /\ k (pos + length w) rest' g = Some res.
Proof.
  induction rest as [|x t IH]; intros pos g k res H; simpl in H.
  - destruct (k pos [] g) eqn:Hk; [|discriminate].
    exists [], []. rewrite Nat.add_0_r. inversion H; subst; auto.
  - destruct (k pos (x :: t) g) eqn:Hk.
    + exists [], (x :: t). rewrite Nat.add_0_r. inversion H; subst; auto.
    + destruct (p x) eqn:Hp; [|discriminate].
      apply IH in H as (w & rest' & -> & Hw & Hk').
      exists (x :: w), rest'. simpl. repeat split; auto.
      now rewrite Nat.add_succ_r.
Qed.

Lemma exec_sound r : forall pos rest g k res,
  exec r pos rest g k = Some res ->
  exists w rest' g', rest = w ++ rest' /\ lang r w
                     /\ k (pos + length w) rest' g' = Some res.
Proof.
  induction r; intros pos rest g k res H; simpl in H.
  - exists [], rest, g. rewrite Nat.add_0_r. repeat split; auto. constructor.
  - destruct rest as [|x t]; [discriminate|].
    destruct (N.eqb_spec x c); [subst|discriminate].
    exists [c], t, g. simpl. rewrite Nat.add_1_r. repeat split; auto. constructor.
  - destruct rest as [|x t]; [discriminate|].
    destruct (p x) eqn:Hp; [|discriminate].
    exists [x], t, g. simpl. rewrite Nat.add_1_r. repeat split; auto. now constructor.
  - destruct (Nat.eqb pos 0); [|discriminate].
    exists [], rest, g. rewrite Nat.add_0_r. repeat split; auto. constructor.
  - assert (Hk : k pos rest g = Some res).
    { destruct rest as [|x [|y t]]; auto; try discriminate.
      destruct (N.eqb x LF); [auto|discriminate]. }
    exists [], rest, g. rewrite Nat.add_0_r. repeat split; auto. constructor.
  - apply IHr1 in H as (w1 & rest1 & g1 & -> & L1 & H).
    apply IHr2 in H as (w2 & rest2 & g2 & -> & L2 & H).
    exists (w1 ++ w2), rest2, g2. rewrite <- app_assoc. repeat split; auto.
    + now constructor.
    + now rewrite length_app, Nat.add_assoc.
  - destruct (exec r1 pos rest g k) eqn:H1.
    + inversion H; subst. apply IHr1 in H1 as (w & rest' & g' & -> & L & Hk).
      exists w, rest', g'. repeat split; auto. now apply L_AltL.
    + apply IHr2 in H as (w & rest' & g' & -> & L & Hk).
      exists w, rest', g'. repeat split; auto. now apply L_AltR.
  - destruct (exec r pos rest g k) eqn:H1.
    + inversion H; subst. apply IHr in H1 as (w & rest' & g' & -> & L & Hk).
      exists w, rest', g'. repeat split; auto. now apply L_OptSome.
    + exists [], rest, g. rewrite Nat.add_0_r. repeat split; auto. constructor.
  - destruct rest as [|x t]; [discriminate|].
    destruct (p x) eqn:Hp; [|discriminate].
    apply starG_sound in H as (w & rest' & -> & Hw & Hk).
    exists (x :: w), rest', g. simpl. repeat split; auto.
    + constructor; [discriminate|now constructor].
    + now rewrite Nat.add_succ_r.
  - destruct rest as [|x t]; [discriminate|].
    destruct (p x) eqn:Hp; [|discriminate].
    apply starL_sound in H as (w & rest' & -> & Hw & Hk).
    exists (x :: w), rest', g. simpl. repeat split; auto.
    + constructor; [discriminate|now constructor].
    + now rewrite Nat.add_succ_r.
  - apply IHr in H as (w & rest' & g' & -> & L & Hk).
    exists w, rest', ((n, (pos, pos + length w)) :: g'). repeat split; auto.
    now constructor.
Qed.

Lemma search_from_sound r s : forall rest pre m,
  s = pre ++ rest ->
  search_from r s (length pre) rest = Some m ->
  exists pre' w post, s = pre' ++ w ++ post /\ lang r w
                      /\ m_start m = length pre' /\ m_end m = length pre' + length w
                      /\ m_string m = s.
Proof.
  induction rest as [|x t IH]; intros pre m Hs H; simpl in H.
  - destruct (exec r (length pre) [] [] accept) as [[e g]|] eqn:He; [|discriminate].
    inversion H; subst m; clear H.
    apply exec_sound in He as (w & rest' & g' & Hw & L & Hk).
    inversion Hk; subst. exists pre, w, rest'. rewrite <- Hw. auto.
  - destruct (exec r (length pre) (x :: t) [] accept) as [[e g]|] eqn:He.
    + inversion H; subst m; clear H.
      apply exec_sound in He as (w & rest' & g' & Hw & L & Hk).
      inversion Hk; subst. exists pre, w, rest'. rewrite <- Hw. auto.
    + apply (IH (pre ++ [x])).
      * now rewrite <- app_assoc.
      * rewrite length_app, Nat.add_1_r. exact H.
Qed.

Lemma search_sound r s m :
  search r s = Some m ->
  exists pre w post, s = pre ++ w ++ post /\ lang r w
                     /\ m_start m = length pre /\ m_end m = length pre + length w
                     /\ m_string m = s.
Proof. intros H. apply (search_from_sound r s s [] m); auto. Qed.

Lemma search_contains r s m : search r s = Some m -> contains (lang r) s.
Proof.
  intros H. apply search_sound in H as (pre & w & post & -> & L & _).
  now exists pre, w, post.
Qed.

(** A pattern without choice matches every word of its language. *)
Lemma exec_simple_complete r : simple r = true ->
  forall w, lang r w -> forall pos rest g k,
  exists g', exec r pos (w ++ rest) g k = k (pos + length w) rest g'.
Proof.
  induction r; simpl; intros Hs w L pos rest g k; try discriminate;
    inversion L; subst; simpl.
  - exists g. now rewrite Nat.add_0_r.
  - exists g. now rewrite N.eqb_refl, Nat.add_1_r.
  - exists g. match goal with H : p _ = true |- _ => rewrite H end.
    now rewrite Nat.add_1_r.
  - apply andb_prop in Hs as [Hs1 Hs2].
    match goal with
    | Ha : lang r1 ?w1, Hb : lang r2 ?w2 |- _ =>
        destruct (IHr1 Hs1 _ Ha pos (w2 ++ rest) g
                       (fun p' t' g' => exec r2 p' t' g' k)) as [g1 E1];
        rewrite <- app_assoc, E1;
        destruct (IHr2 Hs2 _ Hb (pos + length w1) rest g1 k) as [g2 E2];
        exists g2; now rewrite E2, length_app, Nat.add_assoc
    end.
  - match goal with
    | Ha : lang r ?w |- _ =>
        destruct (IHr Hs _ Ha pos rest g
                      (fun p' t' g' => k p' t' ((n, (pos, p')) :: g'))) as [g1 E1];
        rewrite E1; eauto
    end.
Qed.

Lemma search_from_eq r s pos rest :
  search_from r s pos rest =
  match exec r pos rest [] accept with
  | Some (e, g) => Some {| m_string := s; m_start := pos; m_end := e; m_spans := g |}
  | None =>
      match rest with
      | [] => None
      | _ :: t => search_from r s (S pos) t
      end
  end.
Proof. destruct rest; reflexivity. Qed.

Lemma search_from_complete r s : simple r = true ->
  forall pre w post pos, lang r w ->
  search_from r s pos (pre ++ w ++ post) <> None.
Proof.
  intros Hs. induction pre as [|x pre IH]; intros w post pos L; simpl.
  - destruct (exec_simple_complete r Hs w L pos post [] accept) as [g1 E].
    rewrite search_from_eq, E. simpl. discriminate.
  - destruct (exec r pos (x :: pre ++ w ++ post) [] accept) as [[e g]|];
      [discriminate|]. now apply IH.
Qed.

Lemma search_complete r s :
  simple r = true -> contains (lang r) s -> search r s <> None.
Proof.
  intros Hs (pre & w & post & -> & L). now apply search_from_complete.
Qed.

Lemma found_search_iff r s :
  simple r = true -> (found (search r s) = true <-> contains (lang r) s).
Proof.
  intros Hs. split.
  - destruct (search r s) eqn:E; [|discriminate]. intros _.
    eapply search_contains; eauto.
  - intros Hc. apply (search_complete r s Hs) in Hc.
    now destruct (search r s).
Qed.

(** *** What the groups of a match hold *)

Lemma slice_middle (pre w post : str) :
  slice (length pre) (length pre + length w) (pre ++ w ++ post) = w.
Proof.
  unfold slice. rewrite skipn_app, skipn_all, Nat.sub_diag. simpl.
  replace (length pre + length w - length pre) with (length w) by lia.
  rewrite firstn_app, firstn_all, Nat.sub_diag. simpl. apply app_nil_r.
Qed.





End ReFacts.

(** ** The statement parser *)

Module ParserFacts.
Import Spec Examples ReFacts TransactionParser.

Ltac inv_lang :=
  repeat match goal with
         | H : lang Eps _ |- _ => inversion H; clear H; subst
         | H : lang (Chr _) _ |- _ => inversion H; clear H; subst
         | H : lang (Cls _) _ |- _ => inversion H; clear H; subst
         | H : lang (Cat _ _) _ |- _ => inversion H; clear H; subst
         | H : lang (Grp _ _) _ |- _ => inversion H; clear H; subst
         end.

Lemma lang_chars s : forall w, lang (chars s) w -> w = s.
Proof.
  induction s as [|c s IH]; intros w H; simpl in H; inv_lang; auto.
  simpl. f_equal. auto.
Qed.

Lemma lang_date_group w : lang date_group w -> date_shaped w.
Proof.
  unfold date_group, cat, rep, d, dot. intros H. inv_lang.
  simpl. unfold date_shaped.
  repeat eexists; repeat constructor; assumption.
Qed.

Lemma lang_statement w : lang STATEMENT_DATE_PATTERN w -> statement_header w.
Proof.
  unfold STATEMENT_DATE_PATTERN, text. intros H.
  inversion H as [| | | | |r1 r2 w1 w2 H1 H2| | | | | | |]; clear H; subst.
  apply (lang_chars (lit "Kontoauszug vom ")) in H1; subst. apply lang_date_group in H2.
  eexists; eauto.
Qed.

Lemma no_header_no_match text :
  ~ contains statement_header text -> search STATEMENT_DATE_PATTERN text = None.
Proof.
  intros Hn. destruct (search STATEMENT_DATE_PATTERN text) as [m|] eqn:Hs; auto.
  exfalso. apply Hn. apply search_contains in Hs as (pre & w & post & -> & L).
  exists pre, w, post. split; auto. now apply lang_statement.
Qed.

Lemma lang_chars_refl s : lang (chars s) s.
Proof.
  induction s as [|c s IH]; simpl; [constructor|].
  change (c :: s) with ([c] ++ s). constructor; [constructor|exact IH].
Qed.

Lemma date_shaped_lang w : date_shaped w -> lang date_group w.
Proof.
  intros (d1 & d2 & m1 & m2 & y1 & y2 & y3 & y4 & -> & HF).
  repeat match goal with H : Forall _ (_ :: _) |- _ => inversion H; clear H; subst end.
  unfold date_group, cat, rep, d, dot. constructor.
  apply (L_Cat _ _ [d1; d2] [DOT; m1; m2; DOT; y1; y2; y3; y4]).
  { apply (L_Cat _ _ [d1] [d2]); [now constructor|].
    apply (L_Cat _ _ [d2] []); [now constructor|constructor]. }
  apply (L_Cat _ _ [DOT] [m1; m2; DOT; y1; y2; y3; y4]); [constructor|].
  apply (L_Cat _ _ [m1; m2] [DOT; y1; y2; y3; y4]).
  { apply (L_Cat _ _ [m1] [m2]); [now constructor|].
    apply (L_Cat _ _ [m2] []); [now constructor|constructor]. }
  apply (L_Cat _ _ [DOT] [y1; y2; y3; y4]); [constructor|].
  apply (L_Cat _ _ [y1] [y2; y3; y4]); [now constructor|].
  apply (L_Cat _ _ [y2] [y3; y4]); [now constructor|].
  apply (L_Cat _ _ [y3] [y4]); [now constructor|].
  apply (L_Cat _ _ [y4] []); [now constructor|constructor].
Qed.

Lemma statement_lang w : statement_header w -> lang STATEMENT_DATE_PATTERN w.
Proof.
  intros (dt & -> & Hd). unfold STATEMENT_DATE_PATTERN, text.
  constructor; [apply lang_chars_refl|now apply date_shaped_lang].
Qed.

(** The header test of [_extract_year] finds exactly the headers. *)
Lemma header_found_iff text :
  found (search STATEMENT_DATE_PATTERN text) = true <-> contains statement_header text.
Proof.
  rewrite found_search_iff by reflexivity. split.
  - intros (pre & w & post & -> & L). exists pre, w, post.
    split; auto. now apply lang_statement.
  - intros (pre & w & post & -> & L). exists pre, w, post.
    split; auto. now apply statement_lang.
Qed.

(** C1: a text in which the statement-date header "Kontoauszug vom
    DD.MM.YYYY" does not occur makes [parse] raise the missing
    statement date error; no list of records is returned and the parser
    object is left as it was. *)
Theorem parse_missing_statement_date (self : t) (text : str) :
  ~ contains statement_header text ->
  parse self text = (self, Raise MissingStatementDate)
  /\ forall records, snd (parse self text) <> Ok records.
Proof.
  intros Hn. apply no_header_no_match in Hn.
  assert (E : parse self text = (self, Raise MissingStatementDate)).
  { unfold parse, parse_indexed, extract_year. now rewrite Hn. }
  split; [exact E|]. intros records. rewrite E. discriminate.
Qed.


Lemma parse_missing_statement_date_witness :
  ~ contains statement_header invalid_text
  /\ parse (init false) invalid_text = (init false, Raise MissingStatementDate).
Proof.
  assert (H : ~ contains statement_header invalid_text).
  { intros Hc. apply header_found_iff in Hc. vm_compute in Hc. discriminate. }
  split; [exact H|].
  exact (proj1 (parse_missing_statement_date (init false) invalid_text H)).
Defined.


(** *** Termination: the fuel of [parse] is never used up *)

Lemma strptime_fuel s : strptime s <> OutOfFuel.
Proof.
  unfold strptime. destruct (match_ format_regex s); [|discriminate].
  destruct (negb _); [discriminate|]. destruct (valid_date _ _ _); discriminate.
Qed.

Lemma fix_fuel x : Dec.fix_ x <> OutOfFuel.
Proof.
  unfold Dec.fix_.
  repeat match goal with
         | |- context [if ?b then _ else _] => destruct b
         | |- context [let '(_, _) := ?p in _] => destruct p
         end; discriminate.
Qed.

Lemma parse_betrag_fuel s : parse_betrag s <> OutOfFuel.
Proof.
  unfold parse_betrag. intros H. apply bind_OutOfFuel in H; destruct H as [H|(a & _ & H)].
  - revert H. unfold Dec.of_str.
    repeat match goal with
           | |- context [match ?x with _ => _ end] => destruct x
           end; discriminate.
  - destruct (endswith_char _ _); [|discriminate].
    revert H. unfold Dec.neg. destruct (N.eqb _ _); apply fix_fuel.
Qed.

Lemma parse_valuta_fuel self s : parse_valuta self s <> OutOfFuel.
Proof.
  unfold parse_valuta. destruct (year self); [|discriminate].
  destruct (Z.eqb _ _); [discriminate|apply strptime_fuel].
Qed.

Lemma getitem_fuel lines k : getitem lines k <> OutOfFuel.
Proof. unfold getitem. destruct (nth_error lines k); discriminate. Qed.

Lemma try_parse_fuel self lines k bd :
  try_parse_transaction self lines k bd <> OutOfFuel.
Proof.
  unfold try_parse_transaction. intros H.
  apply bind_OutOfFuel in H; destruct H as [H|(l & _ & H)]; [now apply getitem_fuel in H|].
  destruct (_ || _)%bool; [discriminate|].
  destruct (search TRANSACTION_PATTERN _); [|discriminate].
  apply bind_OutOfFuel in H; destruct H as [H|(v & _ & H)]; [now apply parse_valuta_fuel in H|].
  apply bind_OutOfFuel in H; destruct H as [H|(b & _ & H)]; [now apply parse_betrag_fuel in H|].
  discriminate.
Qed.

Lemma step_fuel self lines st : step self lines st <> OutOfFuel.
Proof.
  unfold step. destruct (pc st).
  - destruct (_ <? _); [|discriminate]. intros H.
    apply bind_OutOfFuel in H; destruct H as [H|(l & _ & H)]; [now apply getitem_fuel in H|].
    destruct (search BOOKING_DATE_PATTERN _); [|discriminate].
    apply bind_OutOfFuel in H; destruct H as [H|(b & _ & H)]; [now apply strptime_fuel in H|].
    discriminate.
  - destruct (_ <? _); [|discriminate]. intros H.
    apply bind_OutOfFuel in H; destruct H as [H|(tr & _ & H)]; [now apply try_parse_fuel in H|].
    destruct tr; [discriminate|].
    apply bind_OutOfFuel in H; destruct H as [H|(l & _ & H)]; [now apply getitem_fuel in H|].
    destruct (found _); discriminate.
Qed.

(** Every iteration decreases the measure. *)
Lemma step_mu self lines st st' :
  step self lines st = Ok (inl st') -> mu lines st' < mu lines st.
Proof.
  unfold step, mu. destruct st as [p k txs]; simpl.
  destruct p as [|bd].
  - destruct (Nat.ltb_spec k (length lines)) as [Hlt|Hge]; [|discriminate]. intros H.
    apply bind_Ok in H; destruct H as (l & _ & H).
    destruct (search BOOKING_DATE_PATTERN _).
    + apply bind_Ok in H; destruct H as (b & _ & H). inversion H; subst; simpl. lia.
    + inversion H; subst; simpl. lia.
  - destruct (Nat.ltb_spec k (length lines)) as [Hlt|Hge].
    + intros H. apply bind_Ok in H; destruct H as ([tr|] & _ & H).
      * inversion H; subst; simpl. lia.
      * apply bind_Ok in H; destruct H as (l & _ & H).
        destruct (found _); inversion H; subst; simpl; lia.
    + intros H. inversion H; subst; simpl. lia.
Qed.

Lemma run_fuel_enough self lines : forall fuel st,
  mu lines st <= fuel -> run fuel self lines st <> OutOfFuel.
Proof.
  induction fuel as [|f IH]; intros st Hmu.
  - unfold mu in Hmu. destruct (pc st); lia.
  - simpl. intros H. apply bind_OutOfFuel in H; destruct H as [H|(r & Hs & H)].
    + now apply step_fuel in H.
    + destruct r as [st'|txs]; [|discriminate].
      apply step_mu in Hs. apply (IH st'); [lia|exact H].
Qed.

(** [parse] always returns or raises. *)
Theorem parse_terminates self text : snd (parse self text) <> OutOfFuel.
Proof.
  unfold parse, parse_indexed.
  destruct (extract_year self text) as [self'|e|] eqn:Hy; simpl; try discriminate.
  - intros H. apply bind_OutOfFuel in H; destruct H as [H|(a & _ & H)]; [|discriminate].
    revert H. apply run_fuel_enough. unfold mu, start; simpl. lia.
  - exfalso. revert Hy. unfold extract_year.
    destruct (search _ _); [|discriminate]. intros H.
    apply bind_OutOfFuel in H; destruct H as [H|(a & _ & H)]; [now apply strptime_fuel in H|].
    discriminate.
Qed.

(** *** Reachable states lie on the run of [scan] *)

Lemma nth_state_reachable self lines : forall n st,
  nth_state self lines n = Some st -> reachable self lines st.
Proof.
  induction n as [|n IH]; simpl; intros st H.
  - inversion H. constructor.
  - destruct (nth_state self lines n) as [st0|]; [|discriminate].
    destruct (step self lines st0) as [[st1|?]|?|] eqn:Hs; try discriminate.
    inversion H; subst. eapply reach_step; eauto.
Qed.

Lemma reachable_run self lines st :
  reachable self lines st ->
  exists n, n + mu lines st <= mu lines start
            /\ forall f, run (n + f) self lines start = run f self lines st.
Proof.
  induction 1 as [|st st' _ (n & Hn & Hr) Hs].
  - exists 0. split; [lia|reflexivity].
  - exists (S n). split.
    + apply step_mu in Hs. lia.
    + intros f. replace (S n + f) with (n + S f) by lia.
      rewrite Hr. simpl. now rewrite Hs.
Qed.

Lemma scan_from_reachable self lines st :
  reachable self lines st ->
  exists f, scan self lines = run (S f) self lines st.
Proof.
  intros H. apply reachable_run in H as (n & Hn & Hr).
  assert (Hm : 1 <= mu lines st) by (unfold mu; destruct (pc st); lia).
  exists (2 * length lines + 1 - n). unfold scan. rewrite <- Hr. f_equal.
  unfold mu at 2 in Hn. simpl in Hn. lia.
Qed.

(** An exception raised in any iteration is the outcome of the scan. *)
Lemma scan_raises self lines st e :
  reachable self lines st -> step self lines st = Raise e ->
  scan self lines = Raise e.
Proof.
  intros Hr Hs. apply scan_from_reachable in Hr as (f & ->).
  simpl. now rewrite Hs.
Qed.

(** An exception that is the outcome of a run was raised in an iteration. *)
Lemma run_raises_inv self lines : forall fuel st e,
  run fuel self lines st = Raise e ->
  exists st', steps self lines st st' /\ step self lines st' = Raise e.
Proof.
  induction fuel as [|f IH]; intros st e H; simpl in H; [discriminate|].
  apply bind_Raise in H. destruct H as [H|(r & Hs & H)].
  - exists st. split; [constructor|exact H].
  - destruct r as [st1|txs]; [|discriminate].
    destruct (IH st1 e H) as (st' & Hsteps & Hraise).
    exists st'. split; [|exact Hraise]. eapply steps_step; eauto.
Qed.

Lemma steps_reachable self lines st st' :
  steps self lines st st' -> reachable self lines st -> reachable self lines st'.
Proof.
  induction 1 as [|st st1 st2 Hs _ IH]; intros Hr; [exact Hr|].
  apply IH. eapply reach_step; eauto.
Qed.

(** [parse] raises exactly when [_extract_year] or an iteration of the
    scan does. *)
Lemma parse_raises_iff self text e :
  snd (parse self text) = Raise e
  <-> (extract_year self text = Raise e
       \/ exists self' st,
           extract_year self text = Ok self'
           /\ reachable self' (split LF text) st
           /\ step self' (split LF text) st = Raise e).
Proof.
  unfold parse, parse_indexed. split.
  - destruct (extract_year self text) as [self'|e'|] eqn:Hy; simpl; intros H.
    + right. apply bind_Raise in H. destruct H as [H|(a & _ & H)]; [|discriminate].
      apply run_raises_inv in H as (st & Hsteps & Hraise).
      exists self', st. repeat split; auto.
      apply (steps_reachable _ _ _ _ Hsteps). constructor.
    + left. congruence.
    + discriminate.
  - intros [Hy|(self' & st & Hy & Hr & Hs)]; rewrite Hy; simpl; [reflexivity|].
    now rewrite (scan_raises self' (split LF text) st e Hr Hs).
Qed.

(** C7: an exception raised by [_extract_year] or at any point of the
    scan -- whatever records the list [transactions] holds by then -- is
    the outcome of [parse]; the list is not returned, neither whole nor
    in part. *)
Theorem parse_error_is_atomic (self : t) (text : str) (e : exn) :
  (extract_year self text = Raise e
   \/ exists self' st,
       extract_year self text = Ok self'
       /\ reachable self' (split LF text) st
       /\ step self' (split LF text) st = Raise e) ->
  snd (parse self text) = Raise e
  /\ forall records, snd (parse self text) <> Ok records.
Proof.
  intros H. apply parse_raises_iff in H. split; [exact H|].
  intros records. rewrite H. discriminate.
Qed.

Lemma parse_error_is_atomic_witness :
  exists st,
    extract_year (init false) malformed_text = Ok parser_2021
    /\ reachable parser_2021 (split LF malformed_text) st
    /\ length (transactions st) = 2
    /\ step parser_2021 (split LF malformed_text) st = Raise MalformedAmount
    /\ snd (parse (init false) malformed_text) = Raise MalformedAmount.
Proof.
  destruct (nth_state parser_2021 (split LF malformed_text) 4) as [st|] eqn:E;
    [|vm_compute in E; discriminate].
  exists st.
  assert (Hy : extract_year (init false) malformed_text = Ok parser_2021)
    by (vm_compute; reflexivity).
  assert (Hr : reachable parser_2021 (split LF malformed_text) st)
    by (apply nth_state_reachable with 4; exact E).
  assert (Hs : step parser_2021 (split LF malformed_text) st = Raise MalformedAmount)
    by (vm_compute in E; inversion E; subst st; vm_compute; reflexivity).
  split; [exact Hy|]. split; [exact Hr|]. split; [|split; [exact Hs|]].
  - vm_compute in E. inversion E; subst st. reflexivity.
  - refine (proj1 (parse_error_is_atomic (init false) malformed_text MalformedAmount _)).
    right. exists parser_2021, st. auto.
Defined.

(** *** Which exceptions the scan can raise *)

Lemma strptime_raises s e : strptime s = Raise e -> e = InvalidDate.
Proof.
  unfold strptime. destruct (match_ format_regex s); [|congruence].
  destruct (negb _); [congruence|]. destruct (valid_date _ _ _); congruence.
Qed.

Lemma strptime_year s dt : strptime s = Ok dt -> (1 <= dt_year dt)%Z.
Proof.
  unfold strptime. destruct (match_ format_regex s); [|discriminate].
  destruct (negb _); [discriminate|].
  destruct (valid_date _ _ _) eqn:Hv; [|discriminate].
  intros H; inversion H; subst; simpl. unfold valid_date in Hv.
  repeat (apply andb_prop in Hv as [Hv ?]). lia.
Qed.

Lemma fix_raises x e : Dec.fix_ x = Raise e -> e = DecimalOverflow.
Proof.
  unfold Dec.fix_.
  repeat match goal with
         | |- context [if ?b then _ else _] => destruct b
         | |- context [let '(_, _) := ?p in _] => destruct p
         end; congruence.
Qed.

Lemma of_str_raises s e : Dec.of_str s = Raise e -> e = MalformedAmount.
Proof.
  unfold Dec.of_str.
  repeat match goal with
         | |- context [match ?x with _ => _ end] => destruct x
         end; congruence.
Qed.

Lemma parse_betrag_raises s e :
  parse_betrag s = Raise e -> e = MalformedAmount \/ e = DecimalOverflow.
Proof.
  unfold parse_betrag. intros H. apply bind_Raise in H. destruct H as [H|(a & _ & H)].
  - left. eapply of_str_raises; eauto.
  - destruct (endswith_char _ _); [|discriminate]. right.
    revert H. unfold Dec.neg. destruct (N.eqb _ _); apply fix_raises.
Qed.

(** The year [_extract_year] resolves is a year of the calendar. *)
Lemma extract_year_resolved self text self' :
  extract_year self text = Ok self' ->
  exists y, year self' = Some y /\ (1 <= y)%Z.
Proof.
  unfold extract_year. destruct (search _ _); [|discriminate]. intros H.
  apply bind_Ok in H. destruct H as (dt & Hd & H). inversion H; subst; simpl.
  eexists; split; eauto. eapply strptime_year; eauto.
Qed.

Lemma parse_valuta_resolved self s :
  resolved self -> parse_valuta self s <> Raise YearNotResolved.
Proof.
  intros (y & Hy & Hpos). unfold parse_valuta. rewrite Hy.
  destruct (Z.eqb_spec y 0); [lia|]. intros H. apply strptime_raises in H. discriminate.
Qed.

Lemma try_parse_resolved self lines k bd :
  resolved self -> try_parse_transaction self lines k bd <> Raise YearNotResolved.
Proof.
  intros Hres. unfold try_parse_transaction, getitem. intros H.
  destruct (nth_error lines k); simpl in H; [|discriminate].
  destruct (_ || _)%bool; [discriminate|].
  destruct (search TRANSACTION_PATTERN _); [|discriminate].
  apply bind_Raise in H. destruct H as [H|(v & _ & H)];
    [now apply parse_valuta_resolved in H|].
  apply bind_Raise in H. destruct H as [H|(b & _ & H)]; [|discriminate].
  apply parse_betrag_raises in H as [H|H]; discriminate.
Qed.

Lemma step_resolved self lines st :
  resolved self -> step self lines st <> Raise YearNotResolved.
Proof.
  intros Hres. unfold step, getitem. destruct (pc st).
  - destruct (_ <? _); [|discriminate].
    destruct (nth_error lines (i st)); simpl; [|discriminate].
    destruct (search BOOKING_DATE_PATTERN _); [|discriminate]. intros H.
    apply bind_Raise in H. destruct H as [H|(b & _ & H)]; [|discriminate].
    apply strptime_raises in H. discriminate.
  - destruct (_ <? _); [|discriminate]. intros H.
    apply bind_Raise in H. destruct H as [H|(tr & _ & H)];
      [now apply try_parse_resolved in H|].
    destruct tr; [discriminate|].
    destruct (nth_error lines (i st)); simpl in H; [|discriminate].
    destruct (found _); discriminate.
Qed.

Lemma run_resolved self lines : resolved self ->
  forall fuel st, run fuel self lines st <> Raise YearNotResolved.
Proof.
  intros Hres. induction fuel as [|f IH]; intros st; simpl; [discriminate|].
  intros H. apply bind_Raise in H. destruct H as [H|(r & _ & H)].
  - now apply step_resolved in H.
  - destruct r; [now apply IH in H|discriminate].
Qed.

(** C9: a value-date parse attempted without a resolved year raises the
    error of its own, [YearNotResolved]; [parse] resolves the year or
    aborts before it scans any line, so neither [parse] nor any call of
    [_try_parse_transaction] or any iteration made under the parser
    object it has set up raises that error. *)
Theorem year_not_resolved_unreachable :
  (forall verbose valuta_str,
      parse_valuta {| verbose := verbose; year := None |} valuta_str
      = Raise YearNotResolved)
  /\ (forall self text, snd (parse self text) <> Raise YearNotResolved)
  /\ (forall self text self', extract_year self text = Ok self' ->
      (forall valuta_str, parse_valuta self' valuta_str <> Raise YearNotResolved)
      /\ (forall lines index booking_date,
             try_parse_transaction self' lines index booking_date
             <> Raise YearNotResolved)
      /\ (forall lines st, step self' lines st <> Raise YearNotResolved)).
Proof.
  split; [reflexivity|]. split.
  - intros self text. unfold parse, parse_indexed.
    destruct (extract_year self text) as [self'|e|] eqn:Hy; simpl.
    + apply extract_year_resolved in Hy. intros H.
      apply bind_Raise in H. destruct H as [H|(a & _ & H)]; [|discriminate].
      revert H. now apply run_resolved.
    + unfold extract_year in Hy. destruct (search _ _).
      * apply bind_Raise in Hy. destruct Hy as [Hy|(a & _ & Hy)]; [|discriminate].
        apply strptime_raises in Hy. congruence.
      * congruence.
    + discriminate.
  - intros self text self' Hy. apply extract_year_resolved in Hy.
    repeat split; intros.
    + now apply parse_valuta_resolved.
    + now apply try_parse_resolved.
    + now apply step_resolved.
Qed.

Lemma year_not_resolved_unreachable_witness :
  extract_year (init false) malformed_text = Ok parser_2021
  /\ parse_valuta parser_2021 (lit "31.02") = Raise InvalidDate
  /\ parse_valuta parser_2021 (lit "31.02") <> Raise YearNotResolved.
Proof.
  assert (Hy : extract_year (init false) malformed_text = Ok parser_2021)
    by (vm_compute; reflexivity).
  split; [exact Hy|]. split; [vm_compute; reflexivity|].
  exact (proj1 (proj2 (proj2 year_not_resolved_unreachable)
                      (init false) malformed_text parser_2021 Hy) (lit "31.02")).
Defined.

(** *** The continuation collector *)

Lemma skipn_nth (l : list str) : forall s, s < length l ->
  skipn s l = nth s l [] :: skipn (S s) l.
Proof.
  induction l as [|x l IH]; intros s Hs; simpl in Hs; [lia|].
  destruct s as [|s]; [reflexivity|].
  change (skipn (S s) (x :: l)) with (skipn s l).
  change (nth (S s) (x :: l) []) with (nth s l []).
  change (skipn (S (S s)) (x :: l)) with (skipn (S s) l).
  apply IH. lia.
Qed.

Lemma map_nth_seq (l : list str) : forall n s, s + n <= length l ->
  List.map (fun k => nth k l []) (seq s n) = firstn n (skipn s l).
Proof.
  induction n as [|n IH]; intros s Hs; [reflexivity|].
  simpl seq. simpl List.map. rewrite (skipn_nth l s) by lia.
  simpl. f_equal. apply IH. lia.
Qed.

Lemma range_window (lines : list str) start :
  List.map (fun k => strip (nth k lines []))
           (range start (Nat.min (start + 5) (length lines)))
  = window lines start.
Proof.
  unfold window, range.
  rewrite <- (List.map_map (fun k => nth k lines []) strip). f_equal.
  destruct (Nat.le_gt_cases start (length lines)) as [Hs|Hs].
  - rewrite map_nth_seq by lia.
    destruct (Nat.le_gt_cases (start + 5) (length lines)) as [H|H].
    + f_equal. lia.
    + rewrite Nat.min_r by lia.
      rewrite !firstn_all2; auto; rewrite length_skipn; lia.
  - rewrite Nat.min_r by lia.
    replace (length lines - start) with 0 by lia.
    rewrite skipn_all2 by lia. reflexivity.
Qed.

Lemma collect_loop_spec lines : forall idxs parts,
  collect_loop lines idxs parts
  = parts ++ filter continuation
                    (before_stop (List.map (fun k => strip (nth k lines [])) idxs)).
Proof.
  induction idxs as [|k idxs IH]; intros parts; simpl.
  - now rewrite app_nil_r.
  - unfold stops, continuation.
    destruct (found (search TRANSACTION_PATTERN _)); simpl; [now rewrite app_nil_r|].
    destruct (found (search BOOKING_DATE_PATTERN _)); simpl; [now rewrite app_nil_r|].
    destruct (is_empty _); simpl; [apply IH|].
    destruct (is_non_transaction_line _); simpl; [apply IH|].
    rewrite IH, <- app_assoc. reflexivity.
Qed.

Lemma collect_description_memo lines start desc :
  collect_description lines start desc = memo lines start desc.
Proof.
  unfold collect_description, memo, continuation_lines.
  now rewrite collect_loop_spec, range_window.
Qed.

(** What a successful [_try_parse_transaction] returns. *)
Lemma try_parse_Some self lines index bd tr :
  try_parse_transaction self lines index bd = Ok (Some tr) ->
  exists l m v b,
    nth_error lines index = Some l
    /\ is_empty (strip l) = false
    /\ is_non_transaction_line (strip l) = false
    /\ search TRANSACTION_PATTERN (strip l) = Some m
    /\ parse_valuta self (group m 2) = Ok v
    /\ parse_betrag (group m 3) = Ok b
    /\ tr = {| buchungsdatum := date_of bd;
               valuta := date_of v;
               beschreibung := strip (group m 1);
               betrag := b;
               waehrung := lit "EUR";
               gegenkonto_iban := None;
               gegenkonto_bic := None;
               verwendungszweck :=
                 Some (collect_description lines (index + 1) (strip (group m 1))) |}.
Proof.
  unfold try_parse_transaction, getitem. intros H.
  destruct (nth_error lines index) as [l|]; simpl in H; [|discriminate].
  destruct (is_empty (strip l)) eqn:He; simpl in H; [discriminate|].
  destruct (is_non_transaction_line (strip l)) eqn:Hn; simpl in H; [discriminate|].
  destruct (search TRANSACTION_PATTERN (strip l)) as [m|] eqn:Hm; [|discriminate].
  apply bind_Ok in H. destruct H as (v & Hv & H).
  apply bind_Ok in H. destruct H as (b & Hb & H).
  inversion H; subst. exists l, m, v, b. repeat split; auto.
Qed.

(** C5: the extended memo of a parsed transaction line is its own
    description followed, joined by single spaces and in encounter
    order, by the lines of the look-ahead window (the at most 5 lines
    after the transaction line) that stand in front of the first line
    matching the transaction pattern or holding a booking-date marker
    and are neither blank nor noise of the catalog; without such lines
    the memo is the description. *)
Theorem memo_is_description_and_continuation
        (self : t) (lines : list str) (index : nat) (booking_date : datetime)
        (tr : Transaction) :
  try_parse_transaction self lines index booking_date = Ok (Some tr) ->
  verwendungszweck tr
  = Some (join [SPACE] (beschreibung tr :: continuation_lines lines (index + 1)))
  /\ length (window lines (index + 1)) <= 5
  /\ (continuation_lines lines (index + 1) = [] ->
      verwendungszweck tr = Some (beschreibung tr)).
Proof.
  intros H. apply try_parse_Some in H as (l & m & v & b & _ & _ & _ & _ & _ & _ & ->).
  simpl. rewrite collect_description_memo. unfold memo. repeat split.
  - unfold window. rewrite length_map, length_firstn. lia.
  - intros ->. reflexivity.
Qed.

Lemma memo_is_description_and_continuation_witness :
  exists tr,
    try_parse_transaction parser_2021 sample_lines 8 april_1 = Ok (Some tr)
    /\ continuation_lines sample_lines 9 = [lit "RATE PER 01.04.2021"]
    /\ verwendungszweck tr = Some (lit "MUSTERFIRMA GMBH RATE PER 01.04.2021").
Proof.
  destruct (try_parse_transaction parser_2021 sample_lines 8 april_1)
    as [[tr|]| |] eqn:E; try (vm_compute in E; discriminate).
  exists tr. split; [reflexivity|]. split; [vm_compute; reflexivity|].
  rewrite (proj1 (memo_is_description_and_continuation
                    parser_2021 sample_lines 8 april_1 tr E)).
  vm_compute in E. inversion E; subst tr. vm_compute. reflexivity.
Defined.

(** *** The order of classification inside a booking block *)

Lemma nth_error_lt (lines : list str) k l : nth_error lines k = Some l -> k < length lines.
Proof. intros H. apply nth_error_Some. congruence. Qed.

(** [_try_parse_transaction] makes no record of a line that is no
    transaction line, and a record or an exception of one that is. *)
Lemma try_parse_not_transaction self lines k bd l :
  nth_error lines k = Some l -> is_transaction_line l = false ->
  try_parse_transaction self lines k bd = Ok None.
Proof.
  intros Hl. unfold is_transaction_line, is_blank, is_noise, matches_transaction.
  unfold try_parse_transaction, getitem. rewrite Hl. simpl.
  destruct (is_empty (strip l)); simpl; [reflexivity|].
  destruct (is_non_transaction_line (strip l)); simpl; [reflexivity|].
  destruct (search TRANSACTION_PATTERN (strip l)); simpl; [discriminate|reflexivity].
Qed.

Lemma try_parse_transaction_line self lines k bd l :
  nth_error lines k = Some l -> is_transaction_line l = true ->
  (exists tr, try_parse_transaction self lines k bd = Ok (Some tr))
  \/ (exists e, try_parse_transaction self lines k bd = Raise e).
Proof.
  intros Hl. unfold is_transaction_line, is_blank, is_noise, matches_transaction.
  unfold try_parse_transaction, getitem. rewrite Hl. simpl.
  destruct (is_empty (strip l)); simpl; [discriminate|].
  destruct (is_non_transaction_line (strip l)); simpl; [discriminate|].
  destruct (search TRANSACTION_PATTERN (strip l)); simpl; [intros _|discriminate].
  destruct (parse_valuta self _) as [v|e|] eqn:Hv; simpl; eauto.
  - destruct (parse_betrag _) as [b|e|] eqn:Hb; simpl; eauto.
    exfalso. eapply parse_betrag_fuel; eauto.
  - exfalso. eapply parse_valuta_fuel; eauto.
Qed.

Lemma try_parse_None_inv self lines k bd l :
  nth_error lines k = Some l ->
  try_parse_transaction self lines k bd = Ok None -> is_transaction_line l = false.
Proof.
  intros Hl H. destruct (is_transaction_line l) eqn:E; [|reflexivity].
  destruct (try_parse_transaction_line self lines k bd l Hl E) as [(tr & Ht)|(e & Ht)];
    congruence.
Qed.

Lemma try_parse_Some_inv self lines k bd l tr :
  nth_error lines k = Some l ->
  try_parse_transaction self lines k bd = Ok (Some tr) ->
  is_transaction_line l = true /\ buchungsdatum tr = date_of bd.
Proof.
  intros Hl H. split.
  - destruct (is_transaction_line l) eqn:E; [reflexivity|].
    rewrite (try_parse_not_transaction self lines k bd l Hl E) in H. discriminate.
  - apply try_parse_Some in H as (? & ? & ? & ? & _ & _ & _ & _ & _ & _ & ->). reflexivity.
Qed.

Lemma classify_transaction l :
  classify l = TransactionLine <-> is_transaction_line l = true.
Proof.
  unfold classify, is_transaction_line.
  destruct (is_blank l), (is_noise l), (matches_transaction l), (has_marker l);
    simpl; split; congruence.
Qed.

(** One iteration of the block loop, by the class of the line. *)
Lemma step_in_block self lines st bd l :
  pc st = InBlock bd -> nth_error lines (i st) = Some l ->
  match classify l with
  | TransactionLine =>
      (exists tr, step self lines st
                  = Ok (inl (goto (InBlock bd) (i st + 1)
                                  (transactions st ++ [(i st, tr)]))))
      \/ (exists e, step self lines st = Raise e)
  | Marker => step self lines st = Ok (inl (goto Seeking (i st) (transactions st)))
  | Noise | Other =>
      step self lines st = Ok (inl (goto (InBlock bd) (i st + 1) (transactions st)))
  end.
Proof.
  intros Hpc Hl. pose proof (nth_error_lt _ _ _ Hl) as Hlt.
  apply Nat.ltb_lt in Hlt. unfold step. rewrite Hpc, Hlt.
  destruct (classify l) eqn:Hc.
  - assert (Ht : is_transaction_line l = false).
    { destruct (is_transaction_line l) eqn:E; auto.
      apply classify_transaction in E. congruence. }
    rewrite (try_parse_not_transaction self lines (i st) bd l Hl Ht). simpl.
    unfold getitem. rewrite Hl. simpl.
    assert (Hm : found (search BOOKING_DATE_PATTERN l) = true).
    { revert Hc. unfold classify, has_marker.
      destruct (is_blank l), (is_noise l), (matches_transaction l),
        (found (search BOOKING_DATE_PATTERN l)); congruence. }
    now rewrite Hm.
  - apply classify_transaction in Hc.
    destruct (try_parse_transaction_line self lines (i st) bd l Hl Hc)
      as [(tr & ->)|(e & ->)]; simpl; eauto.
  - assert (Ht : is_transaction_line l = false).
    { destruct (is_transaction_line l) eqn:E; auto.
      apply classify_transaction in E. congruence. }
    rewrite (try_parse_not_transaction self lines (i st) bd l Hl Ht). simpl.
    unfold getitem. rewrite Hl. simpl.
    assert (Hm : found (search BOOKING_DATE_PATTERN l) = false).
    { revert Hc. unfold classify, has_marker.
      destruct (is_blank l), (is_noise l), (matches_transaction l),
        (found (search BOOKING_DATE_PATTERN l)); congruence. }
    now rewrite Hm.
  - assert (Ht : is_transaction_line l = false).
    { destruct (is_transaction_line l) eqn:E; auto.
      apply classify_transaction in E. congruence. }
    rewrite (try_parse_not_transaction self lines (i st) bd l Hl Ht). simpl.
    unfold getitem. rewrite Hl. simpl.
    assert (Hm : found (search BOOKING_DATE_PATTERN l) = false).
    { revert Hc. unfold classify, has_marker.
      destruct (is_blank l), (is_noise l), (matches_transaction l),
        (found (search BOOKING_DATE_PATTERN l)); congruence. }
    now rewrite Hm.
Qed.

(** C4, as the code has it: inside a booking block a line is tested
    against blankness and the noise catalog first, then against the
    transaction pattern, and against the booking-date marker only when it
    made no record; what is left is passed over.  A line of the noise
    catalog is never a transaction, whether or not the transaction
    pattern matches it. *)
Theorem block_classification_order
        (self : t) (lines : list str) (st : state) (bd : datetime) (l : str) :
  pc st = InBlock bd ->
  nth_error lines (i st) = Some l ->
  match classify l with
  | TransactionLine =>
      (exists tr, step self lines st
                  = Ok (inl (goto (InBlock bd) (i st + 1)
                                  (transactions st ++ [(i st, tr)]))))
      \/ (exists e, step self lines st = Raise e)
  | Marker => step self lines st = Ok (inl (goto Seeking (i st) (transactions st)))
  | Noise | Other =>
      step self lines st = Ok (inl (goto (InBlock bd) (i st + 1) (transactions st)))
  end
  /\ (is_noise l = true ->
      classify l <> TransactionLine
      /\ try_parse_transaction self lines (i st) bd = Ok None).
Proof.
  intros Hpc Hl. split; [now apply step_in_block|].
  intros Hn.
  assert (Ht : is_transaction_line l = false).
  { unfold is_transaction_line. rewrite Hn. now rewrite andb_false_r. }
  split.
  - intros Hc. apply classify_transaction in Hc. congruence.
  - now apply try_parse_not_transaction with l.
Qed.

Lemma block_classification_order_witness :
  pc sepa_state = InBlock april_1
  /\ nth_error sepa_lines (i sepa_state) = Some (lit "SEPA-LASTSCHRIFT 01.04 17,60-")
  /\ matches_transaction (lit "SEPA-LASTSCHRIFT 01.04 17,60-") = true
  /\ is_noise (lit "SEPA-LASTSCHRIFT 01.04 17,60-") = true
  /\ try_parse_transaction parser_2021 sepa_lines 2 april_1 = Ok None.
Proof.
  assert (Hl : nth_error sepa_lines (i sepa_state)
               = Some (lit "SEPA-LASTSCHRIFT 01.04 17,60-")) by (vm_compute; reflexivity).
  assert (Hn : is_noise (lit "SEPA-LASTSCHRIFT 01.04 17,60-") = true)
    by (vm_compute; reflexivity).
  split; [reflexivity|]. split; [exact Hl|]. split; [vm_compute; reflexivity|].
  split; [exact Hn|].
  exact (proj2 (proj2 (block_classification_order parser_2021 sepa_lines sepa_state
                         april_1 _ eq_refl Hl) Hn)).
Defined.

(** C4 as worded fails: the transaction pattern matches the third line of
    [sepa_text], no marker is in it, and the block loop passes it over. *)
Lemma claimed_order_fails :
  reachable parser_2021 sepa_lines sepa_state
  /\ ~ classified_as_claimed parser_2021 sepa_lines sepa_state.
Proof.
  split.
  - apply nth_state_reachable with 2. vm_compute. reflexivity.
  - intros H.
    specialize (H april_1 (lit "SEPA-LASTSCHRIFT 01.04 17,60-")
                  (goto (InBlock april_1) 3 []) eq_refl).
    assert (Hl : nth_error sepa_lines (i sepa_state)
                 = Some (lit "SEPA-LASTSCHRIFT 01.04 17,60-")) by (vm_compute; reflexivity).
    assert (Hs : step parser_2021 sepa_lines sepa_state
                 = Ok (inl (goto (InBlock april_1) 3 []))) by (vm_compute; reflexivity).
    specialize (H Hl Hs). vm_compute in H. discriminate.
Qed.

(** *** Booking-date markers *)

Lemma lang_booking w : lang BOOKING_DATE_PATTERN w <-> booking_marker w.
Proof.
  unfold BOOKING_DATE_PATTERN, text. split.
  - intros H. inversion H as [| | | | |r1 r2 w1 w2 H1 H2| | | | | | |]; clear H; subst.
    apply (lang_chars (lit "Buchungsdatum: ")) in H1; subst.
    apply lang_date_group in H2. eexists; eauto.
  - intros (dt & -> & Hd).
    constructor; [apply lang_chars_refl|now apply date_shaped_lang].
Qed.

Lemma booking_solid w : booking_marker w -> solid w.
Proof.
  intros (dt & -> & d1 & d2 & m1 & m2 & y1 & y2 & y3 & y4 & -> & HF).
  exists 66%N, (lit "uchungsdatum: " ++ [d1; d2; DOT; m1; m2; DOT; y1; y2; y3]), y4.
  repeat split.
  apply StrFacts.digit_not_space.
  repeat match goal with H : Forall _ (_ :: _) |- _ => inversion H; clear H; subst end.
  assumption.
Qed.

(** Both loops of [parse] agree on what holds a marker: the outer one
    looks at the trimmed line, the inner one at the line as it is. *)
Lemma has_marker_strip l : has_marker (strip l) = has_marker l.
Proof.
  assert (HP : forall w, lang BOOKING_DATE_PATTERN w -> solid w)
    by (intros w Hw; apply booking_solid; now apply lang_booking).
  pose proof (StrFacts.contains_strip (lang BOOKING_DATE_PATTERN) l HP) as Hc.
  pose proof (found_search_iff BOOKING_DATE_PATTERN l eq_refl) as H1.
  pose proof (found_search_iff BOOKING_DATE_PATTERN (strip l) eq_refl) as H2.
  unfold has_marker.
  destruct (found (search BOOKING_DATE_PATTERN l)),
    (found (search BOOKING_DATE_PATTERN (strip l))); auto.
  - apply H2, Hc, H1. reflexivity.
  - symmetry. apply H1, Hc, H2. reflexivity.
Qed.

(** The marker test finds exactly the markers. *)
Lemma has_marker_iff l : has_marker l = true <-> contains booking_marker l.
Proof.
  unfold has_marker. rewrite found_search_iff by reflexivity. split.
  - intros (pre & w & post & -> & L). exists pre, w, post. split; auto.
    now apply lang_booking.
  - intros (pre & w & post & -> & L). exists pre, w, post. split; auto.
    now apply lang_booking.
Qed.

(** *** The invariant of the scan *)

Lemma firstn_snoc (lines : list str) : forall k l,
  nth_error lines k = Some l -> firstn (S k) lines = firstn k lines ++ [l].
Proof.
  induction lines as [|x lines IH]; intros [|k] l H; simpl in H; try discriminate.
  - inversion H; subst. reflexivity.
  - change (firstn (S (S k)) (x :: lines)) with (x :: firstn (S k) lines).
    rewrite (IH k l H). reflexivity.
Qed.

Lemma no_marker_before_S lines k l :
  nth_error lines k = Some l ->
  no_marker_before lines (k + 1) = (no_marker_before lines k && negb (has_marker l))%bool.
Proof.
  intros H. unfold no_marker_before. rewrite Nat.add_1_r, (firstn_snoc lines k l H).
  rewrite forallb_app. simpl. now rewrite andb_true_r.
Qed.

Lemma in_firstn (lines : list str) : forall m k l,
  nth_error lines m = Some l -> m < k -> In l (firstn k lines).
Proof.
  induction lines as [|x lines IH]; intros [|m] [|k] l H Hlt; simpl in H;
    try discriminate; try lia.
  - inversion H; subst. now left.
  - right. apply (IH m k l H). lia.
Qed.

Lemma marker_before lines m k l :
  nth_error lines m = Some l -> has_marker l = true -> m < k ->
  no_marker_before lines k = false.
Proof.
  intros Hl Hm Hlt. unfold no_marker_before.
  destruct (forallb _ _) eqn:E; [|reflexivity].
  rewrite forallb_forall in E. specialize (E l (in_firstn lines m k l Hl Hlt)).
  rewrite Hm in E. discriminate.
Qed.

Lemma marker_at_has_marker lines m l :
  nth_error lines m = Some l -> marker_at lines m = true -> has_marker l = true.
Proof.
  unfold marker_at. intros ->. intros H. now apply andb_prop in H as [H _].
Qed.

Lemma block_ok_marker_before lines k bd :
  block_ok lines k bd -> no_marker_before lines k = false.
Proof.
  intros (m & lm & Hlt & Hl & Hm & _). apply marker_before with m lm; auto.
  now apply marker_at_has_marker with lines m.
Qed.

Lemma records_ok_mono lines b b' recs :
  records_ok lines b recs -> b <= b' -> records_ok lines b' recs.
Proof.
  intros H Hle k tr Hin. destruct (H k tr Hin) as [Hk Hrest]. split; [lia|exact Hrest].
Qed.

Lemma block_ok_next lines k bd l :
  block_ok lines k bd -> nth_error lines k = Some l -> marker_at lines k = false ->
  block_ok lines (k + 1) bd.
Proof.
  intros (m & lm & Hlt & Hl & Hm & Ha & Hb) Hk Hno.
  exists m, lm. repeat split; auto; try lia.
  intros j Hj. destruct (Nat.eq_dec j k) as [->|Hne]; [exact Hno|apply Hb; lia].
Qed.

Lemma block_ok_start lines k l bd :
  nth_error lines k = Some l -> marker_at lines k = true -> announces l bd ->
  block_ok lines (k + 1) bd.
Proof.
  intros Hl Hm Ha. exists k, l. repeat split; auto; try lia; intros; lia.
Qed.

(** The outer loop on a line that holds a marker. *)
Lemma step_seeking_marker self lines st l st' :
  pc st = Seeking -> nth_error lines (i st) = Some l -> has_marker l = true ->
  step self lines st = Ok (inl st') ->
  exists bd, announces l bd /\ st' = goto (InBlock bd) (i st + 1) (transactions st).
Proof.
  intros Hpc Hl Hm. pose proof (nth_error_lt _ _ _ Hl) as Hlt.
  apply Nat.ltb_lt in Hlt. unfold step, getitem. rewrite Hpc, Hlt, Hl. simpl.
  rewrite <- has_marker_strip in Hm. unfold has_marker in Hm.
  destruct (search BOOKING_DATE_PATTERN (strip l)) as [m|] eqn:Hs; [|discriminate].
  intros H. apply bind_Ok in H. destruct H as (bd & Hd & H).
  inversion H; subst. exists bd. split; [|reflexivity]. exists m. auto.
Qed.

Lemma step_seeking_plain self lines st l :
  pc st = Seeking -> nth_error lines (i st) = Some l -> has_marker l = false ->
  step self lines st = Ok (inl (goto Seeking (i st + 1) (transactions st))).
Proof.
  intros Hpc Hl Hm. pose proof (nth_error_lt _ _ _ Hl) as Hlt.
  apply Nat.ltb_lt in Hlt. unfold step, getitem. rewrite Hpc, Hlt, Hl. simpl.
  rewrite <- has_marker_strip in Hm. unfold has_marker in Hm.
  destruct (search BOOKING_DATE_PATTERN (strip l)); [discriminate|reflexivity].
Qed.

Lemma scan_inv_start lines : scan_inv lines start.
Proof.
  split.
  - intros k tr [].
  - simpl. left. split; reflexivity.
Qed.

Lemma scan_inv_step self lines st st' :
  scan_inv lines st -> step self lines st = Ok (inl st') -> scan_inv lines st'.
Proof.
  intros [Hrec Hpc] Hs.
  destruct (pc st) as [|bd] eqn:Epc.
  - (* the outer loop *)
    destruct (nth_error lines (i st)) as [l|] eqn:Hl.
    2:{ apply nth_error_None in Hl. apply Nat.ltb_ge in Hl.
        unfold step in Hs. rewrite Epc, Hl in Hs. discriminate. }
    destruct (has_marker l) eqn:Hm.
    + destruct (step_seeking_marker self lines st l st' Epc Hl Hm Hs) as (bd & Ha & ->).
      split; simpl.
      * apply records_ok_mono with (i st); [exact Hrec|lia].
      * apply block_ok_start with l; auto.
        unfold marker_at. rewrite Hl, Hm. simpl.
        destruct Hpc as [[Hno _]|[(l' & Hl' & _ & Ht)|Hend]].
        -- rewrite Hno. now rewrite orb_true_r.
        -- try rewrite Hl in Hl'; inversion Hl'; subst. now rewrite Ht.
        -- apply nth_error_lt in Hl. lia.
    + rewrite (step_seeking_plain self lines st l Epc Hl Hm) in Hs.
      inversion Hs; subst; clear Hs. split; simpl.
      * apply records_ok_mono with (i st); [exact Hrec|lia].
      * destruct Hpc as [[Hno Hnil]|[(l' & Hl' & Hm' & _)|Hend]].
        -- left. split; [|exact Hnil].
           rewrite (no_marker_before_S lines (i st) l Hl), Hno, Hm. reflexivity.
        -- try rewrite Hl in Hl'; inversion Hl'; subst. congruence.
        -- apply nth_error_lt in Hl. lia.
  - (* the inner loop *)
    unfold step in Hs. rewrite Epc in Hs.
    destruct (Nat.ltb_spec (i st) (length lines)) as [Hlt|Hge].
    + destruct (nth_error lines (i st)) as [l|] eqn:Hl;
        [|apply nth_error_None in Hl; lia].
      apply bind_Ok in Hs. destruct Hs as ([tr|] & Ht & Hs).
      * inversion Hs; subst; clear Hs; simpl.
        destruct (try_parse_Some_inv self lines (i st) bd l tr Hl Ht) as [Htl Hbd].
        assert (Hno : marker_at lines (i st) = false).
        { unfold marker_at. rewrite Hl, Htl, (block_ok_marker_before _ _ _ Hpc).
          simpl. now rewrite andb_false_r. }
        split; simpl.
        -- intros k tr' Hin. apply in_app_or in Hin as [Hin|[Hin|[]]].
           ++ destruct (Hrec k tr' Hin) as [Hk Hrest]. split; [lia|exact Hrest].
           ++ inversion Hin; subst. split; [lia|].
              split; [exists l; auto|].
              destruct Hpc as (m & lm & Hm1 & Hm2 & Hm3 & Hm4 & Hm5).
              exists m, lm, bd. repeat split; auto.
        -- apply block_ok_next with l; auto.
      * apply try_parse_None_inv with (l := l) in Ht; [|exact Hl].
        unfold getitem in Hs. rewrite Hl in Hs. simpl in Hs.
        fold (has_marker l) in Hs. destruct (has_marker l) eqn:Hm.
        -- inversion Hs; subst; clear Hs. split; simpl; [exact Hrec|].
           right. left. exists l. auto.
        -- inversion Hs; subst; clear Hs. split; simpl.
           ++ apply records_ok_mono with (i st); [exact Hrec|lia].
           ++ apply block_ok_next with l; auto.
              unfold marker_at. now rewrite Hl, Hm.
    + inversion Hs; subst; clear Hs. split; simpl; [exact Hrec|].
      right. right. exact Hge.
Qed.

Lemma scan_inv_run self lines : forall fuel st recs,
  scan_inv lines st -> run fuel self lines st = Ok recs -> propagation lines recs.
Proof.
  induction fuel as [|f IH]; intros st recs Hinv H; simpl in H; [discriminate|].
  apply bind_Ok in H. destruct H as ([st'|txs] & Hs & H).
  - apply (IH st' recs); auto. now apply scan_inv_step with self st.
  - inversion H; subst; clear H. destruct Hinv as [Hrec _].
    unfold step in Hs. destruct (pc st).
    + destruct (Nat.ltb_spec (i st) (length lines)) as [Hlt|Hge].
      * apply bind_Ok in Hs. destruct Hs as (l & _ & Hs).
        destruct (search _ _); [|discriminate].
        apply bind_Ok in Hs. destruct Hs as (b & _ & Hs). discriminate.
      * inversion Hs; subst.
        intros k tr Hin. destruct (Hrec k tr Hin) as [Hk Hrest]. exact Hrest.
    + destruct (_ <? _); [|discriminate].
      apply bind_Ok in Hs. destruct Hs as ([tr|] & _ & Hs); [discriminate|].
      apply bind_Ok in Hs. destruct Hs as (l & _ & Hs).
      destruct (found _); discriminate.
Qed.

(** C2, as the code has it: after a successful parse every record comes
    from a transaction line (not blank, not noise, matched by the
    transaction pattern) that lies behind a marker line, and carries
    exactly the booking date announced by the nearest marker line in
    front of it, where a marker line is a line that holds a booking-date
    marker and carries no transaction of its own (it is the first line to
    hold a marker, or it is no transaction line); in particular no record
    comes from a line in front of the first marker. *)
Theorem booking_date_propagation
        (self self' : t) (text : str) (records : list (nat * Transaction)) :
  parse_indexed self text = (self', Ok records) ->
  propagation (split LF text) records
  /\ (forall k tr, In (k, tr) records -> no_marker_before (split LF text) k = false)
  /\ parse self text = (self', Ok (List.map snd records)).
Proof.
  intros H.
  assert (Hp : propagation (split LF text) records).
  { unfold parse_indexed in H. destruct (extract_year self text) as [s| |]; try discriminate.
    inversion H; subst. unfold scan in *.
    apply scan_inv_run with self' (2 * length (split LF text) + 2) start; auto.
    apply scan_inv_start. }
  split; [exact Hp|]. split.
  - intros k tr Hin. destruct (Hp k tr Hin) as [_ (m & lm & bd & Hlt & Hl & Hm & _)].
    apply marker_before with m lm; auto.
    now apply marker_at_has_marker with (split LF text) m.
  - unfold parse. now rewrite H.
Qed.

Lemma booking_date_propagation_witness :
  exists records,
    parse_indexed (init false) sample_pdf_text = (parser_2021, Ok records)
    /\ List.map fst records = [8; 14; 20; 24; 28]
    /\ propagation sample_lines records.
Proof.
  destruct (parse_indexed (init false) sample_pdf_text) as [self' [records| |]] eqn:E;
    try (vm_compute in E; discriminate).
  assert (Hs : self' = parser_2021)
    by (vm_compute in E; injection E as E1 E2; rewrite <- E1; reflexivity).
  subst self'. exists records. split; [reflexivity|]. split.
  - vm_compute in E. inversion E; subst records. reflexivity.
  - exact (proj1 (booking_date_propagation (init false) parser_2021
                                           sample_pdf_text records E)).
Defined.

(** C2 as worded fails: the third line of [marker_in_transaction_text]
    holds the marker of 06.04.2021 and is a transaction line; the record
    made of the fourth line carries the date 01.04.2021 of the second
    line. *)
Lemma propagation_claimed_fails :
  exists records,
    parse_indexed (init false) marker_in_transaction_text = (parser_2021, Ok records)
    /\ ~ propagation_claimed (split LF marker_in_transaction_text) records.
Proof.
  destruct (parse_indexed (init false) marker_in_transaction_text)
    as [self' [records| |]] eqn:E; try (vm_compute in E; discriminate).
  assert (Hs : self' = parser_2021)
    by (vm_compute in E; injection E as E1 E2; rewrite <- E1; reflexivity).
  subst self'. exists records. split; [reflexivity|].
  intros H. vm_compute in E. inversion E; subst records; clear E.
  match type of H with
  | propagation_claimed _ [_; (?k, ?tr)] =>
      destruct (H k tr (or_intror (or_introl eq_refl)))
        as (m & lm & bd & Hlt & Hl & Hm & Ha & Hbd & Hno)
  end.
  destruct m as [|[|[|m]]]; [| | |lia].
  - vm_compute in Hl. inversion Hl; subst lm. vm_compute in Hm. discriminate.
  - specialize (Hno 2 (lit "UMBUCHUNG Buchungsdatum: 06.04.2021 02.04 1,00")).
    assert (Hf : has_marker (lit "UMBUCHUNG Buchungsdatum: 06.04.2021 02.04 1,00") = false).
    { apply Hno; [lia|vm_compute; reflexivity]. }
    vm_compute in Hf. discriminate.
  - vm_compute in Hl. inversion Hl; subst lm.
    destruct Ha as (mt & Hsearch & Hdate).
    vm_compute in Hsearch. inversion Hsearch; subst mt.
    vm_compute in Hdate. inversion Hdate; subst bd.
    vm_compute in Hbd. discriminate.
Qed.

(** *** The cursor *)

Lemma app_neq_self {A} (l : list A) x : l ++ [x] <> l.
Proof.
  intros H. apply (f_equal (@length A)) in H. rewrite length_app in H. simpl in H. lia.
Qed.

(** What one iteration does to the cursor and to the list of records. *)
Lemma step_cases self lines st st' :
  step self lines st = Ok (inl st') ->
  (pc st = Seeking /\ i st' = i st + 1 /\ transactions st' = transactions st)
  \/ (exists bd, pc st = InBlock bd /\ pc st' = Seeking
                 /\ i st' = i st /\ transactions st' = transactions st)
  \/ (exists bd, pc st = InBlock bd /\ pc st' = InBlock bd
                 /\ i st' = i st + 1 /\ transactions st' = transactions st)
  \/ (exists bd tr, pc st = InBlock bd /\ pc st' = InBlock bd
                    /\ i st' = i st + 1
                    /\ transactions st' = transactions st ++ [(i st, tr)]
                    /\ try_parse_transaction self lines (i st) bd = Ok (Some tr)).
Proof.
  unfold step. destruct (pc st) as [|bd] eqn:Epc.
  - destruct (_ <? _); [|discriminate]. intros H.
    apply bind_Ok in H. destruct H as (l & _ & H).
    destruct (search BOOKING_DATE_PATTERN _).
    + apply bind_Ok in H. destruct H as (b & _ & H). inversion H; subst. left. auto.
    + inversion H; subst. left. auto.
  - destruct (_ <? _).
    + intros H. apply bind_Ok in H. destruct H as ([tr|] & Ht & H).
      * inversion H; subst. right. right. right. exists bd, tr. simpl. auto.
      * apply bind_Ok in H. destruct H as (l & _ & H).
        destruct (found _); inversion H; subst.
        -- right. left. exists bd. simpl. auto.
        -- right. right. left. exists bd. simpl. auto.
    + intros H. inversion H; subst. right. left. exists bd. simpl. auto.
Qed.

Lemma steps_cursor self lines st st' : steps self lines st st' -> i st <= i st'.
Proof.
  induction 1 as [|st st1 st2 Hs _ IH]; [lia|].
  apply step_cases in Hs.
  destruct Hs as [(_ & E & _)|[(bd & _ & _ & E & _)|[(bd & _ & _ & E & _)
                                                    |(bd & tr & _ & _ & E & _)]]]; lia.
Qed.

(** The lines of a continuation span lie behind the transaction line, are
    no transaction lines and hold no marker. *)
Lemma consumed_inv lines : forall idxs j,
  In j (consumed lines idxs) ->
  In j idxs /\ stops (strip (nth j lines [])) = false.
Proof.
  induction idxs as [|k idxs IH]; intros j H; simpl in H; [contradiction|].
  destruct (stops (strip (nth k lines []))) eqn:Hst; [contradiction|].
  destruct (continuation _).
  - destruct H as [<-|H]; [split; [now left|exact Hst]|].
    apply IH in H as [H1 H2]. split; [now right|exact H2].
  - apply IH in H as [H1 H2]. split; [now right|exact H2].
Qed.

Lemma continuation_span_inv lines k j :
  In j (continuation_span lines k) ->
  k < j <= k + 5
  /\ exists l, nth_error lines j = Some l
               /\ is_transaction_line l = false /\ has_marker l = false.
Proof.
  unfold continuation_span, range. intros H.
  apply consumed_inv in H as [Hin Hst]. apply in_seq in Hin.
  split; [lia|].
  assert (Hj : j < length lines) by lia.
  exists (nth j lines []). split; [now apply nth_error_nth'|].
  unfold stops in Hst. apply orb_false_elim in Hst as [Ht Hm].
  split.
  - unfold is_transaction_line, matches_transaction. rewrite Ht.
    now rewrite andb_false_r.
  - rewrite <- has_marker_strip. exact Hm.
Qed.

(** Where the cursor stays: at the end of a block, which is a line that
    holds a marker and makes no record, or the end of the input. *)
Lemma step_stays self lines st st' :
  step self lines st = Ok (inl st') -> i st' = i st ->
  exists bd, pc st = InBlock bd /\ pc st' = Seeking
             /\ transactions st' = transactions st
             /\ (length lines <= i st
                 \/ exists l, nth_error lines (i st) = Some l /\ has_marker l = true
                              /\ try_parse_transaction self lines (i st) bd = Ok None).
Proof.
  unfold step. destruct (pc st) as [|bd] eqn:Epc.
  - destruct (_ <? _); [|discriminate]. intros H Hi.
    apply bind_Ok in H. destruct H as (l & _ & H).
    destruct (search BOOKING_DATE_PATTERN _).
    + apply bind_Ok in H. destruct H as (b & _ & H). inversion H; subst.
      cbn [i goto] in Hi. lia.
    + inversion H; subst. cbn [i goto] in Hi. lia.
  - destruct (Nat.ltb_spec (i st) (length lines)) as [Hlt|Hge].
    + intros H Hi. apply bind_Ok in H. destruct H as ([tr|] & Ht & H).
      * inversion H; subst. cbn [i goto] in Hi. lia.
      * apply bind_Ok in H. destruct H as (l & Hl & H).
        destruct (found (search BOOKING_DATE_PATTERN l)) eqn:Hm; inversion H; subst.
        -- exists bd. repeat split. right. exists l. repeat split; auto.
           unfold getitem in Hl. destruct (nth_error lines (i st)); [|discriminate].
           now inversion Hl.
        -- cbn [i goto] in Hi. lia.
    + intros H Hi. inversion H; subst. exists bd. repeat split. now left.
Qed.

(** Inside a block a line that is no transaction line and holds no
    marker is passed over. *)
Lemma block_skips self lines st bd l :
  pc st = InBlock bd -> nth_error lines (i st) = Some l ->
  is_transaction_line l = false -> has_marker l = false ->
  step self lines st = Ok (inl (goto (InBlock bd) (i st + 1) (transactions st))).
Proof.
  intros Hpc Hl Ht Hm. pose proof (step_in_block self lines st bd l Hpc Hl) as H.
  assert (Hk : classify l = Noise \/ classify l = Other).
  { unfold classify. rewrite Hm. unfold is_transaction_line in Ht.
    destruct (is_blank l); [now right|]. destruct (is_noise l); [now left|].
    cbn [negb andb] in Ht. rewrite Ht. now right. }
  destruct Hk as [Hk|Hk]; rewrite Hk in H; exact H.
Qed.

(** In front of a line of a continuation span no line ends the scan of
    [_collect_description]. *)
Lemma consumed_before lines : forall n a j,
  In j (consumed lines (seq a n)) ->
  forall k, a <= k <= j -> stops (strip (nth k lines [])) = false.
Proof.
  induction n as [|n IH]; intros a j H k Hk; cbn [seq consumed] in H; [contradiction|].
  destruct (stops (strip (nth a lines []))) eqn:Hst; [contradiction|].
  destruct (Nat.eq_dec k a) as [->|Hne]; [exact Hst|].
  assert (Hj : In j (consumed lines (seq (S a) n))).
  { destruct (continuation _); [|exact H].
    destruct H as [<-|H]; [lia|exact H]. }
  apply (IH (S a) j Hj). lia.
Qed.

Lemma not_stop_line lines k :
  k < length lines -> stops (strip (nth k lines [])) = false ->
  exists l, nth_error lines k = Some l
            /\ is_transaction_line l = false /\ has_marker l = false.
Proof.
  intros Hk Hst. exists (nth k lines []). split; [now apply nth_error_nth'|].
  unfold stops in Hst. apply orb_false_elim in Hst as [Ht Hm].
  split.
  - unfold is_transaction_line, matches_transaction. rewrite Ht.
    now rewrite andb_false_r.
  - rewrite <- has_marker_strip. exact Hm.
Qed.

(** The block loop walks over lines that do not end the scan, one line an
    iteration, and makes no record of them. *)
Lemma block_walk self lines bd : forall (n : nat) (st : state) (j : nat),
  pc st = InBlock bd -> j = i st + n -> j < length lines ->
  (forall k, i st <= k <= j -> stops (strip (nth k lines [])) = false) ->
  exists stj, steps self lines st stj /\ i stj = j /\ pc stj = InBlock bd
              /\ transactions stj = transactions st.
Proof.
  induction n as [|n IH]; intros st j Hpc Hj Hlen Hns.
  - exists st. rewrite Nat.add_0_r in Hj. repeat split; auto. constructor.
  - destruct (not_stop_line lines (i st) ltac:(lia) (Hns (i st) ltac:(lia)))
      as (l & Hl & Ht & Hm).
    pose proof (block_skips self lines st bd l Hpc Hl Ht Hm) as Hstep.
    destruct (IH (goto (InBlock bd) (i st + 1) (transactions st)) j)
      as (stj & Hsteps & Hi & Hp & Htx); cbn [pc i goto]; auto; try lia.
    { intros k Hk. apply Hns. lia. }
    exists stj. repeat split; auto.
    eapply steps_step; eauto.
Qed.

(** C8, as the code has it: an iteration never moves the cursor back and
    moves it forward by at most one line; it stays only when a block ends
    there -- at a line that holds a marker and makes no record, or at the
    end of the input -- and the outer loop then moves on, so the line
    under the cursor is looked at twice at most; after a record is
    appended the block loop goes on with the very next line, whatever the
    continuation span of the record is; it comes to every line of that
    span, still inside the block and with the same records, and passes it
    over: none of them makes a record or ends the block. *)
Theorem cursor_discipline (self : t) (lines : list str) (st st' : state) :
  step self lines st = Ok (inl st') ->
  i st <= i st' <= i st + 1
  /\ (forall st'', steps self lines st' st'' -> i st' <= i st'')
  /\ (i st' = i st ->
      (exists bd, pc st = InBlock bd
                  /\ (length lines <= i st
                      \/ exists l, nth_error lines (i st) = Some l
                                   /\ has_marker l = true
                                   /\ try_parse_transaction self lines (i st) bd
                                      = Ok None))
      /\ pc st' = Seeking
      /\ transactions st' = transactions st
      /\ forall st'', step self lines st' = Ok (inl st'') -> i st'' = i st + 1)
  /\ (forall tr, transactions st' = transactions st ++ [(i st, tr)] ->
      i st' = i st + 1
      /\ (exists bd,
             pc st = InBlock bd /\ pc st' = InBlock bd
             /\ forall j, In j (continuation_span lines (i st)) ->
                  exists stj,
                    steps self lines st' stj
                    /\ i stj = j /\ pc stj = InBlock bd
                    /\ transactions stj = transactions st'
                    /\ step self lines stj
                       = Ok (inl (goto (InBlock bd) (j + 1) (transactions st'))))
      /\ forall j, In j (continuation_span lines (i st)) ->
                   i st < j
                   /\ has_marker (nth j lines []) = false
                   /\ forall bd, try_parse_transaction self lines j bd = Ok None).
Proof.
  intros Hs. pose proof (step_cases self lines st st' Hs) as Hc.
  split; [|split; [|split]].
  - destruct Hc as [(_ & E & _)|[(bd & _ & _ & E & _)|[(bd & _ & _ & E & _)
                                                      |(bd & tr & _ & _ & E & _)]]]; lia.
  - intros st''. apply steps_cursor.
  - intros Heq.
    destruct (step_stays self lines st st' Hs Heq) as (bd & Hp & Hp' & Ht & Hend).
    split; [exists bd; split; assumption|]. split; [exact Hp'|]. split; [exact Ht|].
    intros st'' Hs'. apply step_cases in Hs'.
    destruct Hs' as [(_ & E' & _)|[(bd' & Hq & _)|[(bd' & Hq & _)|(bd' & tr & Hq & _)]]];
      first [congruence|lia].
  - intros tr Ht.
    assert (E : exists bd, pc st = InBlock bd /\ pc st' = InBlock bd
                           /\ i st' = i st + 1).
    { destruct Hc as [(_ & _ & E)|[(bd & _ & _ & _ & E)|[(bd & _ & _ & _ & E)
                                                        |(bd & tr' & Hp & Hp' & E & _)]]];
        try (rewrite E in Ht; symmetry in Ht; now apply app_neq_self in Ht).
      exists bd. auto. }
    destruct E as (bd & Hp & Hp' & E).
    split; [exact E|]. split.
    + exists bd. split; [exact Hp|]. split; [exact Hp'|]. intros j Hj.
      pose proof Hj as Hj'. unfold continuation_span, range in Hj'.
      pose proof (consumed_before lines _ _ j Hj') as Hns.
      apply consumed_inv in Hj' as [Hin _]. apply in_seq in Hin.
      assert (Hlen : j < length lines) by lia.
      destruct (block_walk self lines bd (j - (i st + 1)) st' j Hp' ltac:(lia) Hlen)
        as (stj & Hsteps & Hi & Hpj & Htx).
      { intros k Hk. apply Hns. lia. }
      exists stj. split; [exact Hsteps|]. split; [exact Hi|]. split; [exact Hpj|].
      split; [exact Htx|].
      destruct (not_stop_line lines j Hlen (Hns j ltac:(lia))) as (l & Hl & Htl & Hm).
      rewrite <- Hi in Hl.
      rewrite (block_skips self lines stj bd l Hpj Hl Htl Hm), Hi, Htx. reflexivity.
    + intros j Hj.
      apply continuation_span_inv in Hj as [Hj (l & Hl & Htl & Hm)].
      split; [lia|]. split.
      * now rewrite (nth_error_nth lines j [] Hl).
      * intros bd'. now apply try_parse_not_transaction with l.
Qed.

Lemma cursor_discipline_witness :
  exists st st' tr,
    nth_state parser_2021 sample_lines 8 = Some st
    /\ step parser_2021 sample_lines st = Ok (inl st')
    /\ transactions st' = transactions st ++ [(i st, tr)]
    /\ i st = 8 /\ i st' = 9
    /\ continuation_span sample_lines 8 = [9]
    /\ try_parse_transaction parser_2021 sample_lines 9 april_1 = Ok None
    /\ exists bd, pc st' = InBlock bd
                  /\ step parser_2021 sample_lines st'
                     = Ok (inl (goto (InBlock bd) 10 (transactions st'))).
Proof.
  destruct (nth_state parser_2021 sample_lines 8) as [st|] eqn:E;
    [|vm_compute in E; discriminate].
  destruct (step parser_2021 sample_lines st) as [[st'|?]| |] eqn:Hs;
    try (vm_compute in E; inversion E; subst st; vm_compute in Hs; discriminate).
  assert (Ht : exists tr, transactions st' = transactions st ++ [(i st, tr)]).
  { vm_compute in E. inversion E; subst st. vm_compute in Hs. inversion Hs; subst st'.
    eexists. reflexivity. }
  destruct Ht as [tr Ht]. exists st, st', tr.
  assert (Hi : i st = 8) by (vm_compute in E; inversion E; subst st; reflexivity).
  pose proof (cursor_discipline parser_2021 sample_lines st st' Hs)
    as (_ & _ & _ & Hemit).
  destruct (Hemit tr Ht) as (Hnext & (bd & _ & Hpc' & _) & Hspan).
  assert (Hsp : continuation_span sample_lines 8 = [9]) by (vm_compute; reflexivity).
  split; [reflexivity|]. split; [exact Hs|]. split; [exact Ht|].
  split; [exact Hi|]. split; [lia|]. split; [exact Hsp|].
  split; [apply Hspan; rewrite Hi, Hsp; now left|].
  exists bd. split; [exact Hpc'|].
  assert (Hfin : step parser_2021 sample_lines st'
                 = Ok (inl (goto (pc st') 10 (transactions st')))).
  { vm_compute in E. inversion E; subst st. vm_compute in Hs. inversion Hs; subst st'.
    vm_compute. reflexivity. }
  rewrite Hpc' in Hfin. exact Hfin.
Defined.

(** C8 as worded fails: the record made of line 8 of the sample statement
    takes line 9 into its memo, and the next iteration has the cursor on
    line 9. *)
Lemma advances_past_span_fails :
  exists st,
    reachable parser_2021 sample_lines st
    /\ ~ advances_past_span parser_2021 sample_lines st.
Proof.
  destruct (nth_state parser_2021 sample_lines 8) as [st|] eqn:E;
    [|vm_compute in E; discriminate].
  exists st. split; [now apply nth_state_reachable with 8|].
  intros H. unfold advances_past_span in H.
  destruct (step parser_2021 sample_lines st) as [[st'|?]| |] eqn:Hs;
    try (vm_compute in E; inversion E; subst st; vm_compute in Hs; discriminate).
  assert (Ht : exists tr, transactions st' = transactions st ++ [(i st, tr)]
                          /\ i st = 8 /\ i st' = 9).
  { vm_compute in E. inversion E; subst st. vm_compute in Hs. inversion Hs; subst st'.
    eexists. repeat split. }
  destruct Ht as (tr & Ht & Hi & Hi').
  specialize (H st' tr eq_refl Ht 9).
  rewrite Hi, Hi' in H.
  assert (Hin : In 9 (continuation_span sample_lines 8)) by (vm_compute; now left).
  specialize (H Hin). lia.
Qed.

End ParserFacts.

(** ** The CSV writer *)

Module WriterFacts.
Import Spec Examples CSVWriter.

Lemma str_eqb_eq : forall a b : str, Str.eqb a b = true <-> a = b.
Proof.
  induction a as [|x a IH]; intros [|y b]; simpl; split; intros H;
    try discriminate; auto.
  - apply andb_prop in H as [H1 H2]. apply N.eqb_eq in H1. apply IH in H2. congruence.
  - inversion H; subst. rewrite N.eqb_refl. simpl. now apply IH.
Qed.

(** A suffix accepted by [_validate_output_path] is the end of the name. *)
Lemma suffix_ends_in_csv p : lower (suffix p) = lit ".csv" -> ends_in_csv p.
Proof.
  unfold suffix. intros H. destruct (rfind DOT (name p)) as [k|].
  - destruct (_ && _)%bool.
    + exists (firstn k (name p)), (skipn k (name p)). split; [|exact H].
      now rewrite firstn_skipn.
    + discriminate.
  - discriminate.
Qed.

Lemma validate_rejects p :
  ~ ends_in_csv p -> validate_output_path p = Raise InvalidDestination.
Proof.
  intros Hn. unfold validate_output_path.
  destruct (Str.eqb (lower (suffix p)) (lit ".csv")) eqn:E; [|reflexivity].
  exfalso. apply Hn. apply suffix_ends_in_csv. now apply str_eqb_eq.
Qed.

(** C10: [write] raises on an empty list of records, and raises on a
    path whose name does not end in ".csv" (in any mix of cases); in both
    cases the file system is left as it was: no file is made, not even
    one with the header alone. *)
Theorem write_rejects (self : t) (transactions : list Transaction)
        (output_path : Path) (fs : FS) :
  transactions = [] \/ ~ ends_in_csv output_path ->
  (transactions = [] ->
   write self transactions output_path fs = (fs, Raise EmptyTransactions))
  /\ (transactions <> [] ->
      write self transactions output_path fs = (fs, Raise InvalidDestination))
  /\ fst (write self transactions output_path fs) = fs
  /\ snd (write self transactions output_path fs) <> Ok tt.
Proof.
  intros H. destruct transactions as [|tr trs].
  - repeat split; try reflexivity; try discriminate. intros Hne. now elim Hne.
  - destruct H as [H|H]; [discriminate|].
    assert (E : write self (tr :: trs) output_path fs = (fs, Raise InvalidDestination)).
    { unfold write. now rewrite (validate_rejects output_path H). }
    repeat split; auto; try discriminate; rewrite E; simpl; auto; discriminate.
Qed.

Lemma not_ends_in_csv_txt : ~ ends_in_csv output_txt.
Proof.
  intros (stem & ext & Hn & He).
  assert (Hl : length ext = 4).
  { apply (f_equal (@length char)) in He. unfold lower in He.
    now rewrite length_map in He. }
  assert (Hs : ext = skipn (length stem) (name output_txt)).
  { rewrite Hn. rewrite skipn_app, skipn_all, Nat.sub_diag. reflexivity. }
  assert (Hlen : length stem = 6).
  { assert (H10 : length (name output_txt) = 10) by (vm_compute; reflexivity).
    rewrite Hn, length_app, Hl in H10. lia. }
  rewrite Hlen in Hs. vm_compute in Hs. subst ext. vm_compute in He. discriminate.
Qed.

Lemma write_rejects_witness :
  write {| verbose := false |} [] output_csv some_fs = (some_fs, Raise EmptyTransactions)
  /\ write {| verbose := false |} [a_transaction] output_txt some_fs
     = (some_fs, Raise InvalidDestination).
Proof.
  split.
  - exact (proj1 (write_rejects {| verbose := false |} [] output_csv some_fs
                                (or_introl eq_refl)) eq_refl).
  - refine (proj1 (proj2 (write_rejects {| verbose := false |} [a_transaction]
                                        output_txt some_fs
                                        (or_intror not_ends_in_csv_txt))) _).
    discriminate.
Defined.

(** The writer does write when neither condition holds. *)
Example write_accepts :
  exists fs', write {| verbose := false |} [a_transaction] output_csv some_fs = (fs', Ok tt)
              /\ length (files fs') = 2.
Proof. eexists. split; vm_compute; reflexivity. Qed.

End WriterFacts.

(** ** Amounts *)

Module AmountFacts.
Import Spec Examples ReFacts TransactionParser.

Lemma digit_neq c x : is_digit c = true -> is_digit x = false -> N.eqb c x = false.
Proof.
  intros Hc Hx. destruct (N.eqb_spec c x); [subst; congruence|reflexivity].
Qed.

Lemma not_digit_DOT : is_digit DOT = false. Proof. reflexivity. Qed.
Lemma not_digit_COMMA : is_digit COMMA = false. Proof. reflexivity. Qed.
Lemma not_digit_MINUS : is_digit MINUS = false. Proof. reflexivity. Qed.

Lemma forallb_digit_In fp c : forallb is_digit fp = true -> In c fp -> is_digit c = true.
Proof. intros H Hin. rewrite forallb_forall in H. auto. Qed.

(** The last character of the body of a numeral is no minus. *)
Lemma body_last ip fp :
  forallb is_digit fp = true ->
  exists y r, rev (ip ++ COMMA :: fp) = y :: r /\ N.eqb y MINUS = false.
Proof.
  intros Hfp. rewrite rev_app_distr. simpl.
  destruct (rev fp) as [|y r] eqn:E; simpl.
  - exists COMMA, (rev ip). split; reflexivity.
  - exists y, (r ++ [COMMA] ++ rev ip). split; [now rewrite <- app_assoc|].
    apply digit_neq; [|reflexivity].
    apply (forallb_digit_In fp); auto. apply in_rev. rewrite E. now left.
Qed.

Lemma numeral_body ip fp debit :
  numeral ip fp debit = (ip ++ COMMA :: fp) ++ (if debit then [MINUS] else []).
Proof. unfold numeral. now rewrite <- app_assoc. Qed.

Lemma endswith_numeral ip fp debit :
  forallb is_digit fp = true -> endswith_char MINUS (numeral ip fp debit) = debit.
Proof.
  intros Hfp. rewrite numeral_body. unfold endswith_char.
  destruct debit.
  - rewrite rev_app_distr. reflexivity.
  - rewrite app_nil_r. destruct (body_last ip fp Hfp) as (y & r & -> & Hy). exact Hy.
Qed.

Lemma dropWhile_stop p y (r : str) : p y = false -> dropWhile p (y :: r) = y :: r.
Proof. intros H. simpl. now rewrite H. Qed.

Lemma dropWhile_skip p y (r : str) : p y = true -> dropWhile p (y :: r) = dropWhile p r.
Proof. intros H. simpl. now rewrite H. Qed.

Lemma rstrip_numeral ip fp debit :
  forallb is_digit fp = true ->
  rstrip_char MINUS (numeral ip fp debit) = ip ++ COMMA :: fp.
Proof.
  intros Hfp. rewrite numeral_body. unfold rstrip_char.
  destruct (body_last ip fp Hfp) as (y & r & E & Hy).
  assert (Hy' : N.eqb MINUS y = false) by (now rewrite N.eqb_sym).
  destruct debit.
  - rewrite rev_app_distr. cbn [rev app].
    rewrite dropWhile_skip by apply N.eqb_refl.
    rewrite E, dropWhile_stop by exact Hy'. rewrite <- E. apply rev_involutive.
  - rewrite app_nil_r, E, dropWhile_stop by exact Hy'.
    rewrite <- E. apply rev_involutive.
Qed.

Lemma replace_app old new a b :
  replace old new (a ++ b) = replace old new a ++ replace old new b.
Proof. unfold replace. apply flat_map_app. Qed.

Lemma replace_digits old new ds :
  is_digit old = false -> forallb is_digit ds = true -> replace old new ds = ds.
Proof.
  intros Ho. induction ds as [|c ds IH]; simpl; intros H; [reflexivity|].
  apply andb_prop in H as [Hc Hds]. rewrite (digit_neq c old Hc Ho). simpl.
  f_equal. auto.
Qed.

Lemma remove_dots ip :
  forallb digit_or_dot ip = true -> replace DOT [] ip = digits_of ip.
Proof.
  induction ip as [|c ip IH]; simpl; intros H; [reflexivity|].
  apply andb_prop in H as [Hc Hip]. unfold digit_or_dot in Hc.
  destruct (N.eqb_spec c DOT) as [->|Hne].
  - simpl. now apply IH.
  - rewrite orb_false_r in Hc. rewrite Hc. simpl. f_equal. now apply IH.
Qed.

Lemma digits_of_digits ip : forallb is_digit (digits_of ip) = true.
Proof.
  apply forallb_forall. intros c Hc. unfold digits_of in Hc.
  now apply filter_In in Hc.
Qed.

Lemma takeWhile_digits ds rest :
  forallb is_digit ds = true ->
  Dec.takeWhile is_digit (ds ++ DOT :: rest) = ds
  /\ dropWhile is_digit (ds ++ DOT :: rest) = DOT :: rest.
Proof.
  induction ds as [|c ds IH]; simpl; intros H.
  - split; reflexivity.
  - apply andb_prop in H as [Hc Hds]. rewrite Hc.
    destruct (IH Hds) as [-> ->]. split; reflexivity.
Qed.

Lemma of_str_point ds fp :
  forallb is_digit ds = true -> forallb is_digit fp = true -> ds ++ fp <> [] ->
  Dec.of_str (ds ++ DOT :: fp)
  = Ok {| d_sign := false; d_coeff := int_of_digits (ds ++ fp);
          d_exp := - Z.of_nat (length fp) |}.
Proof.
  intros Hds Hfp Hne. unfold Dec.of_str.
  destruct (takeWhile_digits ds fp Hds) as [-> ->].
  rewrite N.eqb_refl, Hfp. simpl.
  destruct ds, fp; simpl; try reflexivity. now elim Hne.
Qed.

Lemma has_digit_nonempty ip fp :
  forallb is_digit fp = true -> existsb is_digit (ip ++ fp) = true ->
  digits_of ip ++ fp <> [].
Proof.
  intros Hfp H. apply existsb_exists in H as (c & Hin & Hc).
  apply in_app_or in Hin as [Hin|Hin].
  - intros E. apply app_eq_nil in E as [E _].
    assert (Hd : In c (digits_of ip)) by (apply filter_In; auto).
    rewrite E in Hd. contradiction.
  - intros E. apply app_eq_nil in E as [_ E]. subst. contradiction.
Qed.

(** [_parse_betrag] on a numeral: the decimal of its digits, through
    [Decimal.__neg__] for a debit. *)
Lemma parse_betrag_numeral ip fp debit :
  well_formed ip fp = true ->
  parse_betrag (numeral ip fp debit)
  = if debit then Dec.neg (magnitude ip fp) else Ok (magnitude ip fp).
Proof.
  unfold well_formed. intros H.
  apply andb_prop in H as [H Hex]. apply andb_prop in H as [Hip Hfp].
  unfold parse_betrag.
  rewrite (endswith_numeral ip fp debit Hfp), (rstrip_numeral ip fp debit Hfp).
  change (ip ++ COMMA :: fp) with (ip ++ [COMMA] ++ fp).
  rewrite !replace_app, (remove_dots ip Hip).
  rewrite (replace_digits DOT [] fp not_digit_DOT Hfp).
  rewrite (replace_digits COMMA [DOT] (digits_of ip) not_digit_COMMA (digits_of_digits ip)).
  rewrite (replace_digits COMMA [DOT] fp not_digit_COMMA Hfp).
  change (replace DOT [] [COMMA]) with [COMMA].
  change (replace COMMA [DOT] [COMMA]) with [DOT].
  change (digits_of ip ++ [DOT] ++ fp) with (digits_of ip ++ DOT :: fp).
  rewrite (of_str_point (digits_of ip) fp (digits_of_digits ip) Hfp
                        (has_digit_nonempty ip fp Hfp Hex)).
  simpl. destruct debit; reflexivity.
Qed.

(** A credit is parsed exactly, whatever its length. *)
Lemma parse_betrag_credit_exact ip fp :
  well_formed ip fp = true ->
  exists x, parse_betrag (numeral ip fp false) = Ok x
            /\ value_of x = exact_value ip fp false.
Proof.
  intros H. rewrite (parse_betrag_numeral ip fp false H).
  eexists. split; reflexivity.
Qed.

(** [Decimal.__neg__] is exact up to the precision of the context. *)
Lemma neg_exact c e :
  (Dec.ndigits c <= Dec.prec)%Z -> (Dec.Etiny <= e <= 0)%Z ->
  exists x, Dec.neg {| d_sign := false; d_coeff := c; d_exp := e |} = Ok x
            /\ value_of x = ((- Z.of_N c)%Z, e).
Proof.
  intros Hlen He. unfold Dec.neg. cbn [d_coeff d_sign d_exp].
  unfold Dec.Etiny, Dec.Emin, Dec.prec in *.
  destruct (N.eqb c 0) eqn:Hc; unfold Dec.fix_; cbn [d_coeff d_sign d_exp negb];
    rewrite Hc.
  - apply N.eqb_eq in Hc. subst c. eexists. split; [reflexivity|].
    unfold value_of, unscaled. cbn [d_coeff d_sign d_exp].
    unfold Dec.Emax, Dec.Etiny, Dec.Emin, Dec.prec. f_equal. lia.
  - unfold Dec.Etop, Dec.Emax, Dec.Etiny, Dec.Emin, Dec.prec.
    destruct (Z.gtb_spec (Dec.ndigits c + e - 28) (999999 - 28 + 1)); [lia|].
    destruct (Z.ltb_spec (Dec.ndigits c + e - 28) (-999999 - 28 + 1)).
    + destruct (Z.ltb_spec e (-999999 - 28 + 1)); [lia|].
      eexists. split; reflexivity.
    + destruct (Z.ltb_spec e (Dec.ndigits c + e - 28)); [lia|].
      eexists. split; reflexivity.
Qed.

(** The number of digits of a number below [10^k]. *)
Lemma digits_fuel_length : forall fuel n acc k,
  (n < 10 ^ N.of_nat (S k))%N ->
  length (digits_fuel fuel n acc) <= length acc + S k.
Proof.
  induction fuel as [|f IH]; intros n acc k Hn; simpl; [lia|].
  destruct (N.ltb_spec n 10) as [Hlt|Hge]; simpl; [lia|].
  destruct k as [|k].
  - change (10 ^ N.of_nat 1)%N with 10%N in Hn. lia.
  - assert (Hd : (n / 10 < 10 ^ N.of_nat (S k))%N).
    { apply N.Div0.div_lt_upper_bound.
      rewrite <- N.pow_succ_r', <- Nat2N.inj_succ. exact Hn. }
    specialize (IH (n / 10)%N ((48 + n mod 10)%N :: acc) k Hd). simpl in IH. lia.
Qed.

Lemma ndigits_bound c : (c < 10 ^ 28)%N -> (Dec.ndigits c <= Dec.prec)%Z.
Proof.
  intros H. unfold Dec.ndigits, Dec.prec, str_of_N.
  pose proof (digits_fuel_length (S (N.to_nat (N.log2 c))) c [] 27 H) as Hl.
  change (length (@nil char) + 28) with 28 in Hl. lia.
Qed.

(** A debit of at most 28 digits (and not more than a million decimal
    places) is parsed exactly. *)
Lemma parse_betrag_debit_exact ip fp :
  well_formed ip fp = true ->
  (int_of_digits (digits_of ip ++ fp) < 10 ^ 28)%N ->
  (Z.of_nat (length fp) <= 1000026)%Z ->
  exists x, parse_betrag (numeral ip fp true) = Ok x
            /\ value_of x = exact_value ip fp true.
Proof.
  intros H Hc Hf. rewrite (parse_betrag_numeral ip fp true H).
  unfold magnitude, exact_value. apply neg_exact.
  - now apply ndigits_bound.
  - unfold Dec.Etiny, Dec.Emin, Dec.prec. lia.
Qed.

(** *** The amounts the transaction pattern takes *)




(** C6, at a debit of 31 digits: the numeral is well formed, and
    [_parse_betrag] returns its value rounded to the 28 digits of the
    decimal context (1234567890123456789012345679 * 10^1), which is not
    the exact value -1234567890123456789012345678901 * 10^-2. *)
Theorem parse_betrag_rounds_long_debit :
  long_debit = numeral (lit "12345678901234567890123456789") (lit "01") true
  /\ well_formed (lit "12345678901234567890123456789") (lit "01") = true
  /\ exact_value (lit "12345678901234567890123456789") (lit "01") true
     = ((-1234567890123456789012345678901)%Z, (-2)%Z)
  /\ parse_betrag long_debit
     = Ok {| d_sign := true; d_coeff := 1234567890123456789012345679; d_exp := 1 |}
  /\ forall x, parse_betrag long_debit = Ok x ->
               value_of x
               <> exact_value (lit "12345678901234567890123456789") (lit "01") true.
Proof.
  assert (E : parse_betrag long_debit
              = Ok {| d_sign := true; d_coeff := 1234567890123456789012345679;
                      d_exp := 1 |}) by (vm_compute; reflexivity).
  split; [vm_compute; reflexivity|]. split; [vm_compute; reflexivity|].
  split; [vm_compute; reflexivity|]. split; [exact E|].
  intros x Hx. rewrite E in Hx. inversion Hx; subst x. vm_compute. discriminate.
Qed.

End AmountFacts.

(** ** Rounding to binary64 and back to two decimal places *)

Module FloatFacts.

Open Scope Z_scope.

Lemma rne_unique a b k : 0 < b -> 2 * Z.abs (a - k * b) < b -> Float.rne a b = k.
Proof.
  intros Hb Hk. unfold Float.rne.
  pose proof (Z.div_mod a b ltac:(lia)) as Hdm.
  pose proof (Z.mod_pos_bound a b Hb) as Hr.
  set (q := a / b) in *. set (r := a mod b) in *.
  assert (Hlo : k <= q -> k * b <= q * b) by nia.
  assert (Hlo1 : k + 1 <= q -> k * b + b <= q * b) by nia.
  assert (Hhi : q <= k -> q * b <= k * b) by nia.
  assert (Hhi1 : q + 1 <= k -> q * b + b <= k * b) by nia.
  assert (Hhi2 : q + 2 <= k -> q * b + 2 * b <= k * b) by nia.
  replace (b * q) with (q * b) in Hdm by lia.
  destruct (Z.ltb_spec (2 * r) b); [lia|].
  destruct (Z.ltb_spec b (2 * r)); [|exfalso; lia].
  assert (Hq1 : (q + 1) * b = q * b + b) by lia.
  destruct (Z.le_gt_cases k q); [lia|].
  destruct (Z.eq_dec k (q + 1)); [lia|]. lia.
Qed.

Lemma rne_error a b : 0 < b -> 2 * Z.abs (a - Float.rne a b * b) <= b.
Proof.
  intros Hb. unfold Float.rne.
  pose proof (Z.div_mod a b ltac:(lia)) as Hdm.
  pose proof (Z.mod_pos_bound a b Hb) as Hr.
  set (q := a / b) in *. set (r := a mod b) in *.
  replace (b * q) with (q * b) in Hdm by lia.
  assert (Hq1 : (q + 1) * b = q * b + b) by lia.
  destruct (Z.ltb_spec (2 * r) b); [lia|].
  destruct (Z.ltb_spec b (2 * r)); [lia|].
  destruct (Z.even q); lia.
Qed.

Lemma rne_nonneg a b : 0 <= a -> 0 < b -> 0 <= Float.rne a b.
Proof.
  intros Ha Hb. unfold Float.rne.
  pose proof (Z.div_pos a b Ha Hb).
  repeat match goal with |- context [if ?c then _ else _] => destruct c end; lia.
Qed.

Lemma rne_ge_1 a b : 0 < b -> b <= a -> 1 <= Float.rne a b.
Proof.
  intros Hb Ha. unfold Float.rne.
  assert (1 <= a / b) by (apply Z.div_le_lower_bound; lia).
  repeat match goal with |- context [if ?c then _ else _] => destruct c end; lia.
Qed.

(** The binary exponent of an amount below [2^46]. *)
Lemma ilog2_ratio_small c : 0 < c < 100 * 2 ^ 46 -> Float.ilog2_ratio c 100 <= 45.
Proof.
  intros Hc. unfold Float.ilog2_ratio.
  change (Z.log2 100) with 6.
  assert (Hl : Z.log2 c <= 52).
  { assert (Z.log2 c < 53); [|lia]. apply Z.log2_lt_pow2; [lia|].
    change (2 ^ 53) with 9007199254740992.
    change (100 * 2 ^ 46) with 7036874417766400 in Hc. lia. }
  destruct (Z.eq_dec (Z.log2 c) 52) as [E|E].
  - rewrite E. change (52 - 6) with 46. change (0 <=? 46) with true.
    cbv iota. destruct (Z.leb_spec (100 * 2 ^ 46) c); lia.
  - destruct (if 0 <=? Z.log2 c - 6 then _ else _); lia.
Qed.

(** An amount of [c] hundredths below [2^46], turned into the nearest
    binary64 number and printed with two decimal places, is [c]
    hundredths again. *)
Lemma hundredths_of_ratio neg c :
  0 < c < 100 * 2 ^ 46 ->
  exists m e, Float.of_ratio neg c 100 = Float.Ffinite neg m e
              /\ Float.hundredths (Float.Ffinite neg m e) = c.
Proof.
  intros Hc. unfold Float.of_ratio.
  destruct (Z.eqb_spec c 0); [lia|].
  pose proof (ilog2_ratio_small c Hc) as Hlg.
  set (e := Z.max (Float.ilog2_ratio c 100 - 52) (-1074)).
  assert (He : -1074 <= e <= -7) by (unfold e; lia).
  destruct (Z.leb_spec 0 e); [lia|].
  set (p := 2 ^ (- e)).
  assert (Hp : 128 <= p).
  { unfold p. change 128 with (2 ^ 7). apply Z.pow_le_mono_r; lia. }
  pose proof (rne_error (c * p) 100 ltac:(lia)) as Herr.
  pose proof (rne_ge_1 (c * p) 100 ltac:(lia) ltac:(nia)) as Hge.
  set (m0 := Float.rne (c * p) 100) in *.
  destruct (Z.eqb_spec m0 (2 ^ 53)) as [E53|N53].
  - change (2 ^ 52 =? 0) with false. cbv iota.
    destruct (Z.ltb_spec 971 (e + 1)); [lia|].
    exists (2 ^ 52), (e + 1). split; [reflexivity|].
    unfold Float.hundredths. destruct (Z.leb_spec 0 (e + 1)); [lia|].
    apply rne_unique; [apply Z.pow_pos_nonneg; lia|].
    assert (Hp2 : p = 2 * 2 ^ (- (e + 1))).
    { unfold p. replace (- e) with (Z.succ (- (e + 1))) by lia.
      rewrite Z.pow_succ_r by lia. reflexivity. }
    set (p' := 2 ^ (- (e + 1))) in *.
    change (2 ^ 52) with 4503599627370496.
    change (2 ^ 53) with 9007199254740992 in E53. lia.
  - destruct (Z.eqb_spec m0 0); [lia|].
    destruct (Z.ltb_spec 971 e); [lia|].
    exists m0, e. split; [reflexivity|].
    unfold Float.hundredths. destruct (Z.leb_spec 0 e); [lia|].
    fold p. apply rne_unique; lia.
Qed.

Close Scope Z_scope.

End FloatFacts.

(** ** The round trip of a canonical numeral *)

Module RoundTrip.
Import Spec Examples TransactionParser AmountFacts.

(** *** Decimal digits *)

Lemma ascii_digit_value c : ascii_digit c = true -> digit_value c = Some (c - 48)%N.
Proof.
  unfold ascii_digit. intros H. unfold digit_value, digit_zeros. cbn [digit_in].
  change (48 + 9)%N with 57%N. now rewrite H.
Qed.

Lemma ascii_is_digit c : ascii_digit c = true -> is_digit c = true.
Proof. intros H. unfold is_digit. now rewrite (ascii_digit_value c H). Qed.

Lemma ascii_range c : ascii_digit c = true -> (48 <= c <= 57)%N.
Proof.
  unfold ascii_digit, in_range. intros H. apply andb_prop in H as [H1 H2].
  apply N.leb_le in H1, H2. lia.
Qed.

Lemma forallb_ascii_is_digit ds : forallb ascii_digit ds = true -> forallb is_digit ds = true.
Proof.
  rewrite !forallb_forall. intros H c Hc. apply ascii_is_digit. auto.
Qed.

Lemma int_of_digits_snoc ds c :
  ascii_digit c = true ->
  int_of_digits (ds ++ [c]) = (10 * int_of_digits ds + (c - 48))%N.
Proof.
  intros Hc. unfold int_of_digits. rewrite fold_left_app. cbn [fold_left].
  now rewrite (ascii_digit_value c Hc).
Qed.

(** A digit string that does not begin with a zero denotes a number of
    as many digits. *)
Lemma int_of_digits_lower x t :
  ascii_digit x = true -> x <> 48%N -> forallb ascii_digit t = true ->
  (2 ^ N.of_nat (length t) <= int_of_digits (x :: t))%N.
Proof.
  intros Hx Hx0. induction t as [|d t IH] using rev_ind; intros Ht.
  - unfold int_of_digits. cbn [fold_left length]. rewrite (ascii_digit_value x Hx).
    pose proof (ascii_range x Hx). change (2 ^ N.of_nat 0)%N with 1%N. lia.
  - rewrite forallb_app in Ht. apply andb_prop in Ht as [Ht Hd]. simpl in Hd.
    rewrite andb_true_r in Hd. specialize (IH Ht).
    change (x :: t ++ [d]) with ((x :: t) ++ [d]).
    rewrite (int_of_digits_snoc (x :: t) d Hd), length_app. simpl length.
    rewrite Nat.add_1_r, Nat2N.inj_succ, N.pow_succ_r'. lia.
Qed.

Lemma digits_fuel_digits x t :
  ascii_digit x = true -> x <> 48%N -> forallb ascii_digit t = true ->
  forall fuel acc, length t < fuel ->
  digits_fuel fuel (int_of_digits (x :: t)) acc = (x :: t) ++ acc.
Proof.
  intros Hx Hx0. induction t as [|d t IH] using rev_ind; intros Ht fuel acc Hf.
  - destruct fuel as [|f]; [simpl in Hf; lia|]. cbn [digits_fuel].
    unfold int_of_digits. cbn [fold_left]. rewrite (ascii_digit_value x Hx).
    pose proof (ascii_range x Hx) as Hr.
    replace (10 * 0 + (x - 48))%N with (x - 48)%N by lia.
    destruct (N.ltb_spec (x - 48) 10); [|lia].
    rewrite N.mod_small by lia. cbn [app].
    replace (48 + (x - 48))%N with x by lia. reflexivity.
  - rewrite forallb_app in Ht. apply andb_prop in Ht as [Ht Hd]. simpl in Hd.
    rewrite andb_true_r in Hd.
    destruct fuel as [|f]; [lia|]. rewrite length_app in Hf. simpl in Hf.
    change (x :: t ++ [d]) with ((x :: t) ++ [d]).
    rewrite (int_of_digits_snoc (x :: t) d Hd).
    pose proof (int_of_digits_lower x t Hx Hx0 Ht) as Hlow.
    assert (Hpos : (1 <= int_of_digits (x :: t))%N).
    { pose proof (N.pow_nonzero 2 (N.of_nat (length t)) ltac:(lia)). lia. }
    pose proof (ascii_range d Hd) as Hr.
    cbn [digits_fuel].
    destruct (N.ltb_spec (10 * int_of_digits (x :: t) + (d - 48)) 10); [lia|].
    replace ((10 * int_of_digits (x :: t) + (d - 48)) mod 10)%N with (d - 48)%N.
    2:{ symmetry. rewrite N.add_comm, N.mul_comm, N.Div0.mod_add.
        apply N.mod_small. lia. }
    replace ((10 * int_of_digits (x :: t) + (d - 48)) / 10)%N
      with (int_of_digits (x :: t)).
    2:{ symmetry. rewrite N.add_comm, N.mul_comm, N.div_add by lia.
        rewrite N.div_small by lia. reflexivity. }
    rewrite (IH Ht f ((48 + (d - 48))%N :: acc)) by lia.
    rewrite <- app_assoc. cbn [app].
    replace (48 + (d - 48))%N with d by lia. reflexivity.
Qed.

(** [str] undoes [int] on a number written without leading zeros. *)
Lemma str_of_int x t :
  ascii_digit x = true -> x <> 48%N -> forallb ascii_digit t = true ->
  str_of_N (int_of_digits (x :: t)) = x :: t.
Proof.
  intros Hx Hx0 Ht. unfold str_of_N.
  rewrite (digits_fuel_digits x t Hx Hx0 Ht); [apply app_nil_r|].
  pose proof (int_of_digits_lower x t Hx Hx0 Ht) as Hlow.
  assert (Hlog : (N.of_nat (length t) <= N.log2 (int_of_digits (x :: t)))%N).
  { apply N.log2_le_pow2; [|exact Hlow].
    pose proof (N.pow_nonzero 2 (N.of_nat (length t)) ltac:(lia)). lia. }
  lia.
Qed.


(** *** Groups of three *)

Lemma groups_ok_ind (P : str -> Prop) :
  P [] ->
  (forall a b c rest,
      ascii_digit a = true -> ascii_digit b = true -> ascii_digit c = true ->
      groups_ok rest = true -> P rest -> P (DOT :: a :: b :: c :: rest)) ->
  forall rest, groups_ok rest = true -> P rest.
Proof.
  intros Hnil Hcons.
  assert (H : forall n rest, length rest <= n -> groups_ok rest = true -> P rest).
  { induction n as [|n IH]; intros rest Hl Hg.
    - destruct rest; [exact Hnil|simpl in Hl; lia].
    - destruct rest as [|p [|a [|b [|c rest]]]]; try discriminate; [exact Hnil|].
      simpl in Hg. repeat (apply andb_prop in Hg as [Hg ?]).
      apply N.eqb_eq in Hg. subst p.
      apply Hcons; auto. apply IH; auto. simpl in Hl. lia. }
  intros rest. now apply (H (length rest)).
Qed.

Lemma group_rev_head hd :
  1 <= length hd <= 3 -> Float.group_rev (rev hd) 0 = rev hd.
Proof.
  destruct hd as [|a [|b [|c [|d hd]]]]; simpl; intros H; try lia; reflexivity.
Qed.

Lemma group_rev_step X a b c :
  X <> [] ->
  Float.group_rev (rev (X ++ [a; b; c])) 0
  = c :: b :: a :: COMMA :: Float.group_rev (rev X) 0.
Proof.
  intros HX. rewrite rev_app_distr. cbn [rev app].
  destruct (rev X) as [|y r] eqn:E.
  - exfalso. apply HX. rewrite <- (rev_involutive X), E. reflexivity.
  - reflexivity.
Qed.

Lemma digits_of_group a b c rest :
  ascii_digit a = true -> ascii_digit b = true -> ascii_digit c = true ->
  digits_of (DOT :: a :: b :: c :: rest) = a :: b :: c :: digits_of rest.
Proof.
  intros Ha Hb Hc. unfold digits_of. cbn [filter].
  rewrite not_digit_DOT, (ascii_is_digit a Ha), (ascii_is_digit b Hb),
    (ascii_is_digit c Hc). reflexivity.
Qed.

Lemma ascii_neq c x : ascii_digit c = true -> ascii_digit x = false -> N.eqb c x = false.
Proof.
  intros Hc Hx. destruct (N.eqb_spec c x); [subst; congruence|reflexivity].
Qed.

Lemma replace_ascii old new ds :
  ascii_digit old = false -> forallb ascii_digit ds = true -> replace old new ds = ds.
Proof.
  intros Ho. induction ds as [|c ds IH]; simpl; intros H; [reflexivity|].
  apply andb_prop in H as [Hc Hds]. rewrite (ascii_neq c old Hc Ho). simpl.
  f_equal. auto.
Qed.

Lemma commas_of_group a b c rest :
  ascii_digit a = true -> ascii_digit b = true -> ascii_digit c = true ->
  replace DOT [COMMA] (DOT :: a :: b :: c :: rest)
  = COMMA :: a :: b :: c :: replace DOT [COMMA] rest.
Proof.
  intros Ha Hb Hc.
  change (DOT :: a :: b :: c :: rest) with ([DOT] ++ [a; b; c] ++ rest).
  rewrite !replace_app.
  rewrite (replace_ascii DOT [COMMA] [a; b; c]); [reflexivity|reflexivity|].
  simpl. now rewrite Ha, Hb, Hc.
Qed.

(** The grouping of the formatter sets a comma where the numeral has a
    period. *)
Lemma group_rev_groups rest :
  groups_ok rest = true ->
  forall X, X <> [] ->
  Float.group_rev (rev (X ++ digits_of rest)) 0
  = rev (replace DOT [COMMA] rest) ++ Float.group_rev (rev X) 0.
Proof.
  intros Hg. pattern rest. revert rest Hg. apply groups_ok_ind.
  - intros X HX. unfold digits_of. simpl. now rewrite app_nil_r.
  - intros a b c rest Ha Hb Hc Hg IH X HX.
    rewrite (digits_of_group a b c rest Ha Hb Hc).
    change (X ++ a :: b :: c :: digits_of rest) with (X ++ [a; b; c] ++ digits_of rest).
    rewrite app_assoc, IH by (intros E; apply app_eq_nil in E as [_ E]; discriminate).
    rewrite (group_rev_step X a b c HX).
    rewrite (commas_of_group a b c rest Ha Hb Hc).
    cbn [rev]. rewrite <- !app_assoc. reflexivity.
Qed.

Lemma group3_groups hd rest :
  1 <= length hd <= 3 -> groups_ok rest = true ->
  Float.group3 (hd ++ digits_of rest) = hd ++ replace DOT [COMMA] rest.
Proof.
  intros Hhd Hg. unfold Float.group3.
  rewrite (group_rev_groups rest Hg hd) by (destruct hd; [simpl in Hhd; lia|discriminate]).
  rewrite (group_rev_head hd Hhd), rev_app_distr, !rev_involutive. reflexivity.
Qed.

Lemma digits_of_groups_ascii rest :
  groups_ok rest = true -> forallb ascii_digit (digits_of rest) = true.
Proof.
  intros Hg. pattern rest. revert rest Hg. apply groups_ok_ind.
  - reflexivity.
  - intros a b c rest Ha Hb Hc Hg IH.
    rewrite (digits_of_group a b c rest Ha Hb Hc). simpl. now rewrite Ha, Hb, Hc.
Qed.

Lemma groups_digit_or_dot rest :
  groups_ok rest = true -> forallb digit_or_dot rest = true.
Proof.
  intros Hg. pattern rest. revert rest Hg. apply groups_ok_ind.
  - reflexivity.
  - intros a b c rest Ha Hb Hc Hg IH. unfold digit_or_dot in *. cbn [forallb].
    rewrite (ascii_is_digit a Ha), (ascii_is_digit b Hb), (ascii_is_digit c Hc), IH.
    reflexivity.
Qed.

(** *** The exchange of the separators *)

Lemma swap_app a b :
  CSVWriter.swap_separators (a ++ b)
  = CSVWriter.swap_separators a ++ CSVWriter.swap_separators b.
Proof. unfold CSVWriter.swap_separators. now rewrite !replace_app. Qed.

Lemma swap_ascii ds :
  forallb ascii_digit ds = true -> CSVWriter.swap_separators ds = ds.
Proof.
  intros H. unfold CSVWriter.swap_separators.
  rewrite (replace_ascii COMMA [CSVWriter.X] ds), (replace_ascii DOT [COMMA] ds),
    (replace_ascii CSVWriter.X [DOT] ds); auto.
Qed.

Lemma swap_groups rest :
  groups_ok rest = true ->
  CSVWriter.swap_separators (replace DOT [COMMA] rest) = rest.
Proof.
  intros Hg. pattern rest. revert rest Hg. apply groups_ok_ind.
  - reflexivity.
  - intros a b c rest Ha Hb Hc Hg IH.
    rewrite (commas_of_group a b c rest Ha Hb Hc).
    change (COMMA :: a :: b :: c :: replace DOT [COMMA] rest)
      with ([COMMA] ++ [a; b; c] ++ replace DOT [COMMA] rest).
    rewrite !swap_app, IH, (swap_ascii [a; b; c]); [reflexivity|].
    simpl. now rewrite Ha, Hb, Hc.
Qed.

(** *** Canonical numerals *)

Lemma takeWhile_dropWhile p s : Dec.takeWhile p s ++ dropWhile p s = s.
Proof.
  induction s as [|c s IH]; simpl; [reflexivity|].
  destruct (p c); simpl; [now f_equal|reflexivity].
Qed.

Lemma takeWhile_forallb p s : forallb p (Dec.takeWhile p s) = true.
Proof.
  induction s as [|c s IH]; simpl; [reflexivity|].
  destruct (p c) eqn:E; simpl; [now rewrite E|reflexivity].
Qed.

Lemma canonical_int_inv ip :
  canonical_int ip = true ->
  exists hd rest,
    ip = hd ++ rest /\ forallb ascii_digit hd = true /\ 1 <= length hd <= 3
    /\ groups_ok rest = true
    /\ (ip = [48%N] \/ exists x t, hd = x :: t /\ x <> 48%N).
Proof.
  unfold canonical_int. intros H.
  repeat (apply andb_prop in H as [H ?]).
  exists (Dec.takeWhile ascii_digit ip), (dropWhile ascii_digit ip).
  apply Nat.leb_le in H. match goal with H1 : (_ <=? 3) = true |- _ => apply Nat.leb_le in H1 end.
  split; [symmetry; apply takeWhile_dropWhile|].
  split; [apply takeWhile_forallb|]. split; [lia|]. split; [assumption|].
  match goal with H1 : (_ || _)%bool = true |- _ => apply orb_prop in H1 as [H1|H1] end.
  - right. destruct ip as [|x ip']; [simpl in H; lia|].
    simpl in *. destruct (ascii_digit x); [|simpl in H; lia].
    exists x, (Dec.takeWhile ascii_digit ip'). split; [reflexivity|].
    intros ->. discriminate.
  - left. apply WriterFacts.str_eqb_eq. assumption.
Qed.

(** *** Parsing and formatting a canonical numeral *)

Lemma neg_short c e :
  c <> 0%N -> (Dec.ndigits c <= Dec.prec)%Z -> (Dec.Etiny <= e <= 0)%Z ->
  Dec.neg {| d_sign := false; d_coeff := c; d_exp := e |}
  = Ok {| d_sign := true; d_coeff := c; d_exp := e |}.
Proof.
  intros Hc Hlen He. unfold Dec.neg. cbn [d_coeff d_sign d_exp].
  unfold Dec.Etiny, Dec.Emin, Dec.prec in *.
  apply N.eqb_neq in Hc. rewrite Hc.
  unfold Dec.fix_; cbn [d_coeff d_sign d_exp negb]. rewrite Hc.
  unfold Dec.Etop, Dec.Emax, Dec.Etiny, Dec.Emin, Dec.prec.
  destruct (Z.gtb_spec (Dec.ndigits c + e - 28) (999999 - 28 + 1)); [lia|].
  destruct (Z.ltb_spec (Dec.ndigits c + e - 28) (-999999 - 28 + 1)).
  - destruct (Z.ltb_spec e (-999999 - 28 + 1)); [lia|]. reflexivity.
  - destruct (Z.ltb_spec e (Dec.ndigits c + e - 28)); [lia|]. reflexivity.
Qed.

Lemma canonical_inv ip fp :
  canonical ip fp = true ->
  exists hd rest f1 f2,
    ip = hd ++ rest /\ fp = [f1; f2]
    /\ forallb ascii_digit hd = true /\ 1 <= length hd <= 3
    /\ groups_ok rest = true
    /\ ascii_digit f1 = true /\ ascii_digit f2 = true
    /\ (ip = [48%N] \/ exists x t, hd = x :: t /\ x <> 48%N).
Proof.
  unfold canonical. intros H.
  apply andb_prop in H as [H Hf]. apply andb_prop in H as [H Hl].
  apply canonical_int_inv in H as (hd & rest & Hip & Hhd & Hlen & Hg & Hlead).
  destruct fp as [|f1 [|f2 [|f3 fp]]]; try discriminate.
  simpl in Hf. rewrite andb_true_r in Hf. apply andb_prop in Hf as [Hf1 Hf2].
  exists hd, rest, f1, f2. repeat split; auto; lia.
Qed.

Lemma digits_of_canonical hd rest :
  forallb ascii_digit hd = true -> digits_of (hd ++ rest) = hd ++ digits_of rest.
Proof.
  intros H. unfold digits_of. rewrite filter_app. f_equal.
  induction hd as [|c hd IH]; simpl; [reflexivity|].
  simpl in H. apply andb_prop in H as [Hc Hhd].
  rewrite (ascii_is_digit c Hc). f_equal. auto.
Qed.

Lemma canonical_well_formed ip fp : canonical ip fp = true -> well_formed ip fp = true.
Proof.
  intros H.
  destruct (canonical_inv ip fp H)
    as (hd & rest & f1 & f2 & -> & -> & Hhd & Hlen & Hg & Hf1 & Hf2 & _).
  unfold well_formed. rewrite forallb_app, (groups_digit_or_dot rest Hg).
  assert (Hd : forallb digit_or_dot hd = true).
  { rewrite forallb_forall in *. intros c Hc. unfold digit_or_dot.
    now rewrite (ascii_is_digit c (Hhd c Hc)). }
  rewrite Hd. cbn [forallb]. rewrite (ascii_is_digit f1 Hf1), (ascii_is_digit f2 Hf2).
  destruct hd as [|x t]; [simpl in Hlen; lia|].
  simpl in Hhd. apply andb_prop in Hhd as [Hx _].
  simpl. now rewrite (ascii_is_digit x Hx).
Qed.

(** The hundredths of a canonical numeral: a hundred times the integer
    part, and the two digits behind the comma. *)
Lemma cents_split ip f1 f2 :
  ascii_digit f1 = true -> ascii_digit f2 = true ->
  cents ip [f1; f2]
  = (100 * int_of_digits (digits_of ip) + (10 * (f1 - 48) + (f2 - 48)))%N.
Proof.
  intros H1 H2. unfold cents.
  change (digits_of ip ++ [f1; f2]) with (digits_of ip ++ [f1] ++ [f2]).
  rewrite app_assoc, (int_of_digits_snoc _ f2 H2), (int_of_digits_snoc _ f1 H1). lia.
Qed.

Lemma two_digits_of f1 f2 :
  ascii_digit f1 = true -> ascii_digit f2 = true ->
  Float.two_digits (Z.of_N (10 * (f1 - 48) + (f2 - 48))) = [f1; f2].
Proof.
  intros H1 H2. pose proof (ascii_range f1 H1). pose proof (ascii_range f2 H2).
  unfold Float.two_digits.
  assert (Hq : (Z.of_N (10 * (f1 - 48) + (f2 - 48)) / 10 = Z.of_N (f1 - 48))%Z).
  { symmetry. apply (Z.div_unique _ _ _ (Z.of_N (f2 - 48))); lia. }
  assert (Hr : (Z.of_N (10 * (f1 - 48) + (f2 - 48)) mod 10 = Z.of_N (f2 - 48))%Z).
  { symmetry. apply (Z.mod_unique _ _ (Z.of_N (f1 - 48))); lia. }
  rewrite Hq, Hr, !N2Z.id.
  replace (48 + (f1 - 48))%N with f1 by lia.
  replace (48 + (f2 - 48))%N with f2 by lia. reflexivity.
Qed.

(** The digits of the integer part, printed again. *)
Lemma str_of_int_canonical hd rest :
  forallb ascii_digit hd = true -> groups_ok rest = true ->
  (hd ++ rest = [48%N] \/ exists x t, hd = x :: t /\ x <> 48%N) ->
  str_of_N (int_of_digits (hd ++ digits_of rest)) = hd ++ digits_of rest.
Proof.
  intros Hhd Hg [E|(x & t & -> & Hx)].
  - destruct hd as [|a [|b hd]]; simpl in E.
    + subst rest. discriminate.
    + inversion E; subst. reflexivity.
    + inversion E.
  - simpl in Hhd. apply andb_prop in Hhd as [Hax Ht].
    change ((x :: t) ++ digits_of rest) with (x :: (t ++ digits_of rest)).
    apply str_of_int; auto.
    rewrite forallb_app, Ht. now apply digits_of_groups_ascii.
Qed.

(** What the formatter prints for the hundredths of a canonical numeral
    is the body of the numeral. *)
Lemma printed_body ip fp :
  canonical ip fp = true ->
  let r := Z.of_N (cents ip fp) in
  CSVWriter.swap_separators
    (Float.group3 (str_of_N (Z.to_N (r / 100))) ++ [DOT] ++ Float.two_digits (r mod 100))
  = ip ++ COMMA :: fp.
Proof.
  intros H.
  destruct (canonical_inv ip fp H)
    as (hd & rest & f1 & f2 & -> & -> & Hhd & Hlen & Hg & Hf1 & Hf2 & Hlead).
  cbv zeta. rewrite (cents_split _ f1 f2 Hf1 Hf2).
  pose proof (ascii_range f1 Hf1). pose proof (ascii_range f2 Hf2).
  set (n := int_of_digits (digits_of (hd ++ rest))).
  set (w := (10 * (f1 - 48) + (f2 - 48))%N).
  assert (Hw : (w < 100)%N) by (unfold w; lia).
  assert (Hq : (Z.of_N (100 * n + w) / 100 = Z.of_N n)%Z).
  { symmetry. apply (Z.div_unique _ _ _ (Z.of_N w)); lia. }
  assert (Hr : (Z.of_N (100 * n + w) mod 100 = Z.of_N w)%Z).
  { symmetry. apply (Z.mod_unique _ _ (Z.of_N n)); lia. }
  rewrite Hq, Hr, N2Z.id. unfold n, w.
  rewrite (two_digits_of f1 f2 Hf1 Hf2).
  rewrite (digits_of_canonical hd rest Hhd).
  rewrite (str_of_int_canonical hd rest Hhd Hg Hlead).
  rewrite (group3_groups hd rest Hlen Hg).
  rewrite !swap_app, (swap_ascii hd Hhd), (swap_groups rest Hg).
  rewrite (swap_ascii [f1; f2]) by (simpl; now rewrite Hf1, Hf2).
  change (CSVWriter.swap_separators [DOT]) with [COMMA].
  rewrite <- !app_assoc. reflexivity.
Qed.

Lemma sign_glyph_numeral ip fp debit :
  forallb is_digit fp = true ->
  sign_glyph (numeral ip fp debit)
  = (if debit then [UMINUS] else []) ++ ip ++ COMMA :: fp.
Proof.
  intros Hfp. unfold sign_glyph. rewrite (endswith_numeral ip fp debit Hfp).
  rewrite numeral_body. destruct debit.
  - now rewrite removelast_last.
  - now rewrite app_nil_r.
Qed.

(** C3, for the numerals the formatter prints: a canonical numeral (an
    integer part of one to three ASCII digits and groups of a period and
    three digits, no leading zero but in "0", a comma, two ASCII digits,
    a trailing minus for a debit) of an amount below 2^46 that is not a
    debit of zero is parsed and formatted back to itself, the trailing
    minus turned into a leading U+2212. *)
Theorem canonical_round_trip (ip fp : str) (debit : bool) :
  canonical ip fp = true ->
  small ip fp = true ->
  (debit = true -> cents ip fp <> 0%N) ->
  exists x, parse_betrag (numeral ip fp debit) = Ok x
            /\ value_of x = exact_value ip fp debit
            /\ CSVWriter.format_betrag x
               = (if debit then [UMINUS] else []) ++ ip ++ COMMA :: fp
            /\ round_trips (numeral ip fp debit).
Proof.
  intros Hcan Hsmall Hdebit.
  pose proof (canonical_well_formed ip fp Hcan) as Hwf.
  pose proof (printed_body ip fp Hcan) as Hbody. cbv zeta in Hbody.
  cbn [app] in Hbody.
  assert (Hlen : length fp = 2).
  { destruct (canonical_inv ip fp Hcan) as (? & ? & ? & ? & _ & -> & _). reflexivity. }
  assert (Hfp : forallb is_digit fp = true).
  { unfold well_formed in Hwf. apply andb_prop in Hwf as [Hwf _].
    now apply andb_prop in Hwf as [_ Hwf]. }
  unfold small in Hsmall. apply N.ltb_lt in Hsmall.
  change (100 * 2 ^ 46)%N with 7036874417766400%N in Hsmall.
  set (c := cents ip fp) in *.
  set (x := {| d_sign := (debit && negb (N.eqb c 0))%bool; d_coeff := c; d_exp := -2 |}).
  assert (Hparse : parse_betrag (numeral ip fp debit) = Ok x).
  { rewrite (parse_betrag_numeral ip fp debit Hwf). unfold magnitude.
    fold (cents ip fp). fold c. rewrite Hlen. change (- Z.of_nat 2)%Z with (-2)%Z.
    unfold x. destruct debit; [|reflexivity].
    specialize (Hdebit eq_refl). apply N.eqb_neq in Hdebit as Hc0. rewrite Hc0.
    apply neg_short; auto.
    - apply ndigits_bound. change (10 ^ 28)%N with 10000000000000000000000000000%N. lia.
    - unfold Dec.Etiny, Dec.Emin, Dec.prec. lia. }
  assert (Hfmt : CSVWriter.format_betrag x
                 = (if debit then [UMINUS] else []) ++ ip ++ COMMA :: fp).
  { unfold CSVWriter.format_betrag, Float.of_Decimal, x. cbn [d_sign d_coeff d_exp].
    change (0 <=? -2)%Z with false. cbv iota.
    change (10 ^ (- -2))%Z with 100%Z.
    destruct (N.eqb_spec c 0) as [Hc0|Hc0].
    - (* the amount zero, a credit *)
      rewrite Hc0 in *. rewrite andb_false_r.
      assert (Hd : debit = false) by (destruct debit; auto; now elim (Hdebit eq_refl)).
      subst debit. change (Float.of_ratio false (Z.of_N 0) 100) with (Float.Fzero false).
      cbn [Float.ltb0 Float.format_comma_2f Float.sign_of Float.hundredths app].
      exact Hbody.
    - rewrite andb_true_r.
      destruct (FloatFacts.hundredths_of_ratio debit (Z.of_N c)) as (m & e & -> & Hh).
      { change (100 * 2 ^ 46)%Z with 7036874417766400%Z. lia. }
      cbn [Float.ltb0]. destruct debit.
      + cbn [Float.fabs Float.format_comma_2f Float.sign_of app].
        change (Float.hundredths (Float.Ffinite false m e))
          with (Float.hundredths (Float.Ffinite true m e)).
        rewrite Hh.
        change (UMINUS :: ?s) with ([UMINUS] ++ s).
        rewrite swap_app, Hbody. reflexivity.
      + cbn [Float.format_comma_2f Float.sign_of app]. rewrite Hh. exact Hbody. }
  exists x. split; [exact Hparse|]. split; [|split; [exact Hfmt|]].
  - unfold value_of, exact_value, unscaled, x. cbn [d_sign d_coeff d_exp].
    fold (cents ip fp). fold c. rewrite Hlen.
    destruct debit; simpl andb; [|reflexivity].
    specialize (Hdebit eq_refl). apply N.eqb_neq in Hdebit. rewrite Hdebit. reflexivity.
  - exists x. split; [exact Hparse|]. rewrite Hfmt. symmetry.
    now apply sign_glyph_numeral.
Qed.

Lemma canonical_round_trip_witness :
  canonical (lit "1.234") (lit "56") = true
  /\ small (lit "1.234") (lit "56") = true
  /\ cents (lit "1.234") (lit "56") <> 0%N
  /\ round_trips (lit "1.234,56-")
  /\ round_trips (lit "17,60-").
Proof.
  split; [reflexivity|]. split; [reflexivity|]. split; [discriminate|]. split.
  - change (lit "1.234,56-") with (numeral (lit "1.234") (lit "56") true).
    destruct (canonical_round_trip (lit "1.234") (lit "56") true eq_refl eq_refl)
      as (x & H1 & H2 & H3 & H4); [discriminate|exact H4].
  - change (lit "17,60-") with (numeral (lit "17") (lit "60") true).
    destruct (canonical_round_trip (lit "17") (lit "60") true eq_refl eq_refl)
      as (x & H1 & H2 & H3 & H4); [discriminate|exact H4].
Defined.

Ltac no_round_trip :=
  let x := fresh "x" in
  let Hp := fresh "Hp" in
  let Hf := fresh "Hf" in
  intros (x & Hp & Hf); vm_compute in Hp;
  first [ discriminate Hp
        | inversion Hp; subst x; vm_compute in Hf; discriminate Hf ].

(** C3 as worded fails.  The transaction pattern takes "1,5" as the amount
    of [coffee_line], and the formatter prints it as "1,50"; it takes
    "1.2,3,4", which is no number; the canonical numeral
    "99.999.999.999.999,99" comes back as "99.999.999.999.999,98"; and
    the debit "0,00-" comes back without a sign. *)
Lemma round_trip_fails :
  option_map (fun m => group m 3) (search TRANSACTION_PATTERN coffee_line)
  = Some (lit "1,5")
  /\ amount_token (lit "1,5") = true /\ ~ round_trips (lit "1,5")
  /\ amount_token (lit "1.2,3,4") = true /\ ~ round_trips (lit "1.2,3,4")
  /\ canonical (lit "99.999.999.999.999") (lit "99") = true
  /\ ~ round_trips (lit "99.999.999.999.999,99")
  /\ canonical (lit "0") (lit "00") = true /\ ~ round_trips (lit "0,00-")
  /\ ~ (forall s, amount_token s = true -> round_trips s).
Proof.
  split; [vm_compute; reflexivity|].
  split; [reflexivity|]. split; [no_round_trip|].
  split; [reflexivity|]. split; [no_round_trip|].
  split; [reflexivity|]. split; [no_round_trip|].
  split; [reflexivity|]. split; [no_round_trip|].
  intros H. specialize (H (lit "1,5") eq_refl). revert H. no_round_trip.
Qed.

End RoundTrip.

(** * Positions of groups *)

Module ReMore.
Import Spec Props ReFacts.

Lemma exec_matches r : forall pos input g k res,
  exec r pos input g k = Some res ->
  exists w rest gs, input = w ++ rest /\ matches r pos w rest gs
                    /\ k (pos + length w) rest (gs ++ g) = Some res.
Proof.
  induction r; intros pos input g k res H; simpl in H.
  - exists [], input, []. rewrite Nat.add_0_r. repeat split; auto. constructor.
  - destruct input as [|x t]; [discriminate|].
    destruct (N.eqb_spec x c); [subst|discriminate].
    exists [c], t, []. simpl. rewrite Nat.add_1_r. repeat split; auto. constructor.
  - destruct input as [|x t]; [discriminate|].
    destruct (p x) eqn:Hp; [|discriminate].
    exists [x], t, []. simpl. rewrite Nat.add_1_r. repeat split; auto. now constructor.
  - destruct (Nat.eqb_spec pos 0); [subst|discriminate].
    exists [], input, []. repeat split; auto. constructor.
  - assert (Hk : k pos input g = Some res /\ (input = [] \/ input = [LF])).
    { destruct input as [|x [|y t]]; auto; try discriminate.
      destruct (N.eqb_spec x LF); [subst; auto|discriminate]. }
    destruct Hk as [Hk Hr].
    exists [], input, []. rewrite Nat.add_0_r. repeat split; auto. now constructor.
  - apply IHr1 in H as (w1 & rest1 & g1 & -> & L1 & H).
    apply IHr2 in H as (w2 & rest2 & g2 & -> & L2 & H).
    exists (w1 ++ w2), rest2, (g2 ++ g1). rewrite <- !app_assoc. repeat split; auto.
    + now constructor.
    + now rewrite length_app, Nat.add_assoc.
  - destruct (exec r1 pos input g k) eqn:H1.
    + inversion H; subst. apply IHr1 in H1 as (w & rest' & g' & -> & L & Hk).
      exists w, rest', g'. repeat split; auto. now apply M_AltL.
    + apply IHr2 in H as (w & rest' & g' & -> & L & Hk).
      exists w, rest', g'. repeat split; auto. now apply M_AltR.
  - destruct (exec r pos input g k) eqn:H1.
    + inversion H; subst. apply IHr in H1 as (w & rest' & g' & -> & L & Hk).
      exists w, rest', g'. repeat split; auto. now apply M_OptSome.
    + exists [], input, []. rewrite Nat.add_0_r. repeat split; auto. constructor.
  - destruct input as [|x t]; [discriminate|].
    destruct (p x) eqn:Hp; [|discriminate].
    apply starG_sound in H as (w & rest' & -> & Hw & Hk).
    exists (x :: w), rest', []. simpl. repeat split; auto.
    + constructor; [discriminate|now constructor].
    + now rewrite Nat.add_succ_r.
  - destruct input as [|x t]; [discriminate|].
    destruct (p x) eqn:Hp; [|discriminate].
    apply starL_sound in H as (w & rest' & -> & Hw & Hk).
    exists (x :: w), rest', []. simpl. repeat split; auto.
    + constructor; [discriminate|now constructor].
    + now rewrite Nat.add_succ_r.
  - apply IHr in H as (w & rest' & g' & -> & L & Hk).
    exists w, rest', ((n, (pos, pos + length w)) :: g'). repeat split; auto.
    now constructor.
Qed.

(** [re.match]: the match begins the subject. *)
Lemma match_matches r s m :
  match_ r s = Some m ->
  exists w rest, s = w ++ rest /\ matches r 0 w rest (m_spans m)
                 /\ m_string m = s /\ m_end m = length w.
Proof.
  unfold match_. destruct (exec r 0 s [] accept) as [[e g]|] eqn:He; [|discriminate].
  intros E. injection E as <-. cbn [m_spans m_string m_end].
  apply exec_matches in He as (w & rest & gs & -> & Hm & Hk).
  unfold accept in Hk. injection Hk as <- <-. rewrite app_nil_r.
  exists w, rest. repeat split; auto.
Qed.

Lemma search_from_matches r s : forall rest pre m,
  s = pre ++ rest ->
  search_from r s (length pre) rest = Some m ->
  exists pre' w post, s = pre' ++ w ++ post
                      /\ matches r (length pre') w post (m_spans m)
                      /\ m_string m = s.
Proof.
  induction rest as [|x t IH]; intros pre m Hs H; rewrite search_from_eq in H.
  - destruct (exec r (length pre) [] [] accept) as [[e g]|] eqn:He; [|discriminate].
    injection H as <-. cbn [m_spans m_string].
    apply exec_matches in He as (w & rest' & gs & Hw & Hm & Hk).
    unfold accept in Hk. injection Hk as <- <-. rewrite app_nil_r.
    exists pre, w, rest'. repeat split; auto. now rewrite <- Hw.
  - destruct (exec r (length pre) (x :: t) [] accept) as [[e g]|] eqn:He.
    + injection H as <-. cbn [m_spans m_string].
      apply exec_matches in He as (w & rest' & gs & Hw & Hm & Hk).
      unfold accept in Hk. injection Hk as <- <-. rewrite app_nil_r.
      exists pre, w, rest'. repeat split; auto. now rewrite <- Hw.
    + apply (IH (pre ++ [x])).
      * now rewrite <- app_assoc.
      * rewrite length_app, Nat.add_1_r. exact H.
Qed.

Lemma search_matches r s m :
  search r s = Some m ->
  exists pre w post, s = pre ++ w ++ post
                     /\ matches r (length pre) w post (m_spans m)
                     /\ m_string m = s.
Proof. intros H. now apply (search_from_matches r s s [] m). Qed.

Lemma matches_lang r pos w rest g : matches r pos w rest g -> lang r w.
Proof. induction 1; try (now constructor). Qed.

(** A pattern without groups records no span. *)
Lemma matches_groupless r pos w rest g :
  matches r pos w rest g -> groupless r = true -> g = [].
Proof.
  induction 1; cbn [groupless]; intros Hg; try reflexivity; try discriminate; auto.
  apply andb_prop in Hg as [H1 H2]. now rewrite IHmatches1, IHmatches2.
  all: apply andb_prop in Hg as [H1 H2]; auto.
Qed.

End ReMore.

(** * Decimal numerals *)

Module NumFacts.
Import Spec.

Lemma ascii_digit_of_mod (n : N) : ascii_digit (48 + n mod 10)%N = true.
Proof.
  unfold ascii_digit, in_range.
  pose proof (N.mod_upper_bound n 10 ltac:(discriminate)) as Hm.
  revert Hm. generalize (n mod 10)%N. intros r Hr.
  apply andb_true_intro. split; apply N.leb_le; lia.
Qed.

Lemma int_of_digits_one c : ascii_digit c = true -> int_of_digits [c] = (c - 48)%N.
Proof.
  intros H. unfold int_of_digits. cbn [fold_left].
  rewrite (RoundTrip.ascii_digit_value c H). lia.
Qed.

(** [str(n)] is the decimal numeral of [n], without a leading zero. *)
Lemma digits_fuel_spec : forall f n acc,
  (n < 2 ^ N.of_nat (S f))%N ->
  exists ds, digits_fuel (S f) n acc = ds ++ acc
             /\ int_of_digits ds = n
             /\ forallb ascii_digit ds = true
             /\ ds <> []
             /\ (n <> 0%N -> hd_default ds <> 48%N)
             /\ (n = 0%N -> ds = [48%N]).
Proof.
  induction f as [|f IH]; intros n acc Hn.
  - change (2 ^ N.of_nat 1)%N with 2%N in Hn.
    exists [(48 + n mod 10)%N]. cbn [digits_fuel].
    assert (Hm : (n mod 10 = n)%N) by (apply N.mod_small; lia).
    repeat split.
    + now destruct (N.ltb n 10).
    + rewrite int_of_digits_one by apply ascii_digit_of_mod. lia.
    + cbn [forallb]. now rewrite ascii_digit_of_mod.
    + discriminate.
    + unfold hd_default. cbn [hd]. lia.
    + intros ->. reflexivity.
  - cbn [digits_fuel]. destruct (N.ltb_spec n 10) as [Hlt|Hge].
    + exists [(48 + n mod 10)%N].
      assert (Hm : (n mod 10 = n)%N) by (apply N.mod_small; lia).
      repeat split.
      * rewrite int_of_digits_one by apply ascii_digit_of_mod. lia.
      * cbn [forallb]. now rewrite ascii_digit_of_mod.
      * discriminate.
      * unfold hd_default. cbn [hd]. lia.
      * intros ->. reflexivity.
    + assert (Hq : (n / 10 < 2 ^ N.of_nat (S f))%N).
      { apply N.Div0.div_lt_upper_bound.
        rewrite Nat2N.inj_succ, N.pow_succ_r' in Hn. lia. }
      assert (Hq0 : (n / 10 <> 0)%N).
      { intros E. pose proof (N.div_mod n 10 ltac:(discriminate)) as Hdm.
        pose proof (N.mod_upper_bound n 10 ltac:(discriminate)) as Hmb.
        rewrite E in Hdm. revert Hdm Hmb. generalize (n mod 10)%N. intros r Hdm Hmb.
        lia. }
      destruct (IH (n / 10)%N ((48 + n mod 10)%N :: acc) Hq)
        as (ds & E & Hv & Hd & Hne & Hlead & _).
      exists (ds ++ [(48 + n mod 10)%N]). repeat split.
      * rewrite <- app_assoc. exact E.
      * rewrite RoundTrip.int_of_digits_snoc by apply ascii_digit_of_mod.
        rewrite Hv. pose proof (N.div_mod n 10 ltac:(discriminate)) as Hdm.
        revert Hdm. generalize (n / 10)%N (n mod 10)%N. intros q r Hdm. lia.
      * rewrite forallb_app, Hd. cbn [forallb]. now rewrite ascii_digit_of_mod.
      * destruct ds; discriminate.
      * intros _. specialize (Hlead Hq0). destruct ds; [contradiction|exact Hlead].
      * intros E0. lia.
Qed.

Lemma str_of_N_spec n :
  int_of_digits (str_of_N n) = n
  /\ forallb ascii_digit (str_of_N n) = true
  /\ str_of_N n <> [].
Proof.
  unfold str_of_N.
  assert (Hn : (n < 2 ^ N.of_nat (S (N.to_nat (N.log2 n))))%N).
  { rewrite Nat2N.inj_succ, N2Nat.id.
    destruct n as [|p]; [reflexivity|]. apply N.log2_spec. reflexivity. }
  destruct (digits_fuel_spec _ n [] Hn) as (ds & E & Hv & Hd & Hne & _).
  rewrite E, app_nil_r. auto.
Qed.

Lemma str_of_N_lead n :
  str_of_N n = [48%N] \/ exists x t, str_of_N n = x :: t /\ x <> 48%N.
Proof.
  unfold str_of_N.
  assert (Hn : (n < 2 ^ N.of_nat (S (N.to_nat (N.log2 n))))%N).
  { rewrite Nat2N.inj_succ, N2Nat.id.
    destruct n as [|p]; [reflexivity|]. apply N.log2_spec. reflexivity. }
  destruct (digits_fuel_spec _ n [] Hn) as (ds & E & _ & _ & Hne & Hlead & Hzero).
  rewrite E, app_nil_r. destruct (N.eq_dec n 0) as [H0|H0].
  - left. auto.
  - right. destruct ds as [|x t]; [contradiction|]. exists x, t. split; [reflexivity|].
    exact (Hlead H0).
Qed.

End NumFacts.


(** * More about the parser *)

Module ParserMore.
Import Spec Props Examples StrFacts ReFacts ReMore ParserFacts TransactionParser.

Ltac inv_matches :=
  repeat match goal with
         | H : matches Eps _ _ _ _ |- _ => inversion H; clear H; subst
         | H : matches (Chr _) _ _ _ _ |- _ => inversion H; clear H; subst
         | H : matches (Cls _) _ _ _ _ |- _ => inversion H; clear H; subst
         | H : matches Bol _ _ _ _ |- _ => inversion H; clear H; subst
         | H : matches Eol _ _ _ _ |- _ => inversion H; clear H; subst
         | H : matches (Cat _ _) _ _ _ _ |- _ => inversion H; clear H; subst
         | H : matches (Grp _ _) _ _ _ _ |- _ => inversion H; clear H; subst
         | H : matches (PlusG _) _ _ _ _ |- _ => inversion H; clear H; subst
         | H : matches (PlusL _) _ _ _ _ |- _ => inversion H; clear H; subst
         end.

Ltac norm_app :=
  repeat first [rewrite <- app_assoc | rewrite app_nil_r | progress cbn [app] ].

Ltac inv_opt :=
  match goal with
  | H : matches (Opt _) _ _ _ _ |- _ => inversion H; clear H; subst
  end.

Lemma slice_at a b (pre w post s : str) :
  s = pre ++ w ++ post -> a = length pre -> b = a + length w -> slice a b s = w.
Proof. intros -> -> ->. apply slice_middle. Qed.

(** The parts of a line the transaction pattern matches, and where its
    groups lie. *)
Lemma transaction_anatomy line m :
  search TRANSACTION_PATTERN line = Some m ->
  exists desc s1 v s2 amount post,
    line = desc ++ s1 ++ v ++ s2 ++ amount ++ post
    /\ (post = [] \/ post = [LF])
    /\ group m 1 = desc /\ group m 2 = v /\ group m 3 = amount
    /\ desc <> [] /\ Forall (fun c => any c = true) desc
    /\ s1 <> [] /\ Forall (fun c => is_space c = true) s1
    /\ s2 <> [] /\ Forall (fun c => is_space c = true) s2.
Proof.
  intros H. apply search_matches in H as (pre & w & post & Hl & Hm & Hs).
  cbv [TRANSACTION_PATTERN cat rep d dot] in Hm.
  inv_matches. destruct pre; [|discriminate].
  match goal with
  | H : _ = m_spans m |- _ => rename H into Hg
  end.
  exists w1, w2, [c; c2; DOT; c0; c1], w3, (w0 ++ w5), post.
  assert (El : m_string m
               = w1 ++ w2 ++ [c; c2; DOT; c0; c1] ++ w3 ++ (w0 ++ w5) ++ post).
  { rewrite Hs. now norm_app. }
  split; [rewrite <- Hs; exact El|].
  split; [assumption|].
  assert (Hg4 : g4 = []).
  { match goal with
    | H : matches (Opt _) _ _ _ _ |- _ => inversion H; subst; [reflexivity|]
    end.
    match goal with
    | H : matches (Chr _) _ _ _ _ |- _ => inversion H; subst; reflexivity
    end. }
  subst g4. unfold group. rewrite <- Hg.
  cbn [app lookup Nat.eqb length Nat.add];
    (split; [apply (slice_at _ _ [] w1 (w2 ++ [c; c2; DOT; c0; c1] ++ w3 ++ (w0 ++ w5) ++ post));
             [exact El|reflexivity|reflexivity]|]);
    (split; [apply (slice_at _ _ (w1 ++ w2) [c; c2; DOT; c0; c1] (w3 ++ (w0 ++ w5) ++ post));
             [rewrite El; now norm_app
             |rewrite length_app; reflexivity|reflexivity]|]);
    (split; [apply (slice_at _ _ (w1 ++ w2 ++ [c; c2; DOT; c0; c1] ++ w3) (w0 ++ w5) post);
             [rewrite El; now norm_app
             |rewrite !length_app; cbn [length]; lia
             |rewrite ?length_app; cbn [length]; lia]|]);
    repeat split; assumption.
Qed.

(** What [strptime] reads: the day, the month and the year between the
    points, and a date of the calendar. *)
Lemma strptime_anatomy s dt :
  strptime s = Ok dt ->
  exists wd wm y1 y2 y3 y4,
    s = wd ++ [DOT] ++ wm ++ [DOT] ++ [y1; y2; y3; y4]
    /\ lang day_alternatives wd /\ lang month_alternatives wm
    /\ Forall (fun c => is_digit c = true) [y1; y2; y3; y4]
    /\ dt_year dt = Z.of_N (int_of_digits [y1; y2; y3; y4])
    /\ dt_month dt = Z.of_N (int_of_digits wm)
    /\ dt_day dt = Z.of_N (int_of_digits (strip wd))
    /\ valid_date (dt_year dt) (dt_month dt) (dt_day dt) = true.
Proof.
  unfold strptime. destruct (match_ format_regex s) as [m|] eqn:Hm; [|discriminate].
  destruct (Nat.eqb_spec (length s) (m_end m)) as [Hlen|]; [|discriminate].
  cbn [negb].
  destruct (valid_date _ _ _) eqn:Hv; [|discriminate].
  intros E. injection E as <-. cbn [dt_year dt_month dt_day].
  apply match_matches in Hm as (w & rest & Hs & Hmt & Hstr & Hend).
  assert (rest = []).
  { rewrite Hs, length_app, Hend in Hlen. destruct rest; [reflexivity|simpl in Hlen; lia]. }
  subst rest. rewrite app_nil_r in Hs. subst w.
  cbv [format_regex cat re_d re_m re_Y rep d dot] in Hmt.
  revert Hstr Hv. inv_matches. intros Hstr.
  match goal with
  | H : _ = m_spans m |- _ => rename H into Hg
  end.
  repeat match goal with
         | H : matches (Alt _ _) _ _ _ _ |- _ =>
             pose proof (matches_groupless _ _ _ _ _ H eq_refl);
             apply matches_lang in H; subst
         end.
  unfold group. rewrite <- Hg, Hstr.
  cbn [app lookup Nat.eqb length Nat.add].
  rewrite (slice_at _ _ (w1 ++ DOT :: w0 ++ [DOT]) [c; c0; c1; c2] []
                    (w1 ++ DOT :: w0 ++ [DOT; c; c0; c1; c2]));
    [|now norm_app|rewrite !length_app; cbn [length]; rewrite length_app; cbn [length]; lia
     |reflexivity].
  rewrite (slice_at _ _ (w1 ++ [DOT]) w0 [DOT; c; c0; c1; c2]
                    (w1 ++ DOT :: w0 ++ [DOT; c; c0; c1; c2]));
    [|now norm_app|rewrite !length_app; reflexivity|reflexivity].
  rewrite (slice_at _ _ [] w1 (DOT :: w0 ++ [DOT; c; c0; c1; c2])
                    (w1 ++ DOT :: w0 ++ [DOT; c; c0; c1; c2]));
    [|reflexivity|reflexivity|reflexivity].
  intros Hv. exists w1, w0, c, c0, c1, c2.
  repeat split; auto.
Qed.

(** *** Trimmed lines *)

Lemma dropWhile_hd p : forall (l : str) x t, dropWhile p l = x :: t -> p x = false.
Proof.
  induction l as [|y l IH]; intros x t H; simpl in H; [discriminate|].
  destruct (p y) eqn:Hy; [eauto|]. injection H as <- _. exact Hy.
Qed.

Lemma rstrip_prefix s : exists b, s = rstrip s ++ b.
Proof.
  unfold rstrip. destruct (dropWhile_suffix is_space (rev s)) as [a Ha].
  exists (rev a). rewrite <- rev_app_distr, <- Ha. now rewrite rev_involutive.
Qed.

Lemma strip_hd l x t : strip l = x :: t -> is_space x = false.
Proof.
  unfold strip. intros H. destruct (rstrip_prefix (lstrip l)) as [b Hb].
  rewrite H in Hb. unfold lstrip in Hb. cbn [app] in Hb.
  exact (dropWhile_hd is_space l x (t ++ b) Hb).
Qed.

Lemma strip_cons x t : is_space x = false -> strip (x :: t) <> [].
Proof.
  intros Hx. unfold strip, lstrip. cbn [dropWhile]. rewrite Hx.
  unfold rstrip. cbn [rev].
  destruct (dropWhile_app_stop is_space (rev t) x [] Hx) as [pre' E].
  rewrite E, rev_app_distr. discriminate.
Qed.

Lemma strip_last l x t : strip l = t ++ [x] -> is_space x = false.
Proof.
  unfold strip, rstrip. intros H.
  apply (f_equal (@rev char)) in H. rewrite rev_involutive, rev_app_distr in H.
  cbn [rev app] in H. exact (dropWhile_hd is_space _ x (rev t) H).
Qed.

Lemma strip_hd_tl_solid l :
  strip l <> [] ->
  is_space (hd SPACE (strip l)) = false /\ is_space (last (strip l) SPACE) = false.
Proof.
  intros Hne. split.
  - destruct (strip l) as [|x t] eqn:E; [contradiction|]. exact (strip_hd l x t E).
  - destruct (exists_last Hne) as (t & x & E). rewrite E, last_last.
    exact (strip_last l x t E).
Qed.

(** *** Dates *)

Lemma split_first (c : char) : forall a a' b b' : str,
  Forall (fun x => N.eqb x c = false) a ->
  Forall (fun x => N.eqb x c = false) a' ->
  a ++ c :: b = a' ++ c :: b' -> a = a' /\ b = b'.
Proof.
  induction a as [|x a IH]; intros [|y a'] b b' Ha Ha' E; cbn [app] in E.
  - injection E as ->. auto.
  - injection E as <- _. inversion Ha' as [|? ? Hy _]. now rewrite N.eqb_refl in Hy.
  - injection E as -> _. inversion Ha as [|? ? Hx _]. now rewrite N.eqb_refl in Hx.
  - injection E as -> E. inversion Ha; inversion Ha'; subst.
    destruct (IH a' b b') as [-> ->]; auto.
Qed.

Lemma range_not_dot lo hi c :
  Datetime.ascii_range lo hi c = true -> (47 < hd 0%N (lit lo))%N -> N.eqb c DOT = false.
Proof.
  unfold Datetime.ascii_range. destruct (lit lo) as [|a [|? ?]]; try discriminate.
  destruct (lit hi) as [|b [|? ?]]; try discriminate.
  unfold in_range. cbn [hd]. intros H Ha. apply andb_prop in H as [H1 H2].
  apply N.leb_le in H1. apply N.eqb_neq. unfold DOT. lia.
Qed.

Ltac inv_alt :=
  repeat match goal with
         | H : lang (Alt _ _) _ |- _ => inversion H; clear H; subst
         | H : lang (Cat _ _) _ |- _ => inversion H; clear H; subst
         | H : lang (Cls _) _ |- _ => inversion H; clear H; subst
         | H : lang (text _) _ |- _ => apply lang_chars in H; subst
         end.

Ltac no_dot :=
  repeat (apply Forall_cons || apply Forall_nil || cbn [app]);
  try reflexivity;
  try (eapply range_not_dot; [eassumption|reflexivity]);
  try (apply AmountFacts.digit_neq; [assumption|reflexivity]).

Lemma day_no_dot w :
  lang day_alternatives w -> Forall (fun x => N.eqb x DOT = false) w.
Proof.
  cbv [day_alternatives re_d d]. intros H. inv_alt; no_dot.
Qed.

Lemma month_no_dot w :
  lang month_alternatives w -> Forall (fun x => N.eqb x DOT = false) w.
Proof.
  cbv [month_alternatives re_m]. intros H. inv_alt; no_dot.
Qed.




(** *** The loops *)

Lemma step_returns self lines st txs :
  step self lines st = Ok (inr txs) ->
  txs = transactions st /\ pc st = Seeking /\ length lines <= i st.
Proof.
  unfold step. destruct (pc st) as [|bd].
  - destruct (Nat.ltb_spec (i st) (length lines)) as [Hlt|Hge].
    + intros H. apply bind_Ok in H as (l & _ & H).
      destruct (search BOOKING_DATE_PATTERN (strip l)).
      * apply bind_Ok in H as (b & _ & H). discriminate.
      * discriminate.
    + intros H. injection H as <-. auto.
  - destruct (Nat.ltb_spec (i st) (length lines)) as [Hlt|Hge]; [|discriminate].
    intros H. apply bind_Ok in H as ([tr|] & _ & H); [discriminate|].
    apply bind_Ok in H as (l & _ & H).
    destruct (found _); discriminate.
Qed.

Lemma step_past_end self lines st bd :
  pc st = InBlock bd -> length lines <= i st ->
  step self lines st = Ok (inl (goto Seeking (i st) (transactions st))).
Proof.
  intros Hpc Hge. unfold step. rewrite Hpc.
  destruct (Nat.ltb_spec (i st) (length lines)); [lia|reflexivity].
Qed.

Lemma step_seeking_inside self lines st st' :
  pc st = Seeking -> step self lines st = Ok (inl st') -> i st < length lines.
Proof.
  intros Hpc. unfold step. rewrite Hpc.
  destruct (Nat.ltb_spec (i st) (length lines)); [auto|discriminate].
Qed.

Lemma seq_snoc n : seq 0 (n + 1) = seq 0 n ++ [n].
Proof. rewrite seq_app. reflexivity. Qed.

Lemma filter_snoc (f : nat -> bool) l x :
  filter f (l ++ [x]) = if f x then filter f l ++ [x] else filter f l.
Proof.
  rewrite filter_app. cbn [filter]. destruct (f x); [reflexivity|apply app_nil_r].
Qed.

Lemma nth_error_some_lt (lines : list str) k : k < length lines ->
  exists l, nth_error lines k = Some l /\ nth k lines [] = l.
Proof.
  intros H. destruct (nth_error lines k) as [l|] eqn:E.
  - exists l. split; [reflexivity|]. now apply nth_error_nth.
  - apply nth_error_None in E. lia.
Qed.

Lemma indices_ok_step self lines st st' :
  scan_inv lines st -> indices_ok lines st ->
  step self lines st = Ok (inl st') -> indices_ok lines st'.
Proof.
  intros [_ Hph] [Hidx Hle] Hstep. unfold indices_ok.
  destruct (pc st) as [|bd] eqn:Hpc.
  - pose proof (step_seeking_inside self lines st st' Hpc Hstep) as Hlt.
    destruct (nth_error_some_lt lines (i st) Hlt) as (l & Hl & Hn).
    assert (Hem : emits lines (i st) = false).
    { unfold emits. rewrite Hn.
      destruct Hph as [[Hno _]|[(l' & Hl' & Hm & Ht)|Hge]]; [| |lia].
      - rewrite Hno. apply andb_false_r.
      - rewrite Hl in Hl'. injection Hl' as <-. now rewrite Ht. }
    assert (E : i st' = i st + 1 /\ transactions st' = transactions st).
    { destruct (has_marker l) eqn:Hm.
      - destruct (step_seeking_marker self lines st l st' Hpc Hl Hm Hstep)
          as (bd & _ & ->). auto.
      - rewrite (step_seeking_plain self lines st l Hpc Hl Hm) in Hstep.
        injection Hstep as <-. auto. }
    destruct E as [-> ->]. rewrite seq_snoc, filter_snoc, Hem. split; [assumption|lia].
  - destruct (Nat.ltb_spec (i st) (length lines)) as [Hlt|Hge].
    + destruct (nth_error_some_lt lines (i st) Hlt) as (l & Hl & Hn).
      pose proof (step_in_block self lines st bd l Hpc Hl) as Hb.
      pose proof (block_ok_marker_before lines (i st) bd Hph) as Hno.
      pose proof (classify_transaction l) as Hc.
      destruct (classify l) eqn:Hk.
      * rewrite Hb in Hstep. injection Hstep as <-. cbn [i transactions goto].
        split; [assumption|lia].
      * assert (Hem : emits lines (i st) = true).
        { unfold emits. rewrite Hn, Hno, (proj1 Hc eq_refl). reflexivity. }
        destruct Hb as [(tr & Hb)|(e & Hb)]; rewrite Hb in Hstep; [|discriminate].
        injection Hstep as <-. cbn [i transactions goto].
        rewrite seq_snoc, filter_snoc, Hem, map_app, Hidx. split; [reflexivity|lia].
      * assert (Hem : emits lines (i st) = false).
        { unfold emits. rewrite Hn.
          destruct (is_transaction_line l); [|reflexivity].
          destruct Hc as [_ Hc]. discriminate (Hc eq_refl). }
        rewrite Hb in Hstep. injection Hstep as <-. cbn [i transactions goto].
        rewrite seq_snoc, filter_snoc, Hem. split; [assumption|lia].
      * assert (Hem : emits lines (i st) = false).
        { unfold emits. rewrite Hn.
          destruct (is_transaction_line l); [|reflexivity].
          destruct Hc as [_ Hc]. discriminate (Hc eq_refl). }
        rewrite Hb in Hstep. injection Hstep as <-. cbn [i transactions goto].
        rewrite seq_snoc, filter_snoc, Hem. split; [assumption|lia].
    + rewrite (step_past_end self lines st bd Hpc Hge) in Hstep.
      injection Hstep as <-. cbn [i transactions goto]. auto.
Qed.

Lemma indices_ok_run self lines : forall fuel st recs,
  scan_inv lines st -> indices_ok lines st ->
  run fuel self lines st = Ok recs ->
  List.map fst recs = emitting_lines lines.
Proof.
  induction fuel as [|fuel IH]; intros st recs Hinv Hidx H; cbn [run] in H;
    [discriminate|].
  apply bind_Ok in H as ([st'|txs] & Hstep & H).
  - apply (IH st' recs); auto.
    + exact (scan_inv_step self lines st st' Hinv Hstep).
    + exact (indices_ok_step self lines st st' Hinv Hidx Hstep).
  - injection H as <-. apply step_returns in Hstep as (-> & _ & Hge).
    destruct Hidx as [Hidx Hle]. unfold emitting_lines.
    replace (length lines) with (i st) by lia. exact Hidx.
Qed.

End ParserMore.


(** * Properties of the parser beyond the specification *)

Module ParserProps.
Import Spec Props Examples MoreExamples StrFacts ReFacts ReMore ParserFacts ParserMore TransactionParser.

(** *** Outcomes *)

Lemma getitem_inside (lines : list str) k e : k < length lines -> getitem lines k <> Raise e.
Proof.
  intros Hk. unfold getitem.
  destruct (nth_error_some_lt lines k Hk) as (l & -> & _). discriminate.
Qed.

Lemma parse_valuta_raises self v e :
  resolved self -> parse_valuta self v = Raise e -> e = InvalidDate.
Proof.
  intros (y & Hy & Hy1). unfold parse_valuta. rewrite Hy.
  destruct (Z.eqb_spec y 0); [lia|]. apply strptime_raises.
Qed.

Lemma try_parse_raises self lines k bd e :
  resolved self -> k < length lines ->
  try_parse_transaction self lines k bd = Raise e ->
  e = InvalidDate \/ e = MalformedAmount \/ e = DecimalOverflow.
Proof.
  intros Hres Hk H. unfold try_parse_transaction in H.
  apply bind_Raise in H as [H|(l & _ & H)]; [now apply getitem_inside in H|].
  destruct (is_empty (strip l) || is_non_transaction_line (strip l))%bool; [discriminate|].
  destruct (search TRANSACTION_PATTERN (strip l)) as [m|]; [|discriminate].
  apply bind_Raise in H as [H|(v & _ & H)].
  - left. exact (parse_valuta_raises self _ e Hres H).
  - apply bind_Raise in H as [H|(b & _ & H)]; [|discriminate].
    right. exact (parse_betrag_raises _ e H).
Qed.

Lemma step_raises self lines st e :
  resolved self -> step self lines st = Raise e ->
  e = InvalidDate \/ e = MalformedAmount \/ e = DecimalOverflow.
Proof.
  intros Hres H. unfold step in H.
  destruct (pc st) as [|bd];
    (destruct (Nat.ltb_spec (i st) (length lines)) as [Hlt|Hge]; [|discriminate]).
  - apply bind_Raise in H as [H|(l & _ & H)]; [now apply getitem_inside in H|].
    destruct (search BOOKING_DATE_PATTERN (strip l)); [|discriminate].
    apply bind_Raise in H as [H|(b & _ & H)]; [|discriminate].
    left. exact (strptime_raises _ e H).
  - apply bind_Raise in H as [H|([tr|] & _ & H)]; [|discriminate|].
    + exact (try_parse_raises self lines (i st) bd e Hres Hlt H).
    + apply bind_Raise in H as [H|(l & _ & H)]; [now apply getitem_inside in H|].
      destruct (found _); discriminate.
Qed.

Lemma extract_year_raises self text e :
  extract_year self text = Raise e -> e = MissingStatementDate \/ e = InvalidDate.
Proof.
  unfold extract_year. destruct (search STATEMENT_DATE_PATTERN text); [|intros [= <-]; auto].
  intros H. apply bind_Raise in H as [H|(b & _ & H)]; [|discriminate].
  right. exact (strptime_raises _ e H).
Qed.

(** X1: [parse] returns a list of records or raises one of four
    errors -- no statement date, a date that is none of the calendar, an
    amount that is no number, an amount beyond the range of [Decimal].  It
    never indexes [lines] out of range, never fails for want of the year,
    and its loops come to an end on every text. *)
Theorem parse_returns_or_raises (self : t) (text : str) :
  (exists records, snd (parse self text) = Ok records)
  \/ (exists e, snd (parse self text) = Raise e /\ parse_error e).
Proof.
  destruct (snd (parse self text)) as [records|e|] eqn:E.
  - left. now exists records.
  - right. exists e. split; [reflexivity|]. unfold parse_error.
    apply parse_raises_iff in E as [E|(self' & st & Hy & _ & Hstep)].
    + apply extract_year_raises in E as [->| ->]; auto.
    + pose proof (extract_year_resolved self text self' Hy) as Hres.
      destruct (step_raises self' (split LF text) st e Hres Hstep) as [->|[->| ->]]; auto.
  - exfalso. exact (parse_terminates self text E).
Qed.

(** *** The number of iterations *)

Lemma nth_state_mu self lines : forall n st,
  nth_state self lines n = Some st -> n + mu lines st <= mu lines start.
Proof.
  induction n as [|n IH]; intros st H; cbn [nth_state] in H.
  - injection H as <-. lia.
  - destruct (nth_state self lines n) as [st0|]; [|discriminate].
    destruct (step self lines st0) as [[st1|txs]| |] eqn:Hstep; try discriminate.
    injection H as <-. pose proof (IH st0 eq_refl).
    pose proof (step_mu self lines st0 st1 Hstep). lia.
Qed.

(** X2: the two loops of [parse] make at most [2 * len(lines)]
    iterations before the one that returns: no line is under the cursor
    more than twice. *)
Theorem parse_iteration_bound (self : t) (lines : list str) (n : nat) (st : state) :
  nth_state self lines n = Some st ->
  n <= 2 * length lines.
Proof.
  intros H. pose proof (nth_state_mu self lines n st H) as Hm.
  unfold mu in Hm. cbn [i pc start goto] in Hm. destruct (pc st); lia.
Qed.

Lemma parse_iteration_bound_witness :
  exists st, nth_state parser_2021 sample_lines 36 = Some st
             /\ i st = 33 /\ length sample_lines = 33 /\ 36 <= 2 * length sample_lines.
Proof.
  destruct (nth_state parser_2021 sample_lines 36) as [st|] eqn:E;
    [|exfalso; vm_compute in E; discriminate].
  exists st. split; [reflexivity|]. split; [|split; [reflexivity|]].
  - assert (Ei : option_map i (nth_state parser_2021 sample_lines 36) = Some 33)
      by (vm_compute; reflexivity).
    rewrite E in Ei. now injection Ei.
  - exact (parse_iteration_bound parser_2021 sample_lines 36 st E).
Defined.

(** *** Which lines make records *)

Lemma parse_indexed_Ok self text self' records :
  parse_indexed self text = (self', Ok records) ->
  extract_year self text = Ok self' /\ scan self' (split LF text) = Ok records.
Proof.
  unfold parse_indexed. destruct (extract_year self text) as [s| |]; intros [= <- E]; auto.
Qed.

Lemma indices_ok_start lines : indices_ok lines start.
Proof. split; [reflexivity|cbn [i start goto]; lia]. Qed.

(** X3: the records of a successful parse come from exactly the
    transaction lines (not blank, not noise, matched by the transaction
    pattern) that stand behind the first line holding a booking-date
    marker: one record a line, none left out, in the order of the text. *)
Theorem records_follow_transaction_lines
        (self self' : t) (text : str) (records : list (nat * Transaction)) :
  parse_indexed self text = (self', Ok records) ->
  List.map fst records = emitting_lines (split LF text)
  /\ snd (parse self text) = Ok (List.map snd records)
  /\ length (List.map snd records) = length (emitting_lines (split LF text)).
Proof.
  intros H. pose proof (parse_indexed_Ok self text self' records H) as [_ Hscan].
  assert (E : List.map fst records = emitting_lines (split LF text)).
  { exact (indices_ok_run self' (split LF text) _ start records
                          (scan_inv_start _) (indices_ok_start _) Hscan). }
  split; [exact E|]. split.
  - unfold parse. rewrite H. reflexivity.
  - rewrite <- E. now rewrite !length_map.
Qed.

Lemma records_follow_transaction_lines_witness :
  exists records,
    parse_indexed (init false) sample_pdf_text = (parser_2021, Ok records)
    /\ emitting_lines sample_lines = [8; 14; 20; 24; 28]
    /\ List.map fst records = emitting_lines (split LF sample_pdf_text)
    /\ length (List.map snd records) = 5.
Proof.
  destruct (parse_indexed (init false) sample_pdf_text) as [p [records|e|]] eqn:E;
    try (exfalso; vm_compute in E; discriminate).
  assert (Ep : p = parser_2021).
  { assert (E1 : fst (parse_indexed (init false) sample_pdf_text) = p) by now rewrite E.
    rewrite <- E1. vm_compute. reflexivity. }
  subst p. exists records.
  assert (El : emitting_lines sample_lines = [8; 14; 20; 24; 28]) by (vm_compute; reflexivity).
  destruct (records_follow_transaction_lines (init false) parser_2021 sample_pdf_text
                                             records E) as (H1 & _ & H3).
  split; [reflexivity|]. split; [exact El|]. split; [exact H1|].
  rewrite H3. fold sample_lines. now rewrite El.
Defined.

(** *** The state of the parser object *)

Lemma parse_valuta_ext a b v : year a = year b -> parse_valuta a v = parse_valuta b v.
Proof. intros E. unfold parse_valuta. now rewrite E. Qed.

Lemma try_parse_ext a b lines k bd :
  year a = year b ->
  try_parse_transaction a lines k bd = try_parse_transaction b lines k bd.
Proof.
  intros E. unfold try_parse_transaction.
  destruct (getitem lines k) as [l| |]; cbn [bind]; try reflexivity.
  destruct (is_empty (strip l) || is_non_transaction_line (strip l))%bool; [reflexivity|].
  destruct (search TRANSACTION_PATTERN (strip l)); [|reflexivity].
  now rewrite (parse_valuta_ext a b _ E).
Qed.

Lemma step_ext a b lines st : year a = year b -> step a lines st = step b lines st.
Proof.
  intros E. unfold step. destruct (pc st); [reflexivity|].
  destruct (i st <? length lines); [|reflexivity].
  now rewrite (try_parse_ext a b lines (i st) _ E).
Qed.

Lemma run_ext a b lines : year a = year b ->
  forall fuel st, run fuel a lines st = run fuel b lines st.
Proof.
  intros E. induction fuel as [|fuel IH]; intros st; cbn [run]; [reflexivity|].
  rewrite (step_ext a b lines st E).
  destruct (step b lines st) as [[st'|txs]| |]; cbn [bind]; auto.
Qed.

Lemma parse_of_year self text :
  snd (parse self text)
  = (self' <- extract_year (init false) text ;;
     txs <- scan self' (split LF text) ;; Ok (List.map snd txs)).
Proof.
  unfold parse, parse_indexed, extract_year.
  destruct (search STATEMENT_DATE_PATTERN text) as [m|]; [|reflexivity].
  destruct (strptime (group m 1)) as [dt| |]; cbn [bind]; try reflexivity.
  cbn [snd]. unfold scan.
  now rewrite (run_ext {| verbose := verbose self; year := Some (dt_year dt) |}
                       {| verbose := verbose (init false); year := Some (dt_year dt) |}
                       (split LF text) eq_refl).
Qed.

(** X4: the outcome of [parse] depends on the text alone: neither the
    year a former call has left in the parser object nor the verbose flag
    has a part in it, so parsing a text again with the same object gives
    the same outcome. *)
Theorem parse_ignores_prior_state (self other : t) (text : str) :
  snd (parse self text) = snd (parse other text)
  /\ snd (parse (fst (parse self text)) text) = snd (parse self text).
Proof.
  split.
  - now rewrite (parse_of_year self text), (parse_of_year other text).
  - now rewrite (parse_of_year (fst (parse self text)) text), (parse_of_year self text).
Qed.

(** *** Blanks around the lines *)

Section Padding.
Variables lines lines' : list str.
Hypothesis same : List.map strip lines = List.map strip lines'.

Lemma padded_length : length lines = length lines'.
Proof. rewrite <- (length_map strip lines), same. apply length_map. Qed.

Lemma padded_nth k : strip (nth k lines []) = strip (nth k lines' []).
Proof.
  change (strip (nth k lines [])) with (strip (nth k lines (@nil char))).
  rewrite <- (map_nth strip lines [] k), <- (map_nth strip lines' [] k).
  now rewrite same.
Qed.

Lemma padded_getitem k :
  (getitem lines k = Raise IndexError /\ getitem lines' k = Raise IndexError)
  \/ exists l l', getitem lines k = Ok l /\ getitem lines' k = Ok l'
                  /\ strip l = strip l'.
Proof.
  unfold getitem. pose proof padded_length as Hlen.
  destruct (nth_error lines k) as [l|] eqn:E; destruct (nth_error lines' k) as [l'|] eqn:E'.
  - right. exists l, l'. repeat split.
    rewrite <- (nth_error_nth lines k [] E), <- (nth_error_nth lines' k [] E').
    apply padded_nth.
  - apply nth_error_None in E'. apply nth_error_lt in E. lia.
  - apply nth_error_None in E. apply nth_error_lt in E'. lia.
  - now left.
Qed.

Lemma padded_collect_loop : forall idxs parts,
  collect_loop lines idxs parts = collect_loop lines' idxs parts.
Proof.
  induction idxs as [|k idxs IH]; intros parts; cbn [collect_loop]; [reflexivity|].
  rewrite (padded_nth k), !IH. reflexivity.
Qed.

Lemma padded_try_parse self k bd :
  try_parse_transaction self lines k bd = try_parse_transaction self lines' k bd.
Proof.
  unfold try_parse_transaction.
  destruct (padded_getitem k) as [[-> ->]|(l & l' & -> & -> & E)]; [reflexivity|].
  cbn [bind]. rewrite E.
  destruct (is_empty (strip l') || is_non_transaction_line (strip l'))%bool;
    [reflexivity|].
  destruct (search TRANSACTION_PATTERN (strip l')) as [m|]; [|reflexivity].
  destruct (parse_valuta self (group m 2)) as [v| |]; cbn [bind]; try reflexivity.
  destruct (parse_betrag (group m 3)) as [b| |]; cbn [bind]; try reflexivity.
  unfold collect_description.
  now rewrite padded_length, padded_collect_loop.
Qed.

Lemma padded_step self st : step self lines st = step self lines' st.
Proof.
  unfold step. rewrite padded_length. destruct (pc st) as [|bd].
  - destruct (i st <? length lines'); [|reflexivity].
    destruct (padded_getitem (i st)) as [[-> ->]|(l & l' & -> & -> & E)]; [reflexivity|].
    cbn [bind]. now rewrite E.
  - destruct (i st <? length lines'); [|reflexivity].
    rewrite padded_try_parse.
    destruct (try_parse_transaction self lines' (i st) bd) as [[tr|]| |];
      cbn [bind]; try reflexivity.
    destruct (padded_getitem (i st)) as [[-> ->]|(l & l' & -> & -> & E)]; [reflexivity|].
    cbn [bind]. fold (has_marker l) (has_marker l').
    now rewrite <- (has_marker_strip l), <- (has_marker_strip l'), E.
Qed.

Lemma padded_run self : forall fuel st, run fuel self lines st = run fuel self lines' st.
Proof.
  induction fuel as [|fuel IH]; intros st; cbn [run]; [reflexivity|].
  rewrite padded_step. destruct (step self lines' st) as [[st'|txs]| |]; cbn [bind]; auto.
Qed.

Lemma padded_scan self : scan self lines = scan self lines'.
Proof. unfold scan. rewrite padded_length. apply padded_run. Qed.

End Padding.

(** X20: blanks at the beginning and at the end of the lines have no
    part in the outcome of [parse]: two texts with the same statement
    header whose lines agree once they are trimmed -- a text with the line
    ends CR LF and the same text with the line ends LF, say -- give the
    same records, with their line numbers, or the same error. *)
Theorem parse_ignores_line_padding (self : t) (text text' : str) :
  extract_year self text = extract_year self text' ->
  List.map strip (split LF text) = List.map strip (split LF text') ->
  parse_indexed self text = parse_indexed self text'
  /\ parse self text = parse self text'.
Proof.
  intros Hy Hl.
  assert (E : parse_indexed self text = parse_indexed self text').
  { unfold parse_indexed. rewrite <- Hy.
    destruct (extract_year self text) as [self'| |]; try reflexivity.
    now rewrite (padded_scan (split LF text) (split LF text') Hl self'). }
  split; [exact E|]. unfold parse. now rewrite E.
Qed.

Lemma parse_ignores_line_padding_witness :
  parse (init false) crlf_text = parse (init false) sepa_free_text.
Proof.
  refine (proj2 (parse_ignores_line_padding (init false) crlf_text sepa_free_text _ _));
    vm_compute; reflexivity.
Defined.

(** *** What a record holds *)

Lemma run_records self lines (Q : nat -> Transaction -> Prop) :
  (forall k bd tr, try_parse_transaction self lines k bd = Ok (Some tr) -> Q k tr) ->
  forall fuel st recs,
    (forall k tr, In (k, tr) (transactions st) -> Q k tr) ->
    run fuel self lines st = Ok recs ->
    forall k tr, In (k, tr) recs -> Q k tr.
Proof.
  intros HQ. induction fuel as [|fuel IH]; intros st recs Hst H; cbn [run] in H;
    [discriminate|].
  apply bind_Ok in H as ([st'|txs] & Hstep & H).
  - apply (IH st' recs); [|exact H].
    intros k tr Hin.
    destruct (step_cases self lines st st' Hstep)
      as [(_ & _ & E)|[(bd & _ & _ & _ & E)|[(bd & _ & _ & _ & E)
                                             |(bd & tr' & _ & _ & _ & E & Ht)]]];
      rewrite E in Hin; auto.
    apply in_app_or in Hin as [Hin|[Hin|[]]]; auto.
    injection Hin as <- <-. exact (HQ _ _ _ Ht).
  - injection H as <-. apply step_returns in Hstep as (-> & _ & _). exact Hst.
Qed.

Lemma scan_records self lines recs (Q : nat -> Transaction -> Prop) :
  (forall k bd tr, try_parse_transaction self lines k bd = Ok (Some tr) -> Q k tr) ->
  scan self lines = Ok recs -> forall k tr, In (k, tr) recs -> Q k tr.
Proof.
  intros HQ H. unfold scan in H.
  apply (run_records self lines Q HQ (2 * length lines + 2) start recs); [|exact H].
  intros k tr [].
Qed.

Lemma join_cons sep (p : str) ps : exists tail, join sep (p :: ps) = p ++ tail.
Proof.
  destruct ps as [|q ps]; cbn [join].
  - exists []. now rewrite app_nil_r.
  - now exists (sep ++ join sep (q :: ps)).
Qed.

Lemma try_parse_fields self lines k bd tr :
  try_parse_transaction self lines k bd = Ok (Some tr) ->
  record_text_ok tr.
Proof.
  intros H. apply try_parse_Some in H
    as (l & m & v & b & Hl & Hne & _ & Hm & _ & _ & ->).
  destruct (transaction_anatomy (strip l) m Hm)
    as (desc & s1 & v' & s2 & amount & post & El & _ & G1 & _ & _ & Hd & _).
  unfold record_text_ok. cbn [beschreibung waehrung gegenkonto_iban gegenkonto_bic
                              verwendungszweck].
  assert (Hdesc : strip (group m 1) <> []).
  { rewrite G1. destruct desc as [|x t]; [contradiction|].
    apply strip_cons. apply (strip_hd l x (t ++ s1 ++ v' ++ s2 ++ amount ++ post)).
    exact El. }
  split; [exact Hdesc|].
  split; [exact (proj1 (strip_hd_tl_solid _ Hdesc))|].
  split; [exact (proj2 (strip_hd_tl_solid _ Hdesc))|].
  do 3 (split; [reflexivity|]).
  rewrite collect_description_memo. unfold memo.
  destruct (join_cons [SPACE] (strip (group m 1))
                      (continuation_lines lines (k + 1))) as [tail ->].
  now exists tail.
Qed.

(** X5: every record of a successful parse has a description that is not
    empty and neither begins nor ends with a blank, the currency "EUR", no
    IBAN and no BIC, and a memo that begins with the description. *)
Theorem record_text_fields
        (self self' : t) (text : str) (records : list Transaction) (tr : Transaction) :
  parse self text = (self', Ok records) -> In tr records -> record_text_ok tr.
Proof.
  unfold parse. destruct (parse_indexed self text) as [p [recs|e|]] eqn:E;
    cbn [bind]; intros [= <- <-] Hin.
  apply in_map_iff in Hin as ([k tr'] & <- & Hin). cbn [snd].
  apply parse_indexed_Ok in E as [_ Hscan].
  apply (scan_records p (split LF text) recs (fun _ t => record_text_ok t)) with (k := k);
    [|exact Hscan|exact Hin].
  intros k' bd t'. apply try_parse_fields.
Qed.

Lemma sample_parse :
  exists records,
    parse (init false) sample_pdf_text = (parser_2021, Ok records)
    /\ length records = 5.
Proof.
  destruct (parse (init false) sample_pdf_text) as [p [records|e|]] eqn:E;
    try (exfalso; vm_compute in E; discriminate).
  assert (Ep : fst (parse (init false) sample_pdf_text) = p) by now rewrite E.
  assert (El : option_map (@length Transaction)
                          (match snd (parse (init false) sample_pdf_text) with
                           | Ok r => Some r | _ => None end) = Some 5)
    by (vm_compute; reflexivity).
  rewrite E in El. cbn [snd option_map] in El. injection El as El.
  exists records. split; [|exact El].
  assert (Hp : p = parser_2021) by (rewrite <- Ep; vm_compute; reflexivity).
  now rewrite Hp.
Qed.

Lemma record_text_fields_witness :
  exists records,
    parse (init false) sample_pdf_text = (parser_2021, Ok records)
    /\ length records = 5
    /\ forall tr, In tr records -> record_text_ok tr.
Proof.
  destruct sample_parse as (records & E & El).
  exists records. split; [exact E|]. split; [exact El|].
  intros tr Hin.
  exact (record_text_fields (init false) parser_2021 sample_pdf_text records tr E Hin).
Defined.




(** *** Dates, parsed and printed *)

Lemma strip_two d1 d2 :
  is_space d1 = false -> is_space d2 = false -> strip [d1; d2] = [d1; d2].
Proof.
  intros H1 H2. unfold strip, lstrip, rstrip. cbn [dropWhile]. rewrite H1.
  cbn [rev app dropWhile]. rewrite H2. reflexivity.
Qed.

Lemma str_of_small v : (v < 10)%N -> str_of_N v = [(48 + v)%N].
Proof.
  intros Hv. unfold str_of_N. cbn [digits_fuel].
  destruct (N.ltb_spec v 10); [|lia]. now rewrite N.mod_small.
Qed.

Lemma pad2_two d1 d2 :
  ascii_digit d1 = true -> ascii_digit d2 = true ->
  pad2 (Z.of_N (int_of_digits [d1; d2])) = [d1; d2].
Proof.
  intros H1 H2. unfold pad2. rewrite N2Z.id.
  pose proof (RoundTrip.ascii_range d1 H1) as R1.
  pose proof (RoundTrip.ascii_range d2 H2) as R2.
  destruct (N.eq_dec d1 48) as [Hz|Hnz].
  - assert (E : int_of_digits [d1; d2] = (d2 - 48)%N).
    { unfold int_of_digits. cbn [fold_left].
      rewrite (RoundTrip.ascii_digit_value d1 H1), (RoundTrip.ascii_digit_value d2 H2).
      lia. }
    rewrite E, str_of_small by lia.
    replace (48 + (d2 - 48))%N with d2 by lia. now rewrite Hz.
  - rewrite (RoundTrip.str_of_int d1 [d2] H1 Hnz); [reflexivity|].
    cbn [forallb]. now rewrite H2.
Qed.

(** X7: a date written DD.MM.YYYY with the digits of ASCII and a year of
    four digits (1000 or later) is printed by the writer as it was read by
    the parser: [strftime] undoes [strptime]. *)
Theorem date_printed_as_written (s : str) (dt : datetime) :
  ascii_date s -> parse_date s = Ok dt -> (1000 <= dt_year dt)%Z ->
  strftime (date_of dt) = s.
Proof.
  intros (d1 & d2 & m1 & m2 & y1 & y2 & y3 & y4 & -> & Hd) H Hy.
  cbn [forallb] in Hd.
  apply andb_prop in Hd as [H0 Hd]. apply andb_prop in Hd as [H1 Hd].
  apply andb_prop in Hd as [H2 Hd]. apply andb_prop in Hd as [H3 Hd].
  apply andb_prop in Hd as [H4 Hd]. apply andb_prop in Hd as [H5 Hd].
  apply andb_prop in Hd as [H6 Hd]. apply andb_prop in Hd as [H7 _].
  unfold parse_date in H. apply strptime_anatomy in H
    as (wd & wm & z1 & z2 & z3 & z4 & E & Ld & Lm & HY & Ey & Em & Ed & _).
  change [d1; d2; DOT; m1; m2; DOT; y1; y2; y3; y4]
    with ([d1; d2] ++ DOT :: ([m1; m2] ++ DOT :: [y1; y2; y3; y4])) in E.
  change (wd ++ [DOT] ++ wm ++ [DOT] ++ [z1; z2; z3; z4])
    with (wd ++ DOT :: (wm ++ DOT :: [z1; z2; z3; z4])) in E.
  assert (Hnd : forall c, ascii_digit c = true -> N.eqb c DOT = false).
  { intros c Hc. apply AmountFacts.digit_neq; [|reflexivity].
    now apply RoundTrip.ascii_is_digit. }
  apply split_first in E as [<- E];
    [|repeat constructor; auto|now apply day_no_dot].
  apply split_first in E as [<- E];
    [|repeat constructor; auto|now apply month_no_dot].
  injection E as <- <- <- <-.
  rewrite strip_two in Ed
    by (apply digit_not_space; now apply RoundTrip.ascii_is_digit).
  unfold strftime, date_of. cbn [Datetime.year Datetime.month Datetime.day].
  rewrite Ed, Em, (pad2_two d1 d2), (pad2_two m1 m2) by assumption.
  rewrite Ey in Hy |- *. rewrite N2Z.id.
  assert (Hnz : y1 <> 48%N).
  { intros Hz. revert Hy. unfold int_of_digits. cbn [fold_left].
    rewrite (RoundTrip.ascii_digit_value y1),
            (RoundTrip.ascii_digit_value y2), (RoundTrip.ascii_digit_value y3),
            (RoundTrip.ascii_digit_value y4) by assumption.
    pose proof (RoundTrip.ascii_range y2 ltac:(assumption)).
    pose proof (RoundTrip.ascii_range y3 ltac:(assumption)).
    pose proof (RoundTrip.ascii_range y4 ltac:(assumption)). lia. }
  rewrite (RoundTrip.str_of_int y1 [y2; y3; y4]); [reflexivity|assumption|assumption|].
  cbn [forallb]. now rewrite H5, H6, H7.
Qed.

Lemma date_printed_as_written_witness :
  ascii_date (lit "29.02.2024")
  /\ parse_date (lit "29.02.2024") = Ok {| dt_year := 2024; dt_month := 2; dt_day := 29 |}
  /\ strftime (date_of {| dt_year := 2024; dt_month := 2; dt_day := 29 |})
     = lit "29.02.2024".
Proof.
  assert (Ha : ascii_date (lit "29.02.2024")).
  { unfold ascii_date. repeat eexists. }
  assert (Hp : parse_date (lit "29.02.2024")
               = Ok {| dt_year := 2024; dt_month := 2; dt_day := 29 |})
    by (vm_compute; reflexivity).
  split; [exact Ha|]. split; [exact Hp|].
  apply (date_printed_as_written (lit "29.02.2024") _ Ha Hp). cbn [dt_year]. lia.
Defined.

End ParserProps.


(** * Properties of the amount parser beyond the specification *)

Module AmountProps.
Import Spec Props Examples TransactionParser AmountFacts.

Lemma count_cons c x s :
  count c (x :: s) = (if N.eqb c x then 1 else 0) + count c s.
Proof. unfold count. cbn [filter]. now destruct (N.eqb c x). Qed.

Lemma count_app c a b : count c (a ++ b) = count c a + count c b.
Proof. unfold count. now rewrite filter_app, length_app. Qed.

Lemma amount_char_not_minus y : amount_char y = true -> N.eqb y MINUS = false.
Proof.
  unfold amount_char. intros H.
  destruct (N.eqb_spec y MINUS) as [->|]; [discriminate H|reflexivity].
Qed.

Lemma body_end body debit :
  forallb amount_char body = true ->
  endswith_char MINUS (amount_word body debit) = debit
  /\ rstrip_char MINUS (amount_word body debit) = body.
Proof.
  intros Hb. unfold amount_word, endswith_char, rstrip_char.
  assert (Hlast : rev body = [] \/ exists y r, rev body = y :: r /\ N.eqb y MINUS = false).
  { destruct (rev body) as [|y r] eqn:E; [now left|right].
    exists y, r. split; [reflexivity|]. apply amount_char_not_minus.
    rewrite forallb_forall in Hb. apply Hb, in_rev. rewrite E. now left. }
  assert (Hdrop : dropWhile (N.eqb MINUS) (rev body) = rev body).
  { destruct Hlast as [->|(y & r & -> & Hy)]; [reflexivity|].
    apply dropWhile_stop. now rewrite N.eqb_sym. }
  destruct debit.
  - rewrite rev_app_distr. cbn [rev app]. split; [reflexivity|].
    rewrite dropWhile_skip by apply N.eqb_refl.
    rewrite Hdrop. apply rev_involutive.
  - rewrite app_nil_r, Hdrop. split; [|apply rev_involutive].
    destruct Hlast as [->|(y & r & -> & Hy)]; [reflexivity|exact Hy].
Qed.

(** The string [_parse_betrag] hands to [Decimal]. *)
Lemma rewritten body :
  forallb amount_char body = true ->
  forallb digit_or_dot (replace COMMA [DOT] (replace DOT [] body)) = true
  /\ count DOT (replace COMMA [DOT] (replace DOT [] body)) = commas body
  /\ existsb is_digit (replace COMMA [DOT] (replace DOT [] body))
     = existsb is_digit body.
Proof.
  unfold commas.
  induction body as [|c body IH]; intros H; [repeat split|].
  cbn [forallb] in H. apply andb_prop in H as [Hc Hb].
  destruct (IH Hb) as (I1 & I2 & I3).
  change (c :: body) with ([c] ++ body). rewrite !replace_app.
  unfold amount_char in Hc.
  destruct (N.eqb_spec c DOT) as [->|Hnd].
  - change (replace DOT [] [DOT]) with (@nil char). cbn [app replace flat_map].
    repeat split; auto.
  - destruct (N.eqb_spec c COMMA) as [->|Hnc].
    + change (replace DOT [] [COMMA]) with [COMMA].
      change (replace COMMA [DOT] [COMMA]) with [DOT].
      cbn [app forallb existsb]. rewrite I1, I3, !count_cons, I2.
      repeat split; auto.
    + rewrite !orb_false_r in Hc.
      assert (E : replace COMMA [DOT] (replace DOT [] [c]) = [c]).
      { unfold replace. cbn [flat_map app].
        destruct (N.eqb_spec c DOT); [contradiction|]. cbn [flat_map app].
        destruct (N.eqb_spec c COMMA); [contradiction|]. reflexivity. }
      rewrite E. cbn [app forallb existsb]. rewrite I1, I3.
      unfold digit_or_dot at 1. rewrite Hc, !count_cons, I2.
      destruct (N.eqb_spec DOT c); [congruence|].
      destruct (N.eqb_spec COMMA c); [congruence|]. repeat split; auto.
Qed.

Lemma digit_or_dot_cases c :
  digit_or_dot c = true -> is_digit c = true \/ (c = DOT /\ is_digit c = false).
Proof.
  unfold digit_or_dot. destruct (is_digit c) eqn:Hd; [auto|].
  cbn [orb]. intros H. apply N.eqb_eq in H. auto.
Qed.

Lemma count_digits ds : forallb is_digit ds = true -> count DOT ds = 0.
Proof.
  induction ds as [|c ds IH]; cbn [forallb]; intros H; [reflexivity|].
  apply andb_prop in H as [Hc Hds].
  rewrite count_cons. destruct (N.eqb_spec DOT c) as [<-|]; [discriminate|]. auto.
Qed.

Lemma existsb_digits ds : forallb is_digit ds = true -> existsb is_digit ds = negb (is_empty ds).
Proof.
  destruct ds as [|c ds]; cbn [forallb existsb is_empty]; [reflexivity|].
  intros H. apply andb_prop in H as [-> _]. reflexivity.
Qed.

Lemma not_all_digits t :
  forallb digit_or_dot t = true -> forallb is_digit t = false ->
  1 <= count DOT t.
Proof.
  induction t as [|c t IH]; cbn [forallb]; intros H Hn; [discriminate|].
  apply andb_prop in H as [Hc Ht].
  destruct (digit_or_dot_cases c Hc) as [Hd|[-> _]].
  - rewrite Hd in Hn. cbn [andb] in Hn. specialize (IH Ht Hn).
    rewrite count_cons. lia.
  - rewrite count_cons, N.eqb_refl. lia.
Qed.

(** [Decimal(s)] on digits and points: a syntax error exactly for more
    than one point or no digit. *)
Lemma of_str_classify t :
  forallb digit_or_dot t = true ->
  (Dec.of_str t = Raise MalformedAmount
   <-> 2 <= count DOT t \/ existsb is_digit t = false).
Proof.
  intros Ht. unfold Dec.of_str.
  pose proof (RoundTrip.takeWhile_dropWhile is_digit t) as Esplit.
  pose proof (RoundTrip.takeWhile_forallb is_digit t) as Hip.
  remember (Dec.takeWhile is_digit t) as ip eqn:Eip. clear Eip.
  destruct (dropWhile is_digit t) as [|c frac] eqn:Erest.
  - rewrite app_nil_r in Esplit. rewrite <- Esplit.
    rewrite (count_digits ip Hip), (existsb_digits ip Hip).
    destruct ip; cbn [is_empty negb]; split; intros H; try reflexivity.
    + now right.
    + discriminate.
    + destruct H as [H|H]; [lia|discriminate].
  - assert (Hc : c = DOT).
    { pose proof (ParserMore.dropWhile_hd is_digit t c frac Erest) as Hnd.
      rewrite <- Esplit, forallb_app in Ht. apply andb_prop in Ht as [_ Ht].
      cbn [forallb] in Ht. apply andb_prop in Ht as [Hcd _].
      destruct (digit_or_dot_cases c Hcd) as [Hd|[-> _]]; [congruence|reflexivity]. }
    subst c. rewrite N.eqb_refl. cbn [andb].
    assert (Hfrac : forallb digit_or_dot frac = true).
    { rewrite <- Esplit, forallb_app in Ht. apply andb_prop in Ht as [_ Ht].
      cbn [forallb] in Ht. now apply andb_prop in Ht as [_ Ht]. }
    rewrite <- Esplit. rewrite count_app, (count_digits ip Hip).
    rewrite count_cons, N.eqb_refl. rewrite existsb_app.
    cbn [existsb]. rewrite (existsb_digits ip Hip).
    change (is_digit DOT) with false. cbn [orb].
    destruct (forallb is_digit frac) eqn:Hf.
    + rewrite (count_digits frac Hf), (existsb_digits frac Hf). cbn [andb].
      destruct ip, frac; cbn [is_empty negb andb orb]; split; intros H;
        try reflexivity; try discriminate; try (now right);
        destruct H as [H|H]; try lia; discriminate.
    + cbn [andb]. split; [intros _|reflexivity].
      left. pose proof (not_all_digits frac Hfrac Hf). lia.
Qed.

Lemma neg_not_malformed x : Dec.neg x <> Raise MalformedAmount.
Proof.
  unfold Dec.neg. destruct (N.eqb (d_coeff x) 0); intros H;
    apply ParserFacts.fix_raises in H; discriminate.
Qed.

(** X8: on a word of the amount grammar -- digits, periods and commas,
    with or without a trailing minus -- [_parse_betrag] raises the error
    of a malformed amount exactly when the body has more than one comma or
    no digit at all. *)
Theorem parse_betrag_malformed_iff (body : str) (debit : bool) :
  forallb amount_char body = true ->
  (parse_betrag (amount_word body debit) = Raise MalformedAmount
   <-> malformed body = true).
Proof.
  intros Hb. unfold parse_betrag.
  destruct (body_end body debit Hb) as [-> ->].
  destruct (rewritten body Hb) as (Ht & Hc & He).
  pose proof (of_str_classify _ Ht) as Hcl. rewrite Hc, He in Hcl.
  unfold malformed.
  assert (Hm : (2 <= commas body \/ existsb is_digit body = false)
               <-> ((2 <=? commas body) || negb (existsb is_digit body))%bool = true).
  { rewrite orb_true_iff, Nat.leb_le, negb_true_iff. reflexivity. }
  rewrite <- Hm, <- Hcl.
  destruct (Dec.of_str (replace COMMA [DOT] (replace DOT [] body))) as [x|e|];
    cbn [bind].
  - split; [|discriminate]. destruct debit; [|discriminate].
    intros H. now apply neg_not_malformed in H.
  - reflexivity.
  - split; discriminate.
Qed.

Lemma parse_betrag_malformed_iff_witness :
  forallb amount_char (lit "1.2,3,4") = true
  /\ malformed (lit "1.2,3,4") = true
  /\ parse_betrag (lit "1.2,3,4") = Raise MalformedAmount.
Proof.
  split; [reflexivity|]. split; [reflexivity|].
  exact (proj2 (parse_betrag_malformed_iff (lit "1.2,3,4") false eq_refl) eq_refl).
Defined.

Lemma of_str_digits ds :
  forallb is_digit ds = true -> ds <> [] ->
  Dec.of_str ds = Ok {| d_sign := false; d_coeff := int_of_digits ds; d_exp := 0 |}.
Proof.
  intros Hds Hne. unfold Dec.of_str.
  pose proof (RoundTrip.takeWhile_dropWhile is_digit ds) as Esplit.
  assert (Hd : dropWhile is_digit ds = []).
  { clear Esplit Hne. induction ds as [|c ds IH]; [reflexivity|].
    cbn [forallb] in Hds. apply andb_prop in Hds as [Hc Hds].
    cbn [dropWhile]. rewrite Hc. auto. }
  rewrite Hd in *. rewrite app_nil_r in Esplit. rewrite Esplit.
  destruct ds; [contradiction|reflexivity].
Qed.

(** X9: an amount written without a comma is read as a whole number, its
    periods dropped as separators of thousands: "1.234" is 1234 and "1.5"
    is 15. *)
Theorem parse_betrag_without_comma (ip : str) (debit : bool) :
  forallb digit_or_dot ip = true -> existsb is_digit ip = true ->
  parse_betrag (amount_word ip debit)
  = let whole := {| d_sign := false; d_coeff := int_of_digits (digits_of ip);
                    d_exp := 0 |} in
    if debit then Dec.neg whole else Ok whole.
Proof.
  intros Hip Hex.
  assert (Hb : forallb amount_char ip = true).
  { rewrite forallb_forall in *. intros c Hc. specialize (Hip c Hc).
    unfold digit_or_dot in Hip. unfold amount_char. now rewrite Hip. }
  unfold parse_betrag. destruct (body_end ip debit Hb) as [-> ->].
  rewrite (remove_dots ip Hip).
  rewrite (replace_digits COMMA [DOT] (digits_of ip) not_digit_COMMA (digits_of_digits ip)).
  rewrite of_str_digits; [reflexivity|apply digits_of_digits|].
  apply existsb_exists in Hex as (c & Hin & Hc). intros E.
  assert (Hd : In c (digits_of ip)) by (apply filter_In; auto).
  rewrite E in Hd. contradiction.
Qed.

Lemma parse_betrag_without_comma_witness :
  parse_betrag (lit "1.234")
  = Ok {| d_sign := false; d_coeff := 1234; d_exp := 0 |}.
Proof.
  exact (parse_betrag_without_comma (lit "1.234") false eq_refl eq_refl).
Defined.

(** *** The kind of a transaction *)

Lemma ltb0_of_value x c e :
  value_of x = ((- Z.of_N c)%Z, e) -> Dec.ltb0 x = negb (N.eqb c 0).
Proof.
  unfold value_of, unscaled, Dec.ltb0. intros H. injection H as H _.
  destruct (d_sign x); cbn [andb].
  - f_equal. destruct (N.eqb_spec (d_coeff x) 0), (N.eqb_spec c 0); auto; lia.
  - destruct (N.eqb_spec c 0); [reflexivity|lia].
Qed.

(** X10: for a numeral of at most 28 digits the writer's kind of
    transaction follows the trailing minus, but for the amount zero: it is
    "Lastschrift" exactly for a debit of an amount other than zero, and
    "Gutschrift" otherwise, a debit of zero included. *)
Theorem umsatzart_of_numeral (ip fp : str) (debit : bool) :
  well_formed ip fp = true ->
  (cents ip fp < 10 ^ 28)%N ->
  (Z.of_nat (length fp) <= 1000026)%Z ->
  exists x, parse_betrag (numeral ip fp debit) = Ok x
            /\ forall tr, betrag tr = x ->
                 CSVWriter.get_umsatzart tr
                 = if (debit && negb (is_zero ip fp))%bool
                   then lit "Lastschrift" else lit "Gutschrift".
Proof.
  intros Hwf Hc Hf. unfold is_zero. destruct debit.
  - destruct (parse_betrag_debit_exact ip fp Hwf Hc Hf) as (x & Hx & Hv).
    exists x. split; [exact Hx|]. intros tr Ht.
    unfold CSVWriter.get_umsatzart, is_debit. rewrite Ht.
    unfold exact_value in Hv. fold (cents ip fp) in Hv.
    now rewrite (ltb0_of_value x _ _ Hv).
  - rewrite (parse_betrag_numeral ip fp false Hwf).
    exists (magnitude ip fp). split; [reflexivity|]. intros tr Ht.
    unfold CSVWriter.get_umsatzart, is_debit. rewrite Ht. reflexivity.
Qed.

Lemma umsatzart_of_numeral_witness :
  exists x, parse_betrag (lit "0,00-") = Ok x
            /\ forall tr, betrag tr = x -> CSVWriter.get_umsatzart tr = lit "Gutschrift".
Proof.
  assert (Hc : (cents (lit "0") (lit "00") < 10 ^ 28)%N) by (vm_compute; reflexivity).
  assert (Hf : (Z.of_nat (length (lit "00")) <= 1000026)%Z) by (vm_compute; discriminate).
  exact (umsatzart_of_numeral (lit "0") (lit "00") true eq_refl Hc Hf).
Defined.

End AmountProps.


(** * Properties of the amount formatter beyond the specification *)

Module FormatProps.
Import Spec Props Examples TransactionParser AmountFacts RoundTrip.

Lemma groups_ok_app r1 r2 :
  groups_ok r1 = true -> groups_ok r2 = true -> groups_ok (r1 ++ r2) = true.
Proof.
  intros H1 H2. pattern r1. revert r1 H1. apply groups_ok_ind.
  - exact H2.
  - intros a b c rest Ha Hb Hc Hg IH. cbn [app groups_ok].
    now rewrite N.eqb_refl, Ha, Hb, Hc, IH.
Qed.

Lemma digits_of_app a b : digits_of (a ++ b) = digits_of a ++ digits_of b.
Proof. unfold digits_of. apply filter_app. Qed.

(** A numeral cut into a head of one to three digits and groups of
    three. *)
Lemma digits_split : forall n (ds : str),
  length ds <= n -> forallb ascii_digit ds = true -> ds <> [] ->
  exists hd rest,
    ds = hd ++ digits_of rest /\ 1 <= length hd <= 3
    /\ forallb ascii_digit hd = true /\ groups_ok rest = true
    /\ hd_default hd = hd_default ds.
Proof.
  induction n as [|n IH]; intros ds Hlen Hd Hne.
  - destruct ds; [contradiction|simpl in Hlen; lia].
  - destruct (Nat.leb_spec (length ds) 3) as [Hs|Hl].
    + exists ds, []. rewrite app_nil_r. repeat split; auto.
      destruct ds; [contradiction|simpl; lia].
    + pose proof (firstn_skipn (length ds - 3) ds) as E.
      set (front := firstn (length ds - 3) ds) in *.
      set (back := skipn (length ds - 3) ds) in *.
      assert (Hfl : length front = length ds - 3).
      { unfold front. rewrite length_firstn. lia. }
      assert (Hbl : length back = 3).
      { unfold back. rewrite length_skipn. lia. }
      assert (Hsplit : forallb ascii_digit front = true /\ forallb ascii_digit back = true).
      { rewrite <- E, forallb_app in Hd. now apply andb_prop in Hd. }
      destruct Hsplit as [Hfd Hbd].
      destruct back as [|a [|b [|c [|? ?]]]]; try discriminate Hbl.
      cbn [forallb] in Hbd. apply andb_prop in Hbd as [Ha Hbd].
      apply andb_prop in Hbd as [Hb Hbd]. apply andb_prop in Hbd as [Hc _].
      destruct (IH front) as (hd & rest & Ef & Hhl & Hhd & Hg & Hlead);
        [lia|exact Hfd|destruct front; [simpl in Hfl; lia|discriminate]|].
      exists hd, (rest ++ [DOT; a; b; c]).
      split.
      { rewrite digits_of_app, (digits_of_group a b c [] Ha Hb Hc).
        change (digits_of []) with (@nil char).
        rewrite app_assoc, <- Ef. symmetry. exact E. }
      split; [exact Hhl|]. split; [exact Hhd|]. split.
      { apply groups_ok_app; [exact Hg|]. cbn [groups_ok].
        now rewrite N.eqb_refl, Ha, Hb, Hc. }
      rewrite Hlead, <- E. destruct front; [simpl in Hfl; lia|reflexivity].
Qed.

Lemma takeWhile_head hd rest :
  forallb ascii_digit hd = true -> groups_ok rest = true ->
  Dec.takeWhile ascii_digit (hd ++ rest) = hd
  /\ dropWhile ascii_digit (hd ++ rest) = rest.
Proof.
  intros Hhd Hg. induction hd as [|c hd IH]; cbn [app].
  - destruct rest as [|p [|a [|b [|c rest]]]]; try discriminate Hg; [auto|].
    cbn [groups_ok] in Hg. repeat (apply andb_prop in Hg as [Hg ?]).
    apply N.eqb_eq in Hg. subst p. auto.
  - cbn [forallb] in Hhd. apply andb_prop in Hhd as [Hc Hhd].
    cbn [Dec.takeWhile dropWhile]. rewrite Hc. destruct (IH Hhd) as [-> ->]. auto.
Qed.

Lemma canonical_int_intro hd rest :
  forallb ascii_digit hd = true -> 1 <= length hd <= 3 -> groups_ok rest = true ->
  (hd ++ rest = [48%N] \/ hd_default hd <> 48%N) ->
  canonical_int (hd ++ rest) = true.
Proof.
  intros Hhd Hlen Hg Hlead. unfold canonical_int.
  destruct (takeWhile_head hd rest Hhd Hg) as [-> ->].
  rewrite Hg. destruct Hlen as [H1 H3].
  apply Nat.leb_le in H1, H3. rewrite H1, H3. cbn [andb].
  destruct Hlead as [E|Hnz].
  - rewrite E. apply orb_true_r.
  - destruct hd as [|x t]; [discriminate H1|]. unfold hd_default in *. cbn [hd app] in *.
    apply N.eqb_neq in Hnz. now rewrite Hnz.
Qed.

(** What [f"{x:,.2f}"] prints for a number of hundredths, the separators
    exchanged: a canonical numeral of that number. *)
Lemma printed_numeral (n : N) f1 f2 :
  ascii_digit f1 = true -> ascii_digit f2 = true ->
  exists ip,
    CSVWriter.swap_separators (Float.group3 (str_of_N n) ++ [DOT] ++ [f1; f2])
    = ip ++ COMMA :: [f1; f2]
    /\ canonical ip [f1; f2] = true
    /\ int_of_digits (digits_of ip) = n.
Proof.
  intros H1 H2.
  destruct (NumFacts.str_of_N_spec n) as (Hv & Hd & Hne).
  destruct (digits_split (length (str_of_N n)) (str_of_N n) (le_n _) Hd Hne)
    as (hd & rest & E & Hlen & Hhd & Hg & Hlead).
  exists (hd ++ rest). split; [|split].
  - rewrite E, (group3_groups hd rest Hlen Hg).
    rewrite !swap_app, (swap_ascii hd Hhd), (swap_groups rest Hg).
    rewrite (swap_ascii [f1; f2]) by (cbn [forallb]; now rewrite H1, H2).
    change (CSVWriter.swap_separators [DOT]) with [COMMA].
    rewrite <- !app_assoc. reflexivity.
  - unfold canonical. cbn [length Nat.eqb forallb]. rewrite H1, H2. cbn [andb].
    rewrite !andb_true_r. apply canonical_int_intro; auto.
    destruct (NumFacts.str_of_N_lead n) as [E0|(x & t & Ex & Hx)].
    + left. rewrite E0 in E.
      destruct hd as [|h [|? ?]]; cbn [app] in E.
      * simpl in Hlen. lia.
      * injection E as <- E. destruct rest as [|p [|a [|b [|c rest]]]];
          try discriminate Hg; [reflexivity|].
        exfalso. cbn [groups_ok] in Hg. repeat (apply andb_prop in Hg as [Hg ?]).
        apply N.eqb_eq in Hg. subst p.
        rewrite (digits_of_group a b c rest) in E by assumption. discriminate.
      * discriminate.
    + right. rewrite Hlead, Ex. exact Hx.
  - rewrite (digits_of_canonical hd rest Hhd), <- E. exact Hv.
Qed.

Lemma two_digits_ascii r :
  (0 <= r < 100)%Z ->
  exists f1 f2, Float.two_digits r = [f1; f2]
                /\ ascii_digit f1 = true /\ ascii_digit f2 = true
                /\ Z.of_N (10 * (f1 - 48) + (f2 - 48)) = r.
Proof.
  intros Hr. unfold Float.two_digits.
  pose proof (Z.div_mod r 10 ltac:(lia)) as Hdm.
  pose proof (Z.mod_pos_bound r 10 ltac:(lia)) as Hm.
  assert (Hq : (0 <= r / 10 < 10)%Z).
  { split; [apply Z.div_pos; lia|apply Z.div_lt_upper_bound; lia]. }
  revert Hdm Hm Hq. generalize (r / 10)%Z (r mod 10)%Z. intros q m Hdm Hm Hq.
  exists (48 + Z.to_N q)%N, (48 + Z.to_N m)%N.
  split; [reflexivity|].
  unfold ascii_digit, in_range.
  repeat split; try (apply andb_true_intro; split; apply N.leb_le; lia). lia.
Qed.

Lemma of_ratio_finite neg num den s m e :
  (0 <= num)%Z -> (0 < den)%Z ->
  Float.of_ratio neg num den = Float.Ffinite s m e -> (0 < m)%Z /\ s = neg.
Proof.
  intros Hn Hd. unfold Float.of_ratio.
  destruct (Z.eqb_spec num 0); [discriminate|].
  set (e0 := Z.max (Float.ilog2_ratio num den - 52) (-1074)).
  set (m0 := if (0 <=? e0)%Z then Float.rne num (den * 2 ^ e0)
             else Float.rne (num * 2 ^ (- e0)) den).
  assert (Hm0 : (0 <= m0)%Z).
  { unfold m0. destruct (Z.leb_spec 0 e0).
    - apply FloatFacts.rne_nonneg; [lia|]. apply Z.mul_pos_pos; [lia|].
      apply Z.pow_pos_nonneg; lia.
    - apply FloatFacts.rne_nonneg; [|lia]. apply Z.mul_nonneg_nonneg; [lia|].
      apply Z.pow_nonneg. lia. }
  destruct (Z.eqb_spec m0 (2 ^ 53)) as [E|E].
  - change (2 ^ 52 =? 0)%Z with false. cbv iota.
    destruct (971 <? e0 + 1)%Z; [discriminate|].
    intros [= <- <- <-]. split; [reflexivity|reflexivity].
  - destruct (Z.eqb_spec m0 0); [discriminate|].
    destruct (971 <? e0)%Z; [discriminate|].
    intros [= <- <- <-]. split; [lia|reflexivity].
Qed.

Lemma of_Decimal_finite x s m e :
  Float.of_Decimal x = Float.Ffinite s m e -> (0 < m)%Z /\ s = d_sign x.
Proof.
  unfold Float.of_Decimal. destruct (Z.leb_spec 0 (d_exp x)) as [He|He]; intros H.
  - apply of_ratio_finite in H; [exact H| |lia].
    apply Z.mul_nonneg_nonneg; [lia|]. apply Z.pow_nonneg. lia.
  - apply of_ratio_finite in H; [exact H|lia|]. apply Z.pow_pos_nonneg; lia.
Qed.

Lemma hundredths_nonneg s m e : (0 < m)%Z -> (0 <= Float.hundredths (Float.Ffinite s m e))%Z.
Proof.
  intros Hm. cbn [Float.hundredths]. destruct (Z.leb_spec 0 e).
  - apply Z.mul_nonneg_nonneg; [lia|]. apply Z.pow_nonneg. lia.
  - apply FloatFacts.rne_nonneg; [lia|]. apply Z.pow_pos_nonneg; lia.
Qed.

(** The body the presentation prints for [r] hundredths. *)
Lemma printed_hundredths r :
  (0 <= r)%Z ->
  exists ip fp,
    CSVWriter.swap_separators
      (Float.group3 (str_of_N (Z.to_N (r / 100))) ++ [DOT] ++ Float.two_digits (r mod 100))
    = ip ++ COMMA :: fp
    /\ canonical ip fp = true /\ Z.of_N (cents ip fp) = r.
Proof.
  intros Hr.
  destruct (two_digits_ascii (r mod 100) (Z.mod_pos_bound r 100 ltac:(lia)))
    as (f1 & f2 & -> & H1 & H2 & Ew).
  destruct (printed_numeral (Z.to_N (r / 100)) f1 f2 H1 H2) as (ip & Ep & Hc & Ev).
  exists ip, [f1; f2]. split; [exact Ep|]. split; [exact Hc|].
  rewrite (cents_split ip f1 f2 H1 H2), Ev.
  pose proof (Z.div_mod r 100 ltac:(lia)) as Hdm.
  assert (Hq : (0 <= r / 100)%Z) by (apply Z.div_pos; lia).
  revert Ew Hdm Hq. generalize (r / 100)%Z (r mod 100)%Z.
  generalize (10 * (f1 - 48) + (f2 - 48))%N. intros k q w Ew Hdm Hq. lia.
Qed.

(** X14: whatever amount is printed (short of an overflow of [float]),
    the printed string is a sign, then a canonical numeral: digits in
    groups of three set off by periods, a comma and two digits.  The sign
    is U+2212 for a negative number and nothing otherwise, but for a
    negative zero, which keeps the ASCII minus of the presentation.  The
    digits are those of the amount in hundredths, rounded as [float]
    and the presentation round. *)
Theorem format_betrag_shape (x : Decimal) :
  finite (Float.of_Decimal x) = true ->
  exists ip fp,
    CSVWriter.format_betrag x = printed_sign (Float.of_Decimal x) ++ ip ++ COMMA :: fp
    /\ canonical ip fp = true
    /\ Z.of_N (cents ip fp) = Float.hundredths (Float.of_Decimal x).
Proof.
  intros Hfin. unfold CSVWriter.format_betrag, printed_sign.
  destruct (Float.of_Decimal x) as [neg|s m e|neg] eqn:EF; [| |discriminate].
  - destruct (printed_hundredths 0 ltac:(lia)) as (ip & fp & Ep & Hc & Ev).
    exists ip, fp. cbn [Float.ltb0 Float.sign_of]. unfold Float.format_comma_2f.
    cbn [Float.sign_of Float.hundredths].
    rewrite swap_app, Ep. split; [|auto]. now destruct neg.
  - destruct (of_Decimal_finite x s m e EF) as [Hm _].
    destruct (printed_hundredths _ (hundredths_nonneg s m e Hm)) as (ip & fp & Ep & Hc & Ev).
    exists ip, fp. split; [|auto].
    cbn [Float.ltb0 Float.sign_of Float.fabs]. unfold Float.format_comma_2f.
    cbn [Float.sign_of app].
    change (Float.hundredths (Float.Ffinite false m e))
      with (Float.hundredths (Float.Ffinite s m e)).
    destruct s.
    + cbn [app] in Ep.
      change (UMINUS :: ?t) with ([UMINUS] ++ t) at 1. rewrite swap_app, Ep. reflexivity.
    + exact Ep.
Qed.

Lemma format_betrag_shape_witness :
  exists ip fp,
    CSVWriter.format_betrag {| d_sign := true; d_coeff := 123456; d_exp := -2 |}
    = [UMINUS] ++ ip ++ COMMA :: fp
    /\ canonical ip fp = true
    /\ Z.of_N (cents ip fp) = 123456%Z.
Proof.
  exact (format_betrag_shape {| d_sign := true; d_coeff := 123456; d_exp := -2 |} eq_refl).
Defined.

(** X13: an amount of less than 2^46 in hundredths that is not negative
    is read back from its printed form: [_parse_betrag] undoes
    [_format_betrag]. *)
Theorem format_then_parse (c : N) :
  (c < 100 * 2 ^ 46)%N ->
  parse_betrag (CSVWriter.format_betrag (credit_of_cents c)) = Ok (credit_of_cents c).
Proof.
  intros Hc. change (100 * 2 ^ 46)%N with 7036874417766400%N in Hc.
  destruct (printed_hundredths (Z.of_N c) ltac:(lia)) as (ip & fp & Ep & Hcan & Ev).
  apply N2Z.inj in Ev.
  assert (Ef : CSVWriter.format_betrag (credit_of_cents c) = ip ++ COMMA :: fp).
  { unfold CSVWriter.format_betrag, Float.of_Decimal, credit_of_cents.
    cbn [d_sign d_coeff d_exp].
    change (0 <=? -2)%Z with false. cbv iota. change (10 ^ (- -2))%Z with 100%Z.
    destruct (N.eq_dec c 0) as [Hc0|Hc0].
    - rewrite Hc0 in *.
      change (Float.of_ratio false (Z.of_N 0) 100) with (Float.Fzero false).
      cbn [Float.ltb0]. unfold Float.format_comma_2f.
      cbn [Float.sign_of Float.hundredths app]. exact Ep.
    - destruct (FloatFacts.hundredths_of_ratio false (Z.of_N c)) as (m & e & -> & Hh).
      { change (100 * 2 ^ 46)%Z with 7036874417766400%Z. lia. }
      cbn [Float.ltb0]. unfold Float.format_comma_2f. cbn [Float.sign_of app].
      rewrite Hh. exact Ep. }
  destruct (canonical_inv ip fp Hcan) as (_ & _ & f1 & f2 & _ & Efp & _).
  assert (En : ip ++ COMMA :: fp = numeral ip fp false).
  { unfold numeral. now rewrite app_nil_r. }
  rewrite Ef, En, (parse_betrag_numeral ip fp false (canonical_well_formed ip fp Hcan)).
  unfold magnitude, credit_of_cents. fold (cents ip fp). rewrite Ev, Efp. reflexivity.
Qed.

Lemma format_then_parse_witness :
  parse_betrag (CSVWriter.format_betrag (credit_of_cents 1234567))
  = Ok (credit_of_cents 1234567).
Proof. apply format_then_parse. vm_compute. reflexivity. Defined.

End FormatProps.


(** * Properties of the writer beyond the specification *)

Module WriterProps.
Import Spec Props Examples MoreExamples CSVWriter WriterFacts.

(** X12: [csv.DictWriter] takes every row the writer makes: the keys of
    the row dictionary are the nine field names of the header, so that no
    row is refused for a key that is no field and no column is left to the
    default value. *)
Theorem dictwriter_takes_every_row (transaction : Transaction) :
  DictWriter.dict_to_list HEADER (DictWriter.transaction_to_rowdict transaction)
  = Some (transaction_to_row transaction)
  /\ List.map fst (DictWriter.transaction_to_rowdict transaction) = HEADER.
Proof. split; reflexivity. Qed.

(** X19: in the row of a record the parser has made the column
    "Buchungstext" holds the memo of the record, the field
    [verwendungszweck], which is not empty and begins with the
    description -- never the bare description the row would fall back to
    for a record without a memo --, the currency is "EUR", and the three
    columns of the other account are empty. *)
Theorem row_of_parsed_record (tr : Transaction) :
  record_text_ok tr ->
  exists memo tail,
    verwendungszweck tr = Some memo
    /\ memo = beschreibung tr ++ tail
    /\ memo <> []
    /\ transaction_to_row tr
       = [ strftime (buchungsdatum tr); strftime (valuta tr); get_umsatzart tr;
           memo; format_betrag (betrag tr); lit "EUR"; []; []; [] ].
Proof.
  intros (Hne & _ & _ & Hw & Hi & _ & tail & Hv).
  exists (beschreibung tr ++ tail), tail.
  split; [exact Hv|]. split; [reflexivity|].
  destruct (beschreibung tr) as [|c s] eqn:Hb; [contradiction|].
  split; [discriminate|].
  unfold transaction_to_row. rewrite Hv, Hw, Hi, Hb. reflexivity.
Qed.

Lemma row_of_parsed_record_witness :
  record_text_ok parsed_transaction
  /\ nth 3 (transaction_to_row parsed_transaction) []
     = lit "MUSTERFIRMA GMBH RATE PER 01.04.2021"
  /\ beschreibung parsed_transaction = lit "MUSTERFIRMA GMBH".
Proof.
  assert (H : record_text_ok parsed_transaction).
  { unfold record_text_ok. do 6 (split; [reflexivity || discriminate|]).
    exists (lit " RATE PER 01.04.2021"). reflexivity. }
  split; [exact H|]. split; [|reflexivity].
  destruct (row_of_parsed_record parsed_transaction H) as (memo & tail & Hv & _ & _ & E).
  rewrite E. cbn [nth].
  assert (Ev : verwendungszweck parsed_transaction
               = Some (lit "MUSTERFIRMA GMBH RATE PER 01.04.2021")) by reflexivity.
  rewrite Ev in Hv. now inversion Hv.
Defined.

End WriterProps.


(** * The file handler and the page reader *)

Module FileProps.
Import Spec Props Examples MoreExamples CSVWriter WriterFacts WriterProps.

(** *** Names and suffixes *)

Lemma rfind_none c : forall s, forallb (fun x => negb (N.eqb x c)) s = true -> rfind c s = None.
Proof.
  induction s as [|x s IH]; cbn [forallb rfind]; intros H; [reflexivity|].
  apply andb_prop in H as [Hx Hs]. rewrite (IH Hs).
  apply negb_true_iff in Hx. now rewrite Hx.
Qed.

Lemma rfind_last c : forall a b,
  forallb (fun x => negb (N.eqb x c)) b = true -> rfind c (a ++ c :: b) = Some (length a).
Proof.
  induction a as [|x a IH]; intros b Hb; cbn [app rfind length].
  - now rewrite (rfind_none c b Hb), N.eqb_refl.
  - now rewrite (IH b Hb).
Qed.

Lemma suffix_inv p :
  suffix p <> [] ->
  exists k, rfind DOT (name p) = Some k /\ 0 < k < length (name p) - 1
            /\ suffix p = skipn k (name p).
Proof.
  unfold suffix. destruct (rfind DOT (name p)) as [k|]; [|intros E; now elim E].
  destruct (Nat.ltb_spec 0 k) as [H0|H0]; cbn [andb]; [|intros E; now elim E].
  destruct (Nat.ltb_spec k (length (name p) - 1)) as [H1|H1]; [|intros E; now elim E].
  intros _. exists k. auto.
Qed.

Lemma split_no_sep sep : forall s,
  forallb (fun x => negb (N.eqb x sep)) s = true -> split sep s = [s].
Proof.
  induction s as [|x s IH]; cbn [forallb split]; intros H; [reflexivity|].
  apply andb_prop in H as [Hx Hs]. apply negb_true_iff in Hx.
  now rewrite Hx, (IH Hs).
Qed.

Lemma no_slash_forallb s :
  Pathlib.has_slash s = false ->
  forallb (fun x => negb (N.eqb x Pathlib.SLASH)) s = true.
Proof.
  unfold Pathlib.has_slash. induction s as [|x s IH]; cbn [existsb forallb]; [auto|].
  intros H. apply orb_false_elim in H as [Hx Hs].
  rewrite N.eqb_sym, Hx. cbn [negb andb]. auto.
Qed.

Lemma has_slash_app a b :
  Pathlib.has_slash (a ++ b) = (Pathlib.has_slash a || Pathlib.has_slash b)%bool.
Proof. unfold Pathlib.has_slash. apply existsb_app. Qed.

(** The name the file handler gives the CSV file of a PDF file. *)
Lemma csv_name_parts (stem : str) out :
  stem <> [] -> Pathlib.has_slash stem = false ->
  let filename := stem ++ lit ".csv" in
  parts (Pathlib.truediv out filename) = parts out ++ [filename]
  /\ suffix (Pathlib.truediv out filename) = lit ".csv"
  /\ Pathlib.stem (Pathlib.truediv out filename) = stem.
Proof.
  intros Hne Hns filename.
  assert (Hfs : Pathlib.has_slash filename = false).
  { unfold filename. now rewrite has_slash_app, Hns. }
  assert (Hparts : parts (Pathlib.truediv out filename) = parts out ++ [filename]).
  { unfold Pathlib.truediv. destruct stem as [|x t]; [contradiction|].
    unfold filename. cbn [app].
    assert (Hx : N.eqb x Pathlib.SLASH = false).
    { unfold Pathlib.has_slash in Hns. cbn [existsb] in Hns.
      apply orb_false_elim in Hns as [Hx _]. now rewrite N.eqb_sym. }
    rewrite Hx. cbn [parts]. f_equal.
    unfold Pathlib.components.
    change (x :: t ++ lit ".csv") with filename.
    rewrite (split_no_sep Pathlib.SLASH filename (no_slash_forallb _ Hfs)).
    cbn [filter]. unfold filename.
    assert (Hkeep : (is_empty ((x :: t) ++ lit ".csv")
                     || Str.eqb ((x :: t) ++ lit ".csv") (lit "."))%bool = false).
    { cbn [app is_empty orb]. change (lit ".") with [DOT]. cbn [Str.eqb].
      destruct t; cbn [app Str.eqb]; apply andb_false_r. }
    now rewrite Hkeep. }
  assert (Hname : name (Pathlib.truediv out filename) = filename).
  { unfold name. rewrite Hparts. apply last_last. }
  assert (Hfind : rfind DOT filename = Some (length stem)).
  { unfold filename. change (lit ".csv") with (DOT :: lit "csv").
    apply rfind_last. reflexivity. }
  assert (Hk : ((0 <? length stem) && (length stem <? length filename - 1))%bool = true).
  { unfold filename. rewrite length_app. change (length (lit ".csv")) with 4.
    destruct stem; [contradiction|]. cbn [length].
    apply andb_true_intro. split; [reflexivity|apply Nat.ltb_lt; lia]. }
  split; [exact Hparts|]. split.
  - unfold suffix. rewrite Hname, Hfind, Hk.
    unfold filename. rewrite skipn_app, skipn_all, Nat.sub_diag. reflexivity.
  - unfold Pathlib.stem, Pathlib.final_name. rewrite Hname, Hfs, Hfind, Hk.
    unfold filename. rewrite firstn_app, firstn_all, Nat.sub_diag. cbn [firstn].
    apply app_nil_r.
Qed.

Lemma in_firstn_in {A} (x : A) : forall k l, In x (firstn k l) -> In x l.
Proof.
  induction k as [|k IH]; intros [|y l] H; cbn [firstn] in H; try contradiction.
  destruct H as [->|H]; [now left|right; auto].
Qed.

Lemma has_slash_firstn k s : Pathlib.has_slash s = false -> Pathlib.has_slash (firstn k s) = false.
Proof.
  unfold Pathlib.has_slash. intros H.
  destruct (existsb (N.eqb Pathlib.SLASH) (firstn k s)) eqn:E; [|reflexivity].
  apply existsb_exists in E as (x & Hin & Hx).
  assert (Hs : existsb (N.eqb Pathlib.SLASH) s = true).
  { apply existsb_exists. exists x. split; [eapply in_firstn_in; eauto|exact Hx]. }
  congruence.
Qed.

(** X15: for a path with the suffix ".pdf" (in any mix of cases) the
    file handler names a CSV file that the writer accepts: the stem of the
    PDF file followed by ".csv", in the output directory. *)
Theorem csv_path_accepted (pdf_path output_dir : Path) :
  FileHandler.is_pdf_file pdf_path = true ->
  Pathlib.has_slash (name pdf_path) = false ->
  validate_output_path (FileHandler.get_output_csv_path pdf_path output_dir) = Ok tt
  /\ parts (FileHandler.get_output_csv_path pdf_path output_dir)
     = parts output_dir ++ [Pathlib.stem pdf_path ++ lit ".csv"]
  /\ Pathlib.stem (FileHandler.get_output_csv_path pdf_path output_dir)
     = Pathlib.stem pdf_path.
Proof.
  intros Hpdf Hns. unfold FileHandler.is_pdf_file in Hpdf. apply str_eqb_eq in Hpdf.
  assert (Hsuf : suffix pdf_path <> []).
  { intros E. rewrite E in Hpdf. discriminate. }
  destruct (suffix_inv pdf_path Hsuf) as (k & Hfind & Hk & _).
  assert (Estem : Pathlib.stem pdf_path = firstn k (name pdf_path)).
  { unfold Pathlib.stem, Pathlib.final_name. rewrite Hns, Hfind.
    destruct (Nat.ltb_spec 0 k) as [H0|H0]; [|lia].
    destruct (Nat.ltb_spec k (length (name pdf_path) - 1)) as [H1|H1]; [|lia]. reflexivity. }
  assert (Hne : Pathlib.stem pdf_path <> []).
  { rewrite Estem. intros E. apply (f_equal (@length char)) in E.
    rewrite length_firstn in E. cbn [length] in E. lia. }
  assert (Hss : Pathlib.has_slash (Pathlib.stem pdf_path) = false).
  { rewrite Estem. now apply has_slash_firstn. }
  destruct (csv_name_parts (Pathlib.stem pdf_path) output_dir Hne Hss) as (H1 & H2 & H3).
  unfold FileHandler.get_output_csv_path, FileHandler.generate_csv_filename.
  split; [|split; assumption].
  unfold validate_output_path. now rewrite H2.
Qed.

Lemma csv_path_accepted_witness :
  validate_output_path
    (FileHandler.get_output_csv_path {| parts := [lit "in"; lit "Auszug.2021.PDF"] |}
                                     {| parts := [lit "in"; lit "csv"] |}) = Ok tt
  /\ parts (FileHandler.get_output_csv_path {| parts := [lit "in"; lit "Auszug.2021.PDF"] |}
                                            {| parts := [lit "in"; lit "csv"] |})
     = [lit "in"; lit "csv"; lit "Auszug.2021.csv"].
Proof.
  destruct (csv_path_accepted {| parts := [lit "in"; lit "Auszug.2021.PDF"] |}
                              {| parts := [lit "in"; lit "csv"] |} eq_refl eq_refl)
    as (H1 & H2 & _).
  split; [exact H1|exact H2].
Defined.

(** *** The order of paths *)










(** *** The default output directory *)

Lemma truediv_csv base : parts (Pathlib.truediv base (lit "csv")) = parts base ++ [lit "csv"].
Proof. reflexivity. Qed.

(** X18: a file and the directory it lies in have the same default
    output directory, the subdirectory "csv" of that directory: the CSV
    file of a single PDF file goes where the CSV files of its directory
    go. *)
Theorem default_output_dir_of_file (disk : FileHandler.Disk) (file dir : Path) (n : str) :
  FileHandler.is_file disk file = true ->
  FileHandler.is_file disk dir = false ->
  parts file = parts dir ++ [n] ->
  Pathlib.has_slash n = false ->
  FileHandler.get_default_output_dir disk file
  = FileHandler.get_default_output_dir disk dir
  /\ parts (FileHandler.get_default_output_dir disk dir) = parts dir ++ [lit "csv"].
Proof.
  intros Hf Hd Hp Hn. unfold FileHandler.get_default_output_dir,
    FileHandler.get_base_directory. rewrite Hf, Hd.
  split; [|apply truediv_csv]. f_equal.
  unfold Pathlib.parent. rewrite Hp. destruct dir as [dp]. cbn [parts] in *.
  destruct dp as [|a dp]; cbn [app].
  - now rewrite Hn.
  - destruct (dp ++ [n]) as [|b l] eqn:E; [now destruct dp|].
    rewrite <- E. change (a :: dp ++ [n]) with ((a :: dp) ++ [n]).
    now rewrite removelast_last.
Qed.

Lemma default_output_dir_of_file_witness :
  FileHandler.get_default_output_dir listing_disk {| parts := [lit "in"; lit "a.pdf"] |}
  = FileHandler.get_default_output_dir listing_disk {| parts := [lit "in"] |}
  /\ parts (FileHandler.get_default_output_dir listing_disk {| parts := [lit "in"] |})
     = [lit "in"; lit "csv"].
Proof.
  exact (default_output_dir_of_file listing_disk {| parts := [lit "in"; lit "a.pdf"] |}
                                    {| parts := [lit "in"] |} (lit "a.pdf")
                                    eq_refl eq_refl eq_refl eq_refl).
Defined.

End FileProps.

(** * The pages of a statement *)

Module PageProps.
Import Spec Props Examples TransactionParser PDFParser.





End PageProps.

